(** * Extrude Separate Faces: a shallow embedding of [SvExtrudeSeparateNode]

    The node of [nodes/modifier_change/extrude_separate.py] is embedded as
    pure functions over an indexed mesh.  Python exceptions are values of
    [exn]; the arithmetic of coordinates is a parameter ([Scalar]) so that
    the same definitions run on exact rationals and are reasoned about over
    the reals.  Edge data is carried by the mesh kernel and never inspected
    by the node, so the mesh below keeps vertices and faces only. *)

From Stdlib Require Import String.
From Stdlib Require Import List ZArith Bool Arith Lia.
From Stdlib Require Import QArith Qreduction.
From Stdlib Require Import Reals Lra Psatz.
Import ListNotations.

Close Scope R_scope.
Close Scope Q_scope.
Close Scope Z_scope.
Open Scope nat_scope.

Set Implicit Arguments.

(** ** Exceptions *)

Inductive exn : Type :=
| EmptyMaskError   (* [l[-1]] on an empty list: nothing to repeat *)
| IndexError       (* [l[0]] on an empty list *)
| InvalidTopology  (* a face names a vertex the mesh does not have *)
| ValueError       (* [Matrix.inverted()] on a singular matrix *)
| KeyError         (* [MASK_MEANING[k]] for an unknown [k] *)
| TypeError.       (* a scalar where a vector is expected, or the reverse *)

Definition result (A : Type) : Type := (exn + A)%type.

Definition ret {A} (a : A) : result A := inr a.
Definition raise {A} (e : exn) : result A := inl e.

Definition bind {A B} (c : result A) (k : A -> result B) : result B :=
  match c with
  | inl e => inl e
  | inr a => k a
  end.

Declare Scope result_scope.
Delimit Scope result_scope with result.
Notation "x <- c ;; k" := (bind c (fun x => k))
  (at level 61, c at next level, right associativity) : result_scope.
Notation "' p <- c ;; k" := (bind c (fun p => k))
  (at level 61, p pattern, c at next level, right associativity) : result_scope.
Open Scope result_scope.

Fixpoint mapM {A B} (f : A -> result B) (l : list A) : result (list B) :=
  match l with
  | [] => ret []
  | a :: l' => b <- f a ;; bs <- mapM f l' ;; ret (b :: bs)
  end.

Fixpoint foldM {A S} (f : S -> A -> result S) (l : list A) (s : S) : result S :=
  match l with
  | [] => ret s
  | a :: l' => s' <- f s a ;; foldM f l' s'
  end.

(** ** Scalars

    The operations Python and mathutils perform on coordinates.  [cos_pi]
    and [sin_pi] are [cos(pi)] and [sin(pi)] as the platform evaluates them:
    the only trigonometric values the node asks for. *)

Class Scalar (F : Type) : Type := {
  f0 : F;
  f1 : F;
  fadd : F -> F -> F;
  fsub : F -> F -> F;
  fmul : F -> F -> F;
  fdiv : F -> F -> F;
  fopp : F -> F;
  fsqrt : F -> F;
  cos_pi : F;
  sin_pi : F;
  feqb : F -> F -> bool;
  fleb : F -> F -> bool
}.

Declare Scope scalar_scope.
Delimit Scope scalar_scope with sc.
Infix "+" := fadd : scalar_scope.
Infix "-" := fsub : scalar_scope.
Infix "*" := fmul : scalar_scope.
Infix "/" := fdiv : scalar_scope.
Notation "- x" := (fopp x) : scalar_scope.

(** ** Vectors and matrices (mathutils) *)

Record Vector (F : Type) : Type := mkVector { vx : F; vy : F; vz : F }.
Record Row4 (F : Type) : Type := mkRow { r0 : F; r1 : F; r2 : F; r3 : F }.
Record Matrix (F : Type) : Type :=
  mkMatrix { m0 : Row4 F; m1 : Row4 F; m2 : Row4 F; m3 : Row4 F }.

Arguments mkVector {F} _ _ _.
Arguments mkRow {F} _ _ _ _.
Arguments mkMatrix {F} _ _ _ _.

Section LinearAlgebra.
Context {F : Type} {SF : Scalar F}.
Local Open Scope scalar_scope.

Definition zero_vector : Vector F := mkVector f0 f0 f0.

(** [v * s] *)
Definition vscale (v : Vector F) (s : F) : Vector F :=
  mkVector (vx v * s) (vy v * s) (vz v * s).

Definition vadd (a b : Vector F) : Vector F :=
  mkVector (vx a + vx b) (vy a + vy b) (vz a + vz b).

Definition dot (a b : Vector F) : F :=
  vx a * vx b + vy a * vy b + vz a * vz b.

(** [a.cross(b)] *)
Definition cross (a b : Vector F) : Vector F :=
  mkVector (vy a * vz b - vz a * vy b)
           (vz a * vx b - vx a * vz b)
           (vx a * vy b - vy a * vx b).

(** [v.normalized()]: a vector of no length stays the zero vector, any
    other one is multiplied by the reciprocal of its length. *)
Definition normalized (v : Vector F) : Vector F :=
  let d := dot v v in
  if fleb d f0 then zero_vector else vscale v (f1 / fsqrt d).

(** [Matrix()] *)
Definition identity : Matrix F :=
  mkMatrix (mkRow f1 f0 f0 f0) (mkRow f0 f1 f0 f0)
           (mkRow f0 f0 f1 f0) (mkRow f0 f0 f0 f1).

(** [Matrix.Translation(v)] *)
Definition Translation (v : Vector F) : Matrix F :=
  mkMatrix (mkRow f1 f0 f0 (vx v)) (mkRow f0 f1 f0 (vy v))
           (mkRow f0 f0 f1 (vz v)) (mkRow f0 f0 f0 f1).

(** [Matrix.Rotation(pi, 4, 'X')] *)
Definition Rotation_pi_X : Matrix F :=
  mkMatrix (mkRow f1 f0 f0 f0) (mkRow f0 cos_pi (- sin_pi) f0)
           (mkRow f0 sin_pi cos_pi f0) (mkRow f0 f0 f0 f1).

(** [Matrix(rows).to_4x4()] for three rows of three entries. *)
Definition to_4x4 (rows : (F * F * F) * (F * F * F) * (F * F * F)) : Matrix F :=
  let '((a0, a1, a2), (b0, b1, b2), (c0, c1, c2)) := rows in
  mkMatrix (mkRow a0 a1 a2 f0) (mkRow b0 b1 b2 f0)
         (mkRow c0 c1 c2 f0) (mkRow f0 f0 f0 f1).

(** [zip(x[:], y[:], z[:])]: the i-th row holds the i-th entries of the
    three vectors. *)
Definition zip_xyz (x y z : Vector F) : (F * F * F) * (F * F * F) * (F * F * F) :=
  ((vx x, vx y, vx z), (vy x, vy y, vy z), (vz x, vz y, vz z)).

(** Scale matrix of [bmesh.ops.scale]: [vec] on the diagonal. *)
Definition scale_matrix (vec : Vector F) : Matrix F :=
  mkMatrix (mkRow (vx vec) f0 f0 f0) (mkRow f0 (vy vec) f0 f0)
           (mkRow f0 f0 (vz vec) f0) (mkRow f0 f0 f0 f1).

Definition col0 (m : Matrix F) : Row4 F :=
  mkRow (r0 (m0 m)) (r0 (m1 m)) (r0 (m2 m)) (r0 (m3 m)).
Definition col1 (m : Matrix F) : Row4 F :=
  mkRow (r1 (m0 m)) (r1 (m1 m)) (r1 (m2 m)) (r1 (m3 m)).
Definition col2 (m : Matrix F) : Row4 F :=
  mkRow (r2 (m0 m)) (r2 (m1 m)) (r2 (m2 m)) (r2 (m3 m)).
Definition col3 (m : Matrix F) : Row4 F :=
  mkRow (r3 (m0 m)) (r3 (m1 m)) (r3 (m2 m)) (r3 (m3 m)).

Definition dot4 (a b : Row4 F) : F :=
  r0 a * r0 b + r1 a * r1 b + r2 a * r2 b + r3 a * r3 b.

Definition row_mul (r : Row4 F) (b : Matrix F) : Row4 F :=
  mkRow (dot4 r (col0 b)) (dot4 r (col1 b)) (dot4 r (col2 b)) (dot4 r (col3 b)).

(** [a @ b] *)
Definition matmul (a b : Matrix F) : Matrix F :=
  mkMatrix (row_mul (m0 a) b) (row_mul (m1 a) b)
           (row_mul (m2 a) b) (row_mul (m3 a) b).

(** A matrix applied to a point ([mul_m4_v3]): the point has weight one
    and the last row is not used. *)
Definition mul_m4_v3 (m : Matrix F) (p : Vector F) : Vector F :=
  let app (r : Row4 F) := r0 r * vx p + r1 r * vy p + r2 r * vz p + r3 r in
  mkVector (app (m0 m)) (app (m1 m)) (app (m2 m)).

Definition det3 (a b c d e f g h i : F) : F :=
  a * (e * i - f * h) - b * (d * i - f * g) + c * (d * h - e * g).

(** Cofactors: [cof_ij] is the signed minor that deletes row i, column j. *)
Section Cofactors.
Variable m : Matrix F.
Let a00 := r0 (m0 m).
Let a01 := r1 (m0 m).
Let a02 := r2 (m0 m).
Let a03 := r3 (m0 m).
Let a10 := r0 (m1 m).
Let a11 := r1 (m1 m).
Let a12 := r2 (m1 m).
Let a13 := r3 (m1 m).
Let a20 := r0 (m2 m).
Let a21 := r1 (m2 m).
Let a22 := r2 (m2 m).
Let a23 := r3 (m2 m).
Let a30 := r0 (m3 m).
Let a31 := r1 (m3 m).
Let a32 := r2 (m3 m).
Let a33 := r3 (m3 m).

Definition cof00 := det3 a11 a12 a13 a21 a22 a23 a31 a32 a33.
Definition cof01 := - det3 a10 a12 a13 a20 a22 a23 a30 a32 a33.
Definition cof02 := det3 a10 a11 a13 a20 a21 a23 a30 a31 a33.
Definition cof03 := - det3 a10 a11 a12 a20 a21 a22 a30 a31 a32.
Definition cof10 := - det3 a01 a02 a03 a21 a22 a23 a31 a32 a33.
Definition cof11 := det3 a00 a02 a03 a20 a22 a23 a30 a32 a33.
Definition cof12 := - det3 a00 a01 a03 a20 a21 a23 a30 a31 a33.
Definition cof13 := det3 a00 a01 a02 a20 a21 a22 a30 a31 a32.
Definition cof20 := det3 a01 a02 a03 a11 a12 a13 a31 a32 a33.
Definition cof21 := - det3 a00 a02 a03 a10 a12 a13 a30 a32 a33.
Definition cof22 := det3 a00 a01 a03 a10 a11 a13 a30 a31 a33.
Definition cof23 := - det3 a00 a01 a02 a10 a11 a12 a30 a31 a32.
Definition cof30 := - det3 a01 a02 a03 a11 a12 a13 a21 a22 a23.
Definition cof31 := det3 a00 a02 a03 a10 a12 a13 a20 a22 a23.
Definition cof32 := - det3 a00 a01 a03 a10 a11 a13 a20 a21 a23.
Definition cof33 := det3 a00 a01 a02 a10 a11 a12 a20 a21 a22.

(** [m.determinant()], expanded along the first row. *)
Definition determinant : F :=
  a00 * cof00 + a01 * cof01 + a02 * cof02 + a03 * cof03.

(** The adjugate: the transposed matrix of cofactors. *)
Definition adjugate : Matrix F :=
  mkMatrix (mkRow cof00 cof10 cof20 cof30) (mkRow cof01 cof11 cof21 cof31)
           (mkRow cof02 cof12 cof22 cof32) (mkRow cof03 cof13 cof23 cof33).
End Cofactors.

Definition row_div (r : Row4 F) (d : F) : Row4 F :=
  mkRow (r0 r / d) (r1 r / d) (r2 r / d) (r3 r / d).

Definition mat_div (m : Matrix F) (d : F) : Matrix F :=
  mkMatrix (row_div (m0 m) d) (row_div (m1 m) d)
           (row_div (m2 m) d) (row_div (m3 m) d).

(** [m.inverted()]: the adjugate over the determinant; a matrix of
    determinant zero raises [ValueError]. *)
Definition inverted (m : Matrix F) : result (Matrix F) :=
  let d := determinant m in
  if feqb d f0 then raise ValueError else ret (mat_div (adjugate m) d).

End LinearAlgebra.

(** ** Helpers of the add-on that the node calls *)

Section Helpers.
Context {A : Type}.

Fixpoint last_elem (l : list A) : option A :=
  match l with
  | [] => None
  | [a] => Some a
  | _ :: l' => last_elem l'
  end.

(** Modelled from the spec: [fullList] of [sverchok.data_structure] is not
    part of the sources at hand.  A list shorter than [count] is filled with
    its last element; an empty one has no last element to repeat, which is
    the failure the spec calls [EmptyMaskError]. *)
Definition fullList (l : list A) (count : nat) : result (list A) :=
  if length l <? count then
    match last_elem l with
    | None => raise EmptyMaskError
    | Some a => ret (l ++ repeat a (count - length l))
    end
  else ret l.

(** Modelled from the spec: one argument of [match_long_repeat] of
    [sverchok.data_structure]: the list is extended to length [n] by
    repeating its last element; an empty list yields nothing. *)
Definition repeat_last (l : list A) (n : nat) : list A :=
  match last_elem l with
  | None => []
  | Some a => l ++ repeat a (n - length l)
  end.

End Helpers.

(** ** The mesh kernel (bmesh)

    A face is known by its identity; its vertex loop is a list of vertex
    indices and never changes once the face exists.  [face_mask] is the value
    of the integer face layer named 'mask'.  A vertex index is the position
    of the vertex in the mesh. *)

Record BMFace : Type := mkFace {
  face_id : nat;
  face_verts : list nat;
  face_mask : Z
}.

Record BMesh (F : Type) : Type := mkMesh {
  bm_verts : list (Vector F);
  bm_faces : list BMFace;
  bm_next : nat
}.

Arguments mkMesh {F} _ _ _.

Definition MASK : Z := 0.
Definition OUT : Z := 1.
Definition IN : Z := 2.

Definition MASK_MEANING (k : Z) : result string :=
  if (k =? MASK)%Z then ret "mask"%string
  else if (k =? OUT)%Z then ret "out"%string
  else if (k =? IN)%Z then ret "in"%string
  else raise KeyError.

(** Truth value of a mask entry. *)
Definition truthy (m : Z) : bool := negb (m =? 0)%Z.

(** What the node does not decide itself about geometry: how the kernel
    derives a face's normal and median centre from the positions of its
    loop, and what its matrix inversion leaves behind on a singular matrix. *)
Class MeshKernel (F : Type) : Type := {
  calc_normal : list (Vector F) -> Vector F;
  calc_center_median : list (Vector F) -> Vector F;
  invert_failed : Matrix F -> Matrix F
}.

Definition set_mask (value : Z) (f : BMFace) : BMFace :=
  mkFace (face_id f) (face_verts f) value.

(** Modelled from the spec: the loop of [fill_faces_layer] of
    [sverchok.utils.sv_bmesh_utils]: faces and mask entries are paired in
    order and a face whose entry is truthy receives [value]. *)
Fixpoint fill_layer (fs : list BMFace) (ms : list Z) (value : Z) : list BMFace :=
  match fs, ms with
  | f :: fs', m :: ms' =>
      (if truthy m then set_mask value f else f) :: fill_layer fs' ms' value
  | _, _ => fs
  end.

(** The sides of one extruded face: for every edge of the loop a quad
    (next old, next new, new, old). *)
Fixpoint side_loops (old new : list nat) (old0 new0 : nat) : list (list nat) :=
  match old, new with
  | o :: old', n :: new' =>
      let o' := hd old0 old' in
      let n' := hd new0 new' in
      [o'; n'; n; o] :: side_loops old' new' old0 new0
  | _, _ => []
  end.

Fixpoint number_faces (start : nat) (mask : Z) (loops : list (list nat)) : list BMFace :=
  match loops with
  | [] => []
  | l :: loops' => mkFace start l mask :: number_faces (S start) mask loops'
  end.

Definition mem_nat (n : nat) (l : list nat) : bool := existsb (Nat.eqb n) l.

Section Kernel.
Context {F : Type} {SF : Scalar F} {MK : MeshKernel F}.

(** [v.co] of the vertex of index [i]. *)
Definition co (bm : BMesh F) (i : nat) : Vector F := nth i (bm_verts bm) zero_vector.

Definition face_normal (bm : BMesh F) (f : BMFace) : Vector F :=
  calc_normal (map (co bm) (face_verts f)).

Definition face_center_median (bm : BMesh F) (f : BMFace) : Vector F :=
  calc_center_median (map (co bm) (face_verts f)).

(** Modelled from the spec: [bmesh_from_pydata] of
    [sverchok.utils.sv_bmesh_utils]: vertices in input order, one face per
    index loop, [InvalidTopology] when a loop names a vertex out of range.
    A new integer layer reads 0 on every face. *)
Definition bmesh_from_pydata (verts : list (Vector F)) (edges : list (nat * nat))
  (faces : list (list nat)) : result (BMesh F) :=
  let in_range i := i <? length verts in
  if forallb (fun e => in_range (fst e) && in_range (snd e)) edges
     && forallb (forallb in_range) faces
  then ret (mkMesh verts (number_faces 0 0%Z faces) (length faces))
  else raise InvalidTopology.

(** Modelled from the spec: [pydata_from_bmesh]: positions in mesh order and
    the index loop of every face in mesh order. *)
Definition pydata_from_bmesh (bm : BMesh F) : list (Vector F) * list (list nat) :=
  (bm_verts bm, map face_verts (bm_faces bm)).

Definition fill_faces_layer (bm : BMesh F) (masks : list Z) (value : Z) : BMesh F :=
  mkMesh (bm_verts bm) (fill_layer (bm_faces bm) masks value) (bm_next bm).

(** One face of [bmesh.ops.extrude_discrete_faces]: the loop is duplicated
    on new vertices at the same positions, the cap is a copy of the face on
    the new loop, the sides bridge the old loop and the new one.  Cap and
    sides inherit the face's layer values; the face itself is deleted once
    every face has been extruded. *)
Definition extrude_one (st : BMesh F * list BMFace) (f : BMFace)
  : BMesh F * list BMFace :=
  let '(bm, caps) := st in
  let base := length (bm_verts bm) in
  let ring := seq base (length (face_verts f)) in
  let cap := mkFace (bm_next bm) ring (face_mask f) in
  let sides := number_faces (S (bm_next bm)) (face_mask f)
                 (side_loops (face_verts f) ring
                    (hd 0 (face_verts f)) (hd 0 ring)) in
  (mkMesh (bm_verts bm ++ map (co bm) (face_verts f))
          (bm_faces bm ++ cap :: sides)
          (S (bm_next bm) + length sides),
   caps ++ [cap]).

(** [bmesh.ops.extrude_discrete_faces(bm, faces=sel)['faces']]: the mesh
    after the operation and the caps, one per selected face, in order. *)
Definition extrude_discrete_faces (bm : BMesh F) (sel : list BMFace)
  : BMesh F * list BMFace :=
  let '(bm', caps) := fold_left extrude_one sel (bm, []) in
  let gone := map face_id sel in
  (mkMesh (bm_verts bm')
          (filter (fun f => negb (mem_nat (face_id f) gone)) (bm_faces bm'))
          (bm_next bm'),
   caps).

Fixpoint set_nth {X : Type} (i : nat) (x : X) (l : list X) : list X :=
  match l, i with
  | [], _ => []
  | _ :: l', O => x :: l'
  | y :: l', S i' => y :: set_nth i' x l'
  end.

(** The loop at the end of every transform operator: each listed vertex is
    moved by [g]. *)
Definition move_verts (g : Vector F -> Vector F) (verts : list nat) (bm : BMesh F)
  : BMesh F :=
  mkMesh
    (fold_left (fun vs i => set_nth i (g (nth i vs zero_vector)) vs) verts (bm_verts bm))
    (bm_faces bm) (bm_next bm).

Definition row_is_zero (r : Row4 F) : bool :=
  feqb (r0 r) f0 && feqb (r1 r) f0 && feqb (r2 r) f0 && feqb (r3 r) f0.

Definition is_zero_m4 (m : Matrix F) : bool :=
  row_is_zero (m0 m) && row_is_zero (m1 m) && row_is_zero (m2 m) && row_is_zero (m3 m).

(** The kernel's own inversion: no exception, [invert_failed] on a singular
    matrix. *)
Definition invert_m4 (m : Matrix F) : Matrix F :=
  match inverted m with
  | inr i => i
  | inl _ => invert_failed m
  end.

(** [bmesh.ops.transform(bm, matrix, space, verts)]: with a space that is
    not the zero matrix the matrix is conjugated by it. *)
Definition ops_transform (bm : BMesh F) (matrix space : Matrix F) (verts : list nat)
  : BMesh F :=
  let mat := if is_zero_m4 space then matrix
             else matmul (matmul (invert_m4 space) matrix) space in
  move_verts (mul_m4_v3 mat) verts bm.

(** [bmesh.ops.scale(bm, vec, space, verts)] *)
Definition ops_scale (bm : BMesh F) (vec : Vector F) (space : Matrix F)
  (verts : list nat) : BMesh F :=
  ops_transform bm (scale_matrix vec) space verts.

Definition zero_m4 : Matrix F :=
  mkMatrix (mkRow f0 f0 f0 f0) (mkRow f0 f0 f0 f0)
           (mkRow f0 f0 f0 f0) (mkRow f0 f0 f0 f0).

(** [bmesh.ops.translate(bm, verts, vec)]: a transform by the translation
    matrix, no space given. *)
Definition ops_translate (bm : BMesh F) (vec : Vector F) (verts : list nat)
  : BMesh F :=
  ops_transform bm (Translation vec) zero_m4 verts.

End Kernel.

(** ** The node *)

Inductive ExtrudeMode : Type := NORMAL | MATRIX.
Inductive MaskMode : Type := NOEXTRUDE | NOTRANSFORM.

(** An entry of the Scale input: a number, or a vector when the socket is
    fed by a vertices socket. *)
Inductive ScaleValue (F : Type) : Type :=
| ScaleFloat (s : F)
| ScaleVector (v : Vector F).

Arguments ScaleFloat {F} _.
Arguments ScaleVector {F} _.

(** The properties of the node. *)
Record Config : Type := mkConfig {
  extrude_mode : ExtrudeMode;
  mask_mode : MaskMode;
  mask_out_type : list string
}.

(** What [process] reads from the sockets once, before the loop. *)
Record Links : Type := mkLinks {
  need_mask_out : bool;
  vector_in : bool;
  linked_extruded_polygons : bool;
  linked_other_polygons : bool
}.

Definition mem_string (s : string) (l : list string) : bool :=
  existsb (String.eqb s) l.

Fixpoint loop_eqb (a b : list nat) : bool :=
  match a, b with
  | [], [] => true
  | x :: a', y :: b' => Nat.eqb x y && loop_eqb a' b'
  | _, _ => false
  end.

(** [f in l] for index loops. *)
Definition mem_loop (f : list nat) (l : list (list nat)) : bool :=
  existsb (loop_eqb f) l.

Section Node.
Context {F : Type} {SF : Scalar F} {MK : MeshKernel F}.
Local Open Scope scalar_scope.

(** One mesh of the batch, as the loop of [process] receives it. *)
Record Item : Type := mkItem {
  vertices : list (Vector F);
  edges : list (nat * nat);
  faces : list (list nat);
  masks : list Z;
  heights : list F;
  scales : list (ScaleValue F);
  matrixes : list (Matrix F)
}.

(** What one turn of the loop appends to the result lists; [new_mask] is
    there only when the Mask output is wanted. *)
Record ItemResult : Type := mkItemResult {
  new_vertices : list (Vector F);
  new_faces : list (list nat);
  new_extruded_faces : list (list nat);
  new_other_faces : list (list nat);
  new_mask : option (list Z)
}.

Definition get_out_mask (cfg : Config) (bm : BMesh F) (extruded_faces : list BMFace)
  : result (list Z) :=
  let ids := map face_id extruded_faces in
  let tagged := map (fun face => if mem_nat (face_id face) ids
                                 then set_mask IN face else face) (bm_faces bm) in
  mapM (fun face => name <- MASK_MEANING (face_mask face) ;;
                    ret (Z.b2z (mem_string name (mask_out_type cfg)))) tagged.

(** Lines 205-208: the faces handed to the extrusion. *)
Definition faces_to_extrude (mode : MaskMode) (bm_faces : list BMFace) (masks : list Z)
  : list BMFace :=
  match mode with
  | NOEXTRUDE => map fst (filter (fun fm => truthy (snd fm)) (combine bm_faces masks))
  | NOTRANSFORM => bm_faces
  end.

Definition FaceData : Type := BMFace * F * ScaleValue F * Matrix F.

(** Lines 212-215: the caps the loop visits, with their parameters. *)
Definition face_data (mode : MaskMode) (extruded_faces : list BMFace)
  (masks : list Z) (heights : list F) (scales : list (ScaleValue F))
  (matrixes : list (Matrix F)) : list FaceData :=
  match mode with
  | NOEXTRUDE =>
      combine (combine (combine extruded_faces heights) scales) matrixes
  | NOTRANSFORM =>
      map (fun t => match t with (face, mask, height, scale, matrix) =>
                      (face, height, scale, matrix) end)
          (filter (fun t => match t with (_, mask, _, _, _) => truthy mask end)
             (combine (combine (combine (combine extruded_faces masks) heights)
                         scales) matrixes))
  end.

(** Lines 222-229: the rotation part of the local frame. *)
Definition local_rotation (normal : Vector F) : Matrix F :=
  if feqb (vx normal) f0 && feqb (vy normal) f0 then
    if fleb f0 (vz normal) then identity else Rotation_pi_X
  else
    let z_axis := normal in
    let x_axis := normalized (mkVector (vy z_axis * - f1) (vx z_axis) f0) in
    let y_axis := normalized (cross z_axis x_axis) in
    to_4x4 (zip_xyz x_axis y_axis z_axis).

(** Lines 231-234: the reference frame of a cap. *)
Definition local_space (normal center : Vector F) : result (Matrix F) :=
  inverted (matmul (Translation center) (local_rotation normal)).

(** Line 219, read where the scale operator receives it. *)
Definition scale_vec (vector_in : bool) (scale : ScaleValue F) : result (Vector F) :=
  match vector_in, scale with
  | true, ScaleVector v => ret v
  | false, ScaleFloat s => ret (mkVector s s s)
  | _, _ => raise TypeError
  end.

(** Lines 217-244: one turn of the loop over [face_data]. *)
Definition transform_cap (cfg : Config) (lk : Links)
  (st : BMesh F * list (list nat)) (fd : FaceData)
  : result (BMesh F * list (list nat)) :=
  let '(bm, new_extruded_faces) := st in
  let '(face, height, scale, matrix) := fd in
  let normal := face_normal bm face in
  let dr := vscale normal height in
  let center := face_center_median bm face in
  space <- local_space normal center ;;
  bm' <- match extrude_mode cfg with
         | NORMAL =>
             vec <- scale_vec (vector_in lk) scale ;;
             ret (ops_translate (ops_scale bm vec space (face_verts face))
                    dr (face_verts face))
         | MATRIX => ret (ops_transform bm matrix space (face_verts face))
         end ;;
  ret (bm',
       if linked_extruded_polygons lk || linked_other_polygons lk
       then new_extruded_faces ++ [face_verts face]
       else new_extruded_faces).

(** Lines 193-259: the body of the loop over the batch. *)
Definition process_item (cfg : Config) (lk : Links) (it : Item) : result ItemResult :=
  let n := length (faces it) in
  heights' <- fullList (heights it) n ;;
  scales' <- fullList (scales it) n ;;
  matrixes' <- fullList (matrixes it) n ;;
  masks' <- fullList (masks it) n ;;
  bm <- bmesh_from_pydata (vertices it) (edges it) (faces it) ;;
  let bm := fill_faces_layer bm masks' OUT in
  let sel := faces_to_extrude (mask_mode cfg) (bm_faces bm) masks' in
  let '(bm, extruded_faces) := extrude_discrete_faces bm sel in
  let fd := face_data (mask_mode cfg) extruded_faces masks' heights' scales' matrixes' in
  st <- foldM (transform_cap cfg lk) fd (bm, []) ;;
  let '(bm, new_extruded_faces) := st in
  let '(new_vertices, new_faces) := pydata_from_bmesh bm in
  let new_other_faces :=
    if linked_other_polygons lk
    then filter (fun f => negb (mem_loop f new_extruded_faces)) new_faces
    else [] in
  new_mask <- (if need_mask_out lk
               then m <- get_out_mask cfg bm extruded_faces ;; ret (Some m)
               else ret None) ;;
  ret (mkItemResult new_vertices new_faces new_extruded_faces new_other_faces new_mask).

End Node.

(** ** Sockets and [process] *)

(** An input socket: whether something is connected to it, and what
    [sv_get()] reads from it (for Height and Scale the node's own property
    when nothing is connected). *)
Record Socket (A : Type) : Type := mkSocket {
  is_linked : bool;
  sv_data : A
}.

Arguments mkSocket {A} _ _.

(** [socket.sv_get(default=d)] *)
Definition sv_get_default {A} (s : Socket A) (d : A) : A :=
  if is_linked s then sv_data s else d.

(** The Matrix input arrives as a list of matrices or as a list of lists. *)
Inductive MatrixData (F : Type) : Type :=
| FlatMatrices (l : list (Matrix F))
| NestedMatrices (l : list (list (Matrix F))).

Arguments FlatMatrices {F} _.
Arguments NestedMatrices {F} _.

Record Inputs (F : Type) : Type := mkInputs {
  in_Vertices : Socket (list (list (Vector F)));
  in_Edges : Socket (list (list (nat * nat)));
  in_Polygons : Socket (list (list (list nat)));
  in_Mask : Socket (list (list Z));
  in_Height : Socket (list (list F));
  in_Scale : Socket (list (list (ScaleValue F)));
  in_Scale_other_is_vertices : bool;
  in_Matrix : option (Socket (MatrixData F))
}.

(** Which outputs are connected; a node saved by an older version may have
    no Mask output. *)
Record OutputLinks : Type := mkOutputLinks {
  Vertices_linked : bool;
  Edges_linked : bool;
  Polygons_linked : bool;
  ExtrudedPolys_linked : bool;
  OtherPolys_linked : bool;
  Mask_socket : option bool
}.

(** What the outputs hold; [None] where nothing has been set. *)
Record Outputs (F : Type) : Type := mkOutputs {
  out_Vertices : option (list (list (Vector F)));
  out_Polygons : option (list (list (list nat)));
  out_ExtrudedPolys : option (list (list (list nat)));
  out_OtherPolys : option (list (list (list nat)));
  out_Mask : option (list (list Z))
}.

Arguments mkOutputs {F} _ _ _ _ _.

Record Node (F : Type) : Type := mkNode {
  config : Config;
  inputs : Inputs F;
  output_links : OutputLinks;
  outputs : Outputs F
}.

Definition any_output_linked (o : OutputLinks) : bool :=
  Vertices_linked o || Edges_linked o || Polygons_linked o
  || ExtrudedPolys_linked o || OtherPolys_linked o
  || match Mask_socket o with Some b => b | None => false end.

Section Process.
Context {F : Type} {SF : Scalar F} {MK : MeshKernel F}.

(** Lines 134-142 *)
Definition scale_socket_type (i : Inputs F) : bool :=
  is_linked (in_Scale i) && in_Scale_other_is_vertices i.

(** Lines 171-177 *)
Definition matrixes_of (i : Inputs F) : result (list (list (Matrix F))) :=
  let data := match in_Matrix i with
              | Some s => sv_get_default s (NestedMatrices [[identity]])
              | None => NestedMatrices [[identity]]
              end in
  match data with
  | FlatMatrices [] | NestedMatrices [] => raise IndexError
  | FlatMatrices l => ret [l]
  | NestedMatrices l => ret l
  end.

Definition longest (ls : list nat) : nat := fold_right Nat.max 0 ls.

(** Line 189 and the [zip] of line 191.  Past the end of a shorter list the
    batch repeats its last element, the very list object, which [fullList]
    extends in place; the lists of one turn are taken here as fresh values,
    since [fullList] only ever appends copies of the last entry and the loop
    reads no entry beyond the face count. *)
Definition meshes_of (vertices_s : list (list (Vector F)))
  (edges_s : list (list (nat * nat))) (faces_s : list (list (list nat)))
  (masks_s : list (list Z)) (heights_s : list (list F))
  (scales_s : list (list (ScaleValue F))) (matrixes_s : list (list (Matrix F)))
  : list (@Item F) :=
  let n := longest [length vertices_s; length edges_s; length faces_s;
                    length masks_s; length heights_s; length scales_s;
                    length matrixes_s] in
  map (fun t => match t with (v, e, f, m, h, s, x) => mkItem v e f m h s x end)
    (combine (combine (combine (combine (combine (combine
       (repeat_last vertices_s n) (repeat_last edges_s n))
       (repeat_last faces_s n)) (repeat_last masks_s n))
       (repeat_last heights_s n)) (repeat_last scales_s n))
       (repeat_last matrixes_s n)).

Definition flatten_option {A} (l : list (option A)) : list A :=
  flat_map (fun o => match o with Some a => [a] | None => [] end) l.

(** Lines 151-267 *)
Definition process (node : Node F) : result (Outputs F) :=
  let i := inputs node in
  let o := output_links node in
  if negb (is_linked (in_Vertices i) && is_linked (in_Polygons i)) then
    ret (outputs node)
  else if negb (any_output_linked o) then
    ret (outputs node)
  else
    let lk := mkLinks
                (match Mask_socket o with Some b => b | None => false end)
                (scale_socket_type i)
                (ExtrudedPolys_linked o) (OtherPolys_linked o) in
    let vertices_s := sv_data (in_Vertices i) in
    let edges_s := sv_get_default (in_Edges i) [[]] in
    let faces_s := sv_get_default (in_Polygons i) [[]] in
    let masks_s := sv_get_default (in_Mask i) [[1%Z]] in
    let heights_s := sv_data (in_Height i) in
    let scales_s := sv_data (in_Scale i) in
    matrixes_s <- matrixes_of i ;;
    let meshes := meshes_of vertices_s edges_s faces_s masks_s heights_s
                    scales_s matrixes_s in
    rs <- mapM (process_item (config node) lk) meshes ;;
    ret (mkOutputs
           (Some (map new_vertices rs))
           (Some (map new_faces rs))
           (Some (map new_extruded_faces rs))
           (Some (map new_other_faces rs))
           (if need_mask_out lk
            then Some (flatten_option (map new_mask rs))
            else out_Mask (outputs node))).

End Process.

(** ** Two arithmetics

    Exact rationals, kept in lowest terms, run the definitions; the reals
    are what the statements about geometry speak of. *)

Definition Qsqrt (q : Q) : Q :=
  Qred (Qmake (Z.sqrt (Qnum q * Zpos (Qden q))) (Qden q)).

#[export] Instance QScalar : Scalar Q := {|
  f0 := 0%Q;
  f1 := 1%Q;
  fadd := fun x y => Qred (x + y)%Q;
  fsub := fun x y => Qred (x - y)%Q;
  fmul := fun x y => Qred (x * y)%Q;
  fdiv := fun x y => Qred (x / y)%Q;
  fopp := fun x => Qred (- x)%Q;
  fsqrt := Qsqrt;
  cos_pi := (- 1)%Q;
  sin_pi := 0%Q;
  feqb := Qeq_bool;
  fleb := Qle_bool
|}.

#[export] Instance RScalar : Scalar R := {|
  f0 := 0%R;
  f1 := 1%R;
  fadd := Rplus;
  fsub := Rminus;
  fmul := Rmult;
  fdiv := Rdiv;
  fopp := Ropp;
  fsqrt := sqrt;
  cos_pi := cos PI;
  sin_pi := sin PI;
  feqb := fun x y => if Req_dec_T x y then true else false;
  fleb := fun x y => if Rle_dec x y then true else false
|}.

Section ReferenceKernel.
Context {F : Type} {SF : Scalar F}.
Local Open Scope scalar_scope.

(** Sum of the cross products of consecutive positions (Newell). *)
Fixpoint newell (first : Vector F) (ps : list (Vector F)) : Vector F :=
  match ps with
  | [] => zero_vector
  | p :: ps' =>
      let q := hd first ps' in
      vadd (mkVector ((vy p - vy q) * (vz p + vz q))
                     ((vz p - vz q) * (vx p + vx q))
                     ((vx p - vx q) * (vy p + vy q)))
           (newell first ps')
  end.

Definition newell_normal (ps : list (Vector F)) : Vector F :=
  normalized (newell (hd zero_vector ps) ps).

Definition count_of (ps : list (Vector F)) : F :=
  fold_right (fun _ c => c + f1) f0 ps.

Definition median (ps : list (Vector F)) : Vector F :=
  vscale (fold_right vadd zero_vector ps) (f1 / count_of ps).

(** A kernel to run the node with. *)
Definition reference_kernel : MeshKernel F :=
  {| calc_normal := newell_normal;
     calc_center_median := median;
     invert_failed := fun m => m |}.

End ReferenceKernel.

(** ** Vocabulary of the statements *)

Definition default_face : BMFace := mkFace 0 [] 0%Z.

(** The indices below [n] whose mask entry is truthy, in order. *)
Definition truthy_indices (ms : list Z) (n : nat) : list nat :=
  filter (fun i => truthy (nth i ms 0%Z)) (seq 0 n).

Section Vocabulary.
Context {F : Type} {SF : Scalar F}.

Definition face_of (d : @FaceData F) : BMFace :=
  match d with (face, _, _, _) => face end.

Definition height_of (d : @FaceData F) : F :=
  match d with (_, height, _, _) => height end.

Definition scale_of (d : @FaceData F) : ScaleValue F :=
  match d with (_, _, scale, _) => scale end.

(** The entry of index [i] of the four parameter lists zipped. *)
Definition entry (es : list BMFace) (hs : list F) (ss : list (ScaleValue F))
  (xs : list (Matrix F)) (i : nat) : @FaceData F :=
  (nth i es default_face, nth i hs f0, nth i ss (ScaleFloat f0), nth i xs identity).

End Vocabulary.

(** The input face of index [i] once the mask layer is filled: its
    identity is its index, its layer reads [OUT] when its resolved mask
    entry is truthy and [MASK] otherwise. *)
Definition input_face (faces : list (list nat)) (ms : list Z) (i : nat) : BMFace :=
  mkFace i (nth i faces []) (if truthy (nth i ms 0%Z) then OUT else MASK).

(** The indices of the faces handed to the extrusion, in order. *)
Definition selected_indices (mode : MaskMode) (ms : list Z) (n : nat) : list nat :=
  match mode with
  | NOEXTRUDE => truthy_indices ms n
  | NOTRANSFORM => seq 0 n
  end.

(** The indices of the faces the extrusion leaves alone, in order. *)
Definition untouched_indices (mode : MaskMode) (ms : list Z) (n : nat) : list nat :=
  filter (fun i => negb (mem_nat i (selected_indices mode ms n))) (seq 0 n).

(** Every vertex of the loop of [f] is below [n]. *)
Definition loop_in_range (n : nat) (f : BMFace) : Prop :=
  Forall (fun i => i < n) (face_verts f).

Definition sides_of (base next : nat) (f : BMFace) : list BMFace :=
  let ring := seq base (length (face_verts f)) in
  number_faces (S next) (face_mask f)
    (side_loops (face_verts f) ring (hd 0 (face_verts f)) (hd 0 ring)).

(** The caps of a selection extruded on a mesh of [base] vertices whose
    next face identity is [next]. *)
Fixpoint caps_of (base next : nat) (sel : list BMFace) : list BMFace :=
  match sel with
  | [] => []
  | f :: sel' =>
      let n := length (face_verts f) in
      mkFace next (seq base n) (face_mask f)
        :: caps_of (base + n) (S next + n) sel'
  end.

(** Caps and sides of that extrusion, in the order they are created. *)
Fixpoint new_faces_of (base next : nat) (sel : list BMFace) : list BMFace :=
  match sel with
  | [] => []
  | f :: sel' =>
      let n := length (face_verts f) in
      (mkFace next (seq base n) (face_mask f) :: sides_of base next f)
        ++ new_faces_of (base + n) (S next + n) sel'
  end.

Fixpoint next_after (next : nat) (sel : list BMFace) : nat :=
  match sel with
  | [] => next
  | f :: sel' => next_after (S next + length (face_verts f)) sel'
  end.

Section ExtrusionVocabulary.
Context {F : Type} {SF : Scalar F}.

(** The positions of the new vertices: the loops of the selection, one
    after the other, read in the vertex list [vs]. *)
Definition new_verts_of (vs : list (Vector F)) (sel : list BMFace) : list (Vector F) :=
  flat_map (fun f => map (fun i => nth i vs zero_vector) (face_verts f)) sel.

(** The mesh that leaves the extrusion, read off the input. *)
Definition extruded_mesh (mode : MaskMode) (vs : list (Vector F))
  (faces : list (list nat)) (ms : list Z) : BMesh F :=
  let n := length faces in
  let sel := map (input_face faces ms) (selected_indices mode ms n) in
  mkMesh (vs ++ new_verts_of vs sel)
         (map (input_face faces ms) (untouched_indices mode ms n)
            ++ new_faces_of (length vs) n sel)
         (next_after n sel).

(** The caps that leave the extrusion, read off the input. *)
Definition extruded_caps (mode : MaskMode) (vs : list (Vector F))
  (faces : list (list nat)) (ms : list Z) : list BMFace :=
  caps_of (length vs) (length faces)
    (map (input_face faces ms) (selected_indices mode ms (length faces))).

(** A mesh [bm'] that differs from [bm] at most in the positions of the
    vertices listed in [verts]. *)
Definition same_but (verts : list nat) (bm bm' : BMesh F) : Prop :=
  bm_faces bm' = bm_faces bm
  /\ bm_next bm' = bm_next bm
  /\ length (bm_verts bm') = length (bm_verts bm)
  /\ forall j, ~ In j verts -> co bm' j = co bm j.

End ExtrusionVocabulary.

(** The tag of a face of the final mesh, in the words of the spec: [IN]
    for a cap, [MASK] for another face whose resolved input mask is 0,
    [OUT] otherwise. *)
Definition spec_tag (is_cap : bool) (resolved_mask : Z) : Z :=
  if is_cap then IN
  else if (resolved_mask =? 0)%Z then MASK else OUT.

Definition tag_name (t : Z) : string :=
  match MASK_MEANING t with
  | inr name => name
  | inl _ => EmptyString
  end.

(** The faces of the final mesh in mesh order, each as a pair: whether it
    is a cap, and the index of the input face it is or was made from.  The
    faces left alone come first, then for every extruded face its cap
    followed by its sides, one side per edge. *)
Definition final_face_kinds (mode : MaskMode) (faces : list (list nat))
  (ms : list Z) : list (bool * nat) :=
  let n := length faces in
  map (fun i => (false, i)) (untouched_indices mode ms n)
  ++ flat_map (fun i => (true, i) :: repeat (false, i) (length (nth i faces [])))
       (selected_indices mode ms n).

(** The output mask the spec describes. *)
Definition spec_mask (cfg : Config) (faces : list (list nat)) (ms : list Z)
  : list Z :=
  map (fun k => Z.b2z (mem_string (tag_name (spec_tag (fst k) (nth (snd k) ms 0%Z)))
                         (mask_out_type cfg)))
      (final_face_kinds (mask_mode cfg) faces ms).

(** ** A mesh to run the node on

    Two triangles that share an edge; the second one is masked out. *)

Definition example_vertices : list (Vector Q) :=
  [mkVector 0%Q 0%Q 0%Q; mkVector 2%Q 0%Q 0%Q;
   mkVector 0%Q 2%Q 0%Q; mkVector 0%Q 0%Q 2%Q].

Definition example_item : @Item Q :=
  mkItem example_vertices [] [[0; 1; 2]; [0; 3; 1]] [1%Z; 0%Z]
    [(1 # 2)%Q] [ScaleFloat (1 # 2)%Q] [identity].

(** Every output that [process_item] looks at is connected, the Scale input
    is fed with numbers. *)
Definition example_links : Links := mkLinks true false true true.

Definition example_noextrude : Config := mkConfig NORMAL NOEXTRUDE ["out"%string].
Definition example_notransform : Config := mkConfig NORMAL NOTRANSFORM ["in"%string].

(** One triangle, masked out. *)
Definition masked_triangle : @Item Q :=
  mkItem [mkVector 0%Q 0%Q 0%Q; mkVector 2%Q 0%Q 0%Q; mkVector 0%Q 2%Q 0%Q]
    [] [[0; 1; 2]] [0%Z] [1%Q] [ScaleFloat 1%Q] [identity].

(** A node with nothing connected to its Polygons input. *)
Definition example_unlinked_node : Node Q :=
  mkNode example_noextrude
    (mkInputs (mkSocket true [example_vertices]) (mkSocket false [])
       (mkSocket false []) (mkSocket false []) (mkSocket false [[0%Q]])
       (mkSocket false [[ScaleFloat 1%Q]]) false None)
    (mkOutputLinks true false true false false (Some false))
    (mkOutputs None None None None None).

(** What the loop body returns on the example in NOEXTRUDE mode: the first
    triangle is extruded, its cap is scaled by one half about its centre
    and raised by one half. *)
Definition example_noextrude_result : @ItemResult Q :=
  mkItemResult
    (example_vertices ++
       [mkVector (1 # 3)%Q (1 # 3)%Q (1 # 2)%Q;
        mkVector (4 # 3)%Q (1 # 3)%Q (1 # 2)%Q;
        mkVector (1 # 3)%Q (4 # 3)%Q (1 # 2)%Q])
    [[0; 3; 1]; [4; 5; 6]; [1; 5; 4; 0]; [2; 6; 5; 1]; [0; 4; 6; 2]]
    [[4; 5; 6]]
    [[0; 3; 1]; [1; 5; 4; 0]; [2; 6; 5; 1]; [0; 4; 6; 2]]
    (Some [0%Z; 0%Z; 1%Z; 1%Z; 1%Z]).

(** One triangle over the reals, extruded with height 0 and scale 1. *)
Definition real_triangle : @Item R :=
  mkItem [mkVector 0%R 0%R 0%R; mkVector 2%R 0%R 0%R; mkVector 0%R 2%R 0%R]
    [] [[0; 1; 2]] [1%Z] [0%R] [ScaleFloat 1%R] [identity].

Definition real_result : @ItemResult R :=
  mkItemResult
    [mkVector 0%R 0%R 0%R; mkVector 2%R 0%R 0%R; mkVector 0%R 2%R 0%R;
     mkVector 0%R 0%R 0%R; mkVector 2%R 0%R 0%R; mkVector 0%R 2%R 0%R]
    [[3; 4; 5]; [1; 4; 3; 0]; [2; 5; 4; 1]; [0; 3; 5; 2]]
    [[3; 4; 5]]
    [[1; 4; 3; 0]; [2; 5; 4; 1]; [0; 3; 5; 2]]
    (Some [0%Z; 1%Z; 1%Z; 1%Z]).

(** The unit square of the spec's worked examples. *)
Definition unit_square : list (Vector Q) :=
  [mkVector 0%Q 0%Q 0%Q; mkVector 1%Q 0%Q 0%Q;
   mkVector 1%Q 1%Q 0%Q; mkVector 0%Q 1%Q 0%Q].

(** A node fed with two copies of the unit square and one mask list; the
    Polygons, ExtrudedPolys and Mask outputs are connected. *)
Definition example_linked_node : Node Q :=
  mkNode (mkConfig NORMAL NOEXTRUDE ["in"%string])
    (mkInputs (mkSocket true [unit_square; unit_square]) (mkSocket false [])
       (mkSocket true [[[0; 1; 2; 3]]]) (mkSocket true [[1%Z]; [0%Z]])
       (mkSocket false [[1%Q]]) (mkSocket false [[ScaleFloat 1%Q]]) false None)
    (mkOutputLinks false false true true false (Some true))
    (mkOutputs None None None None None).

Section TurnVocabulary.
Context {F : Type} {SF : Scalar F}.

(** What a turn returns once the loop over [face_data] has ended in the
    state [st]. *)
Definition turn_result (cfg : Config) (lk : Links) (faces : list (list nat))
  (ms : list Z) (st : BMesh F * list (list nat)) : @ItemResult F :=
  let new_faces := map face_verts (bm_faces (fst st)) in
  mkItemResult (bm_verts (fst st)) new_faces (snd st)
    (if linked_other_polygons lk
     then filter (fun f => negb (mem_loop f (snd st))) new_faces
     else [])
    (if need_mask_out lk then Some (spec_mask cfg faces ms) else None).

End TurnVocabulary.

(** The layer value [get_out_mask] reads on a face once the faces whose
    identities are [ids] have been tagged [IN]. *)
Definition final_tag (ids : list nat) (face : BMFace) : Z :=
  if mem_nat (face_id face) ids then IN else face_mask face.

Definition config_with_types (cfg : Config) (types : list string) : Config :=
  mkConfig (extrude_mode cfg) (mask_mode cfg) types.

Section ItemVocabulary.
Context {F : Type} {SF : Scalar F}.

(** The item [it] with other heights, scales and matrices. *)
Definition with_parameters (it : @Item F) (hs : list F) (ss : list (ScaleValue F))
  (xs : list (Matrix F)) : @Item F :=
  mkItem (vertices it) (edges it) (faces it) (masks it) hs ss xs.

End ItemVocabulary.

Section RealMoves.
Local Open Scope R_scope.

(** The point [p] scaled by [s] about the point [c]. *)
Definition scale_about (c : Vector R) (s : R) (p : Vector R) : Vector R :=
  mkVector (vx c + s * (vx p - vx c))
           (vy c + s * (vy p - vy c))
           (vz c + s * (vz p - vz c)).

(** The point [p] scaled by [s] about [c], then pushed by [h] along [n]. *)
Definition inset_and_push (c n : Vector R) (s h : R) (p : Vector R) : Vector R :=
  let q := scale_about c s p in
  mkVector (vx q + vx n * h) (vy q + vy n * h) (vz q + vz n * h).

(** A matrix that acts on directions only: the shape [to_4x4] gives. *)
Definition is_linear (m : Matrix R) : Prop :=
  r3 (m0 m) = 0 /\ r3 (m1 m) = 0 /\ r3 (m2 m) = 0 /\ m3 m = mkRow 0 0 0 1.

End RealMoves.

(** One triangle over the reals, extruded with height 3 and scale 2. *)
Definition pushed_triangle : @Item R :=
  mkItem [mkVector 0%R 0%R 0%R; mkVector 2%R 0%R 0%R; mkVector 0%R 2%R 0%R]
    [] [[0; 1; 2]] [1%Z] [3%R] [ScaleFloat 2%R] [identity].

(** MATRIX mode, every face extruded. *)
Definition example_matrix_mode : Config :=
  mkConfig MATRIX NOTRANSFORM ["out"%string; "in"%string].

(** One triangle over the reals with a matrix that translates by 5 along
    the local Z axis. *)
Definition shifted_triangle : @Item R :=
  mkItem [mkVector 0%R 0%R 0%R; mkVector 2%R 0%R 0%R; mkVector 0%R 2%R 0%R]
    [] [[0; 1; 2]] [1%Z] [0%R] [ScaleFloat 1%R]
    [Translation (mkVector 0%R 0%R 5%R)].

Section MatrixVocabulary.
Context {F : Type} {SF : Scalar F}.

Definition matrix_of (d : @FaceData F) : Matrix F :=
  match d with (_, _, _, matrix) => matrix end.

End MatrixVocabulary.

(** ** Vocabulary of the batch *)

Section BatchVocabulary.
Context {F : Type} {SF : Scalar F}.

(** What a list of the batch gives to the turn of rank [k]: its entry of
    that rank, or its last entry past its end. *)
Definition entry_for_turn {A} (l : list A) (k : nat) (d : A) : A :=
  nth (Nat.min k (length l - 1)) l d.

(** Lines 161-163 and 179-180: what [process] reads from the sockets once. *)
Definition links_of (node : Node F) : Links :=
  mkLinks
    (match Mask_socket (output_links node) with Some b => b | None => false end)
    (scale_socket_type (inputs node))
    (ExtrudedPolys_linked (output_links node))
    (OtherPolys_linked (output_links node)).

(** The lengths of the seven lists of the batch. *)
Definition batch_lengths (i : Inputs F) (matrixes_s : list (list (Matrix F)))
  : list nat :=
  [length (sv_data (in_Vertices i));
   length (sv_get_default (in_Edges i) [[]]);
   length (sv_get_default (in_Polygons i) [[]]);
   length (sv_get_default (in_Mask i) [[1%Z]]);
   length (sv_data (in_Height i));
   length (sv_data (in_Scale i));
   length matrixes_s].

(** The mesh the turn of rank [k] works on. *)
Definition item_for_turn (i : Inputs F) (matrixes_s : list (list (Matrix F)))
  (k : nat) : @Item F :=
  mkItem (entry_for_turn (sv_data (in_Vertices i)) k [])
         (entry_for_turn (sv_get_default (in_Edges i) [[]]) k [])
         (entry_for_turn (sv_get_default (in_Polygons i) [[]]) k [])
         (entry_for_turn (sv_get_default (in_Mask i) [[1%Z]]) k [])
         (entry_for_turn (sv_data (in_Height i)) k [])
         (entry_for_turn (sv_data (in_Scale i)) k [])
         (entry_for_turn matrixes_s k []).

End BatchVocabulary.

(** * Properties *)

Unset Implicit Arguments.

(** ** Exceptions: inversion of a successful [bind] *)

Lemma bind_inr {A B} (c : result A) (k : A -> result B) (b : B) :
  bind c k = inr b -> exists a, c = inr a /\ k a = inr b.
Proof.
  destruct c as [e | a]; simpl; intros H; [discriminate | eauto].
Qed.

Ltac bind_inv H :=
  let a := fresh "a" in
  let Ha := fresh "Ha" in
  apply bind_inr in H; destruct H as [a [Ha H]].

Lemma mapM_inr_map {A B} (f : A -> result B) (g : A -> B) (l : list A) :
  (forall a, In a l -> f a = inr (g a)) -> mapM f l = inr (map g l).
Proof.
  induction l as [| a l IH]; intros Hf; simpl; [reflexivity |].
  rewrite (Hf a (or_introl eq_refl)); simpl.
  rewrite IH by (intros; apply Hf; right; assumption).
  reflexivity.
Qed.

(** ** [fullList] *)

Section FullList.
Context {A : Type}.

Lemma last_elem_last (l : list A) (d : A) :
  l <> [] -> last_elem l = Some (last l d).
Proof.
  induction l as [| a l IH]; intros Hne; [congruence |].
  destruct l as [| b l]; [reflexivity |].
  change (last_elem (b :: l) = Some (last (b :: l) d)).
  apply IH; discriminate.
Qed.

Lemma last_elem_none (l : list A) : last_elem l = None -> l = [].
Proof.
  induction l as [| a l IH]; [reflexivity |].
  destruct l as [| b l]; [discriminate |].
  intros H. change (last_elem (b :: l) = None) in H.
  apply IH in H; discriminate.
Qed.

(** A list that [fullList] returns starts with the list it was given and is
    at least [count] long. *)
Lemma fullList_inr (l l' : list A) (count : nat) :
  fullList l count = inr l' ->
  count <= length l' /\ exists ext, l' = l ++ ext.
Proof.
  unfold fullList. destruct (length l <? count) eqn:E.
  - apply Nat.ltb_lt in E.
    destruct (last_elem l) as [a |]; [| discriminate].
    intros H; injection H as <-. split.
    + rewrite length_app, repeat_length. lia.
    + eauto.
  - apply Nat.ltb_ge in E. intros H; injection H as <-. split; [lia |].
    exists []. symmetry; apply app_nil_r.
Qed.

Lemma fullList_nth_error (l l' : list A) (count i : nat) (a : A) :
  fullList l count = inr l' -> nth_error l i = Some a -> nth_error l' i = Some a.
Proof.
  intros H Hi. apply fullList_inr in H as [_ [ext ->]].
  rewrite nth_error_app1; [assumption |].
  apply nth_error_Some. congruence.
Qed.

Lemma last_elem_snoc (l : list A) (x : A) : last_elem (l ++ [x]) = Some x.
Proof.
  induction l as [| a l IH]; [reflexivity |].
  cbn [app]. destruct (l ++ [x]) eqn:E; [destruct l; discriminate |].
  exact IH.
Qed.

(** Extending a list that an earlier call has already extended changes
    nothing in the entries a turn of the loop reads: the first [b] entries
    are those of the list extended afresh. *)
Lemma fullList_shared (l l1 l2 : list A) (a b : nat) :
  fullList l a = inr l1 -> fullList l1 b = inr l2 ->
  exists l3, fullList l b = inr l3 /\ firstn b l2 = firstn b l3.
Proof.
  unfold fullList.
  destruct (length l <? a) eqn:Ea.
  - apply Nat.ltb_lt in Ea.
    destruct (last_elem l) as [x |] eqn:El; [| discriminate].
    intros H; injection H as <-.
    assert (Hne : l <> []) by (intros ->; discriminate).
    assert (Hlast : last_elem (l ++ repeat x (a - length l)) = Some x).
    { destruct (a - length l) as [| k] eqn:Ek; [lia |].
      cbn [repeat]. rewrite repeat_cons, app_assoc. apply last_elem_snoc. }
    rewrite Hlast, length_app, repeat_length.
    replace (length l + (a - length l)) with a by lia.
    destruct (a <? b) eqn:Eab.
    + apply Nat.ltb_lt in Eab. intros H; injection H as <-.
      replace (length l <? b) with true by (symmetry; apply Nat.ltb_lt; lia).
      eexists. split; [reflexivity |]. f_equal.
      rewrite <- app_assoc, <- repeat_app. f_equal. f_equal. lia.
    + apply Nat.ltb_ge in Eab. intros H; injection H as <-.
      destruct (length l <? b) eqn:Elb.
      * apply Nat.ltb_lt in Elb. eexists. split; [reflexivity |].
        replace (a - length l) with ((b - length l) + (a - b)) by lia.
        rewrite repeat_app, app_assoc.
        rewrite firstn_app.
        replace (b - length (l ++ repeat x (b - length l))) with 0
          by (rewrite length_app, repeat_length; lia).
        cbn [firstn]. rewrite app_nil_r. reflexivity.
      * apply Nat.ltb_ge in Elb. eexists. split; [reflexivity |].
        rewrite firstn_app.
        replace (b - length l) with 0 by lia.
        cbn [firstn]. rewrite app_nil_r. reflexivity.
  - intros H; injection H as <-. intros H. eauto.
Qed.

End FullList.

(** C7. Mask broadcasting: a non-empty mask shorter than the face count is
    resolved to itself followed by copies of its last element, as many as
    bring it to the face count; with two faces the mask [1] resolves to
    [1, 1], which is not [1, 0]. *)
Theorem C7_mask_broadcast (faces : list (list nat)) (mask : list Z) :
  mask <> [] -> length mask < length faces ->
  let resolved := mask ++ repeat (last mask 0%Z) (length faces - length mask) in
  fullList mask (length faces) = ret resolved
  /\ length resolved = length faces
  /\ (forall i, i < length mask -> nth_error resolved i = nth_error mask i)
  /\ (forall i, length mask <= i < length faces ->
        nth_error resolved i = Some (last mask 0%Z))
  /\ (forall f g : list nat,
        fullList [1%Z] (length [f; g]) = ret [1%Z; 1%Z]
        /\ fullList [1%Z] (length [f; g]) <> ret [1%Z; 0%Z]).
Proof.
  intros Hne Hlt resolved. repeat split.
  - unfold fullList. apply Nat.ltb_lt in Hlt. rewrite Hlt.
    rewrite (last_elem_last _ 0%Z Hne). reflexivity.
  - unfold resolved. rewrite length_app, repeat_length. lia.
  - intros i Hi. unfold resolved. apply nth_error_app1; assumption.
  - intros i [Hlo Hhi]. unfold resolved. rewrite nth_error_app2 by assumption.
    rewrite nth_error_repeat by lia. reflexivity.
  - simpl. discriminate.
Qed.

(** The hypotheses of C7 hold for a mask of two entries and three faces. *)
Lemma C7_mask_broadcast_witness :
  fullList [0%Z; 1%Z] (length [[0; 1; 2]; [0; 2; 3]; [0; 3; 4]])
  = ret [0%Z; 1%Z; 1%Z].
Proof.
  refine (proj1 (C7_mask_broadcast [[0; 1; 2]; [0; 2; 3]; [0; 3; 4]]
                   [0%Z; 1%Z] _ _)).
  - discriminate.
  - simpl; lia.
Defined.

(** ** Zipped lists, seen through their indices *)

Lemma filter_map_comm {A B} (f : A -> B) (p : B -> bool) (l : list A) :
  filter p (map f l) = map f (filter (fun a => p (f a)) l).
Proof.
  induction l as [| a l IH]; simpl; [reflexivity |].
  destruct (p (f a)); simpl; rewrite IH; reflexivity.
Qed.

Lemma combine_seq {A B} (l1 : list A) (l2 : list B) (d1 : A) (d2 : B) :
  length l1 <= length l2 ->
  combine l1 l2 = map (fun i => (nth i l1 d1, nth i l2 d2)) (seq 0 (length l1)).
Proof.
  revert l2. induction l1 as [| a l1 IH]; intros [| b l2] Hlen; simpl in *;
    try reflexivity; try lia.
  f_equal. rewrite <- seq_shift, map_map. apply IH. lia.
Qed.

Lemma combine_map_seq {A B} (g : nat -> A) (l2 : list B) (d2 : B) (n : nat) :
  n <= length l2 ->
  combine (map g (seq 0 n)) l2 = map (fun i => (g i, nth i l2 d2)) (seq 0 n).
Proof.
  intros Hlen.
  rewrite (combine_seq _ _ (g 0) d2) by (rewrite length_map, length_seq; exact Hlen).
  rewrite length_map, length_seq.
  apply map_ext_in. intros i Hi. apply in_seq in Hi.
  f_equal. rewrite map_nth, seq_nth by lia. reflexivity.
Qed.

Section FaceData.
Context {F : Type} {SF : Scalar F}.

Lemma face_data_NOEXTRUDE es ms hs ss xs :
  length es <= length hs -> length es <= length ss -> length es <= length xs ->
  face_data NOEXTRUDE es ms hs ss xs = map (entry es hs ss xs) (seq 0 (length es)).
Proof.
  intros Hh Hs Hx. unfold face_data.
  rewrite (combine_seq es hs default_face f0 Hh).
  rewrite (combine_map_seq _ ss (ScaleFloat f0)) by assumption.
  rewrite (combine_map_seq _ xs identity) by assumption.
  reflexivity.
Qed.

Lemma face_data_NOTRANSFORM es ms hs ss xs :
  length es <= length ms -> length es <= length hs ->
  length es <= length ss -> length es <= length xs ->
  face_data NOTRANSFORM es ms hs ss xs
  = map (entry es hs ss xs) (truthy_indices ms (length es)).
Proof.
  intros Hm Hh Hs Hx. unfold face_data, truthy_indices.
  rewrite (combine_seq es ms default_face 0%Z Hm).
  rewrite (combine_map_seq _ hs f0) by assumption.
  rewrite (combine_map_seq _ ss (ScaleFloat f0)) by assumption.
  rewrite (combine_map_seq _ xs identity) by assumption.
  rewrite filter_map_comm, map_map. reflexivity.
Qed.

Lemma faces_to_extrude_NOEXTRUDE (fs : list BMFace) (ms : list Z) :
  length fs <= length ms ->
  faces_to_extrude NOEXTRUDE fs ms
  = map (fun i => nth i fs default_face) (truthy_indices ms (length fs)).
Proof.
  intros Hm. unfold faces_to_extrude, truthy_indices.
  rewrite (combine_seq fs ms default_face 0%Z Hm).
  rewrite filter_map_comm, map_map. reflexivity.
Qed.

End FaceData.

(** C1. Mask-mode policy.  With the mask resolved against the face count:
    in NOEXTRUDE mode the faces handed to the extrusion are exactly the
    faces whose resolved mask entry is truthy, in mesh order; in NOTRANSFORM
    mode every face is handed to the extrusion, and the loop that scales,
    translates or transforms visits exactly the caps of the faces whose
    resolved mask entry is truthy, so the caps of the other faces are never
    given to a transform operator. *)
Theorem C1_mask_mode_policy {F : Type} {SF : Scalar F}
  (fs es : list BMFace) (masks ms : list Z) (hs : list F)
  (ss : list (ScaleValue F)) (xs : list (Matrix F)) :
  fullList masks (length fs) = ret ms ->
  length es = length fs ->
  length fs <= length hs -> length fs <= length ss -> length fs <= length xs ->
  faces_to_extrude NOEXTRUDE fs ms
    = map (fun i => nth i fs default_face) (truthy_indices ms (length fs))
  /\ faces_to_extrude NOTRANSFORM fs ms = fs
  /\ map face_of (face_data NOTRANSFORM es ms hs ss xs)
    = map (fun i => nth i es default_face) (truthy_indices ms (length fs))
  /\ (forall i, i < length fs -> truthy (nth i ms 0%Z) = false ->
        ~ In i (truthy_indices ms (length fs))).
Proof.
  intros Hms Hes Hh Hs Hx.
  apply fullList_inr in Hms as [Hlen _].
  repeat split.
  - apply faces_to_extrude_NOEXTRUDE; assumption.
  - rewrite face_data_NOTRANSFORM by lia.
    rewrite map_map, Hes. reflexivity.
  - intros i _ Hfalse Hin. apply filter_In in Hin as [_ Ht]. congruence.
Qed.

(** The hypotheses of C1 hold for three faces and the mask [1, 0]. *)
Lemma C1_mask_mode_policy_witness :
  faces_to_extrude NOEXTRUDE
    [mkFace 0 [0; 1; 2] 1%Z; mkFace 1 [0; 2; 3] 0%Z; mkFace 2 [0; 3; 4] 0%Z]
    [1%Z; 0%Z; 0%Z]
  = [mkFace 0 [0; 1; 2] 1%Z].
Proof.
  refine (proj1 (@C1_mask_mode_policy Q QScalar
            [mkFace 0 [0; 1; 2] 1%Z; mkFace 1 [0; 2; 3] 0%Z; mkFace 2 [0; 3; 4] 0%Z]
            [mkFace 3 [5; 6; 7] 1%Z; mkFace 7 [8; 9; 10] 0%Z; mkFace 11 [11; 12; 13] 0%Z]
            [1%Z; 0%Z] [1%Z; 0%Z; 0%Z]
            [1%Q; 1%Q; 1%Q] [ScaleFloat 1%Q; ScaleFloat 1%Q; ScaleFloat 1%Q]
            [identity; identity; identity] _ _ _ _ _));
    simpl; try reflexivity; lia.
Defined.

(** C9. Boundary no-op: when the Vertices input or the Polygons input is
    not connected, or no output is connected, [process] returns normally and
    leaves every output as it was, whatever the modes and the other inputs
    are. *)
Theorem C9_boundary_noop {F : Type} {SF : Scalar F} {MK : MeshKernel F}
  (node : Node F) :
  is_linked (in_Vertices (inputs node)) = false
  \/ is_linked (in_Polygons (inputs node)) = false
  \/ any_output_linked (output_links node) = false ->
  process node = ret (outputs node).
Proof.
  intros H. unfold process.
  destruct (is_linked (in_Vertices (inputs node))) eqn:EV;
    destruct (is_linked (in_Polygons (inputs node))) eqn:EP;
    simpl; try reflexivity.
  destruct H as [H | [H | H]]; try discriminate.
  rewrite H. reflexivity.
Qed.

(** ** The mesh kernel *)

Lemma number_faces_verts (s : nat) (m : Z) (loops : list (list nat)) :
  map face_verts (number_faces s m loops) = loops.
Proof.
  revert s. induction loops as [| l loops IH]; intros s; simpl; [reflexivity |].
  rewrite IH. reflexivity.
Qed.

Lemma number_faces_length (s : nat) (m : Z) (loops : list (list nat)) :
  length (number_faces s m loops) = length loops.
Proof.
  rewrite <- (number_faces_verts s m loops) at 2. symmetry; apply length_map.
Qed.

Lemma number_faces_id (s : nat) (m : Z) (loops : list (list nat)) (f : BMFace) :
  In f (number_faces s m loops) ->
  s <= face_id f < s + length loops /\ face_mask f = m.
Proof.
  revert s. induction loops as [| l loops IH]; intros s; simpl; [tauto |].
  intros [<- | Hin]; simpl; [split; [lia | reflexivity] |].
  apply IH in Hin. split; [lia | tauto].
Qed.

Lemma side_loops_length (old new : list nat) (o n : nat) :
  length old = length new -> length (side_loops old new o n) = length old.
Proof.
  revert new. induction old as [| a old IH]; intros [| b new] H; simpl in *;
    try reflexivity; try discriminate.
  f_equal. apply IH. lia.
Qed.

Lemma sides_of_length (base next : nat) (f : BMFace) :
  length (sides_of base next f) = length (face_verts f).
Proof.
  unfold sides_of. rewrite number_faces_length.
  apply side_loops_length. symmetry; apply length_seq.
Qed.

(** Filling the layer of freshly numbered faces. *)
Lemma fill_layer_number_faces (faces : list (list nat)) (ms : list Z) :
  length faces <= length ms ->
  fill_layer (number_faces 0 0%Z faces) ms OUT
  = map (input_face faces ms) (seq 0 (length faces)).
Proof.
  assert (G : forall (ls : list (list nat)) ms s, length ls <= length ms ->
            fill_layer (number_faces s 0%Z ls) ms OUT
            = map (fun i => mkFace (s + i) (nth i ls [])
                              (if truthy (nth i ms 0%Z) then OUT else MASK))
                  (seq 0 (length ls))).
  { clear. intros ls. induction ls as [| l ls IH]; intros [| m ms] s Hlen;
      simpl in *; try reflexivity; try lia.
    rewrite Nat.add_0_r. f_equal.
    - unfold set_mask. destruct (truthy m); reflexivity.
    - rewrite IH by lia. rewrite <- seq_shift, map_map.
      apply map_ext. intros i. f_equal. lia. }
  intros Hlen. rewrite G by assumption. reflexivity.
Qed.

Section KernelFacts.
Context {F : Type} {SF : Scalar F} {MK : MeshKernel F}.

Lemma bmesh_from_pydata_inr vs es faces (bm : BMesh F) :
  bmesh_from_pydata vs es faces = inr bm ->
  bm = mkMesh vs (number_faces 0 0%Z faces) (length faces)
  /\ Forall (Forall (fun i => i < length vs)) faces.
Proof.
  unfold bmesh_from_pydata.
  destruct (forallb _ es); simpl; [| discriminate].
  destruct (forallb _ faces) eqn:E; [| discriminate].
  intros H; injection H as <-. split; [reflexivity |].
  rewrite forallb_forall in E. apply Forall_forall. intros l Hl.
  specialize (E l Hl). rewrite forallb_forall in E.
  apply Forall_forall. intros i Hi. apply Nat.ltb_lt. apply E; assumption.
Qed.

Lemma co_prefix (vs extra : list (Vector F)) (fs : list BMFace) (nx i : nat) :
  i < length vs -> co (mkMesh (vs ++ extra) fs nx) i = nth i vs zero_vector.
Proof.
  intros Hi. unfold co; simpl. apply app_nth1; assumption.
Qed.

(** The fold of the extrusion in closed form. *)
Lemma fold_extrude_one (vs : list (Vector F)) (sel : list BMFace) :
  Forall (loop_in_range (length vs)) sel ->
  forall extra fs nx caps,
    fold_left extrude_one sel (mkMesh (vs ++ extra) fs nx, caps)
    = (mkMesh ((vs ++ extra) ++ new_verts_of vs sel)
              (fs ++ new_faces_of (length (vs ++ extra)) nx sel)
              (next_after nx sel),
       caps ++ caps_of (length (vs ++ extra)) nx sel).
Proof.
  induction 1 as [| f sel Hf _ IH]; intros extra fs nx caps; simpl.
  - rewrite !app_nil_r. reflexivity.
  - assert (Hco : map (co (mkMesh (vs ++ extra) fs nx)) (face_verts f)
                  = map (fun i => nth i vs zero_vector) (face_verts f)).
    { apply map_ext_in. intros i Hi. apply co_prefix.
      unfold loop_in_range in Hf. rewrite Forall_forall in Hf. auto. }
    rewrite Hco.
    fold (sides_of (length (vs ++ extra)) nx f).
    rewrite sides_of_length.
    rewrite <- app_assoc. rewrite IH.
    rewrite !length_app, !length_map.
    rewrite <- !app_assoc. simpl.
    rewrite Nat.add_assoc. reflexivity.
Qed.

End KernelFacts.

Lemma mem_nat_In (n : nat) (l : list nat) : mem_nat n l = true <-> In n l.
Proof.
  unfold mem_nat. rewrite existsb_exists. split.
  - intros [x [Hx E]]. apply Nat.eqb_eq in E. subst; assumption.
  - intros H. exists n. split; [assumption | apply Nat.eqb_refl].
Qed.

Lemma mem_nat_false (n : nat) (l : list nat) : mem_nat n l = false <-> ~ In n l.
Proof.
  rewrite <- mem_nat_In. destruct (mem_nat n l); split; congruence.
Qed.

Lemma filter_all {A} (p : A -> bool) (l : list A) :
  (forall a, In a l -> p a = true) -> filter p l = l.
Proof.
  induction l as [| a l IH]; intros H; simpl; [reflexivity |].
  rewrite (H a (or_introl eq_refl)). f_equal. apply IH. intros; apply H; right; assumption.
Qed.

Lemma selected_indices_lt mode ms n i :
  In i (selected_indices mode ms n) -> i < n.
Proof.
  destruct mode; simpl; unfold truthy_indices; intros H.
  - apply filter_In in H as [H _]. apply in_seq in H. lia.
  - apply in_seq in H. lia.
Qed.

Lemma map_face_id_input_face (ls : list (list nat)) ms (l : list nat) :
  map face_id (map (input_face ls ms) l) = l.
Proof.
  rewrite map_map. simpl. apply map_id.
Qed.

(** Identities of new faces start at [next]; caps are among the new faces. *)
Lemma new_faces_of_id (sel : list BMFace) :
  forall base next f, In f (new_faces_of base next sel) -> next <= face_id f.
Proof.
  induction sel as [| g sel IH]; intros base next f; simpl; [tauto |].
  intros [<- | Hin]; [simpl; lia |].
  apply in_app_or in Hin as [Hin | Hin].
  - unfold sides_of in Hin. apply number_faces_id in Hin. lia.
  - apply IH in Hin. lia.
Qed.

Lemma caps_in_new_faces (sel : list BMFace) :
  forall base next, incl (caps_of base next sel) (new_faces_of base next sel).
Proof.
  induction sel as [| g sel IH]; intros base next f; simpl; [tauto |].
  intros [<- | Hin]; [left; reflexivity |].
  right. apply in_or_app. right. apply IH; assumption.
Qed.

Section ExtrusionFacts.
Context {F : Type} {SF : Scalar F} {MK : MeshKernel F}.

Lemma selection_closed_form mode (ls : list (list nat)) ms :
  length ls <= length ms ->
  faces_to_extrude mode (map (input_face ls ms) (seq 0 (length ls))) ms
  = map (input_face ls ms) (selected_indices mode ms (length ls)).
Proof.
  intros Hlen. destruct mode.
  - rewrite faces_to_extrude_NOEXTRUDE by (rewrite length_map, length_seq; exact Hlen).
    rewrite length_map, length_seq. simpl.
    apply map_ext_in. intros i Hi.
    apply filter_In in Hi as [Hi _]. apply in_seq in Hi.
    rewrite (nth_indep _ _ (input_face ls ms 0))
      by (rewrite length_map, length_seq; lia).
    rewrite map_nth, seq_nth by lia. reflexivity.
  - simpl. reflexivity.
Qed.

(** Lines 200-210 in closed form: the mesh is built, the layer is filled,
    the selection is extruded. *)
Lemma extrude_closed_form mode (vs : list (Vector F)) (ls : list (list nat)) ms :
  length ls <= length ms ->
  Forall (Forall (fun i => i < length vs)) ls ->
  let bm1 := fill_faces_layer (mkMesh vs (number_faces 0 0%Z ls) (length ls)) ms OUT in
  extrude_discrete_faces bm1 (faces_to_extrude mode (bm_faces bm1) ms)
  = (extruded_mesh mode vs ls ms, extruded_caps mode vs ls ms).
Proof.
  intros Hlen Hrange bm1. unfold bm1, fill_faces_layer. simpl.
  rewrite fill_layer_number_faces by assumption.
  rewrite selection_closed_form by assumption.
  unfold extrude_discrete_faces.
  set (sel := map (input_face ls ms) (selected_indices mode ms (length ls))).
  assert (Hsel : Forall (loop_in_range (length vs)) sel).
  { apply Forall_forall. intros f Hf. unfold sel in Hf.
    apply in_map_iff in Hf as [i [<- Hi]]. apply selected_indices_lt in Hi.
    unfold loop_in_range; simpl.
    rewrite Forall_forall in Hrange. apply Hrange. apply nth_In; assumption. }
  pose proof (fold_extrude_one vs sel Hsel [] (map (input_face ls ms) (seq 0 (length ls)))
                (length ls) []) as E.
  rewrite app_nil_r in E. rewrite E. simpl.
  unfold extruded_mesh, extruded_caps. fold sel. f_equal. f_equal.
  rewrite filter_app. f_equal.
  - unfold untouched_indices. rewrite filter_map_comm. simpl.
    unfold sel. rewrite map_face_id_input_face. reflexivity.
  - apply filter_all. intros f Hf. apply new_faces_of_id in Hf.
    apply negb_true_iff, mem_nat_false. unfold sel.
    rewrite map_face_id_input_face. intros Hin.
    apply selected_indices_lt in Hin. lia.
Qed.

End ExtrusionFacts.

(** ** The transform operators touch the listed vertices only *)

Lemma set_nth_length {X} (i : nat) (x : X) (l : list X) :
  length (set_nth i x l) = length l.
Proof.
  revert i. induction l as [| y l IH]; intros [| i]; simpl; auto.
Qed.

Lemma set_nth_other {X} (i j : nat) (x d : X) (l : list X) :
  i <> j -> nth j (set_nth i x l) d = nth j l d.
Proof.
  revert i j. induction l as [| y l IH]; intros [| i] [| j] H; simpl; auto.
  congruence.
Qed.

Lemma set_nth_same {X} (i : nat) (d : X) (l : list X) :
  set_nth i (nth i l d) l = l.
Proof.
  revert i. induction l as [| y l IH]; intros [| i]; simpl; auto.
  f_equal. apply IH.
Qed.

Section TransformFacts.
Context {F : Type} {SF : Scalar F} {MK : MeshKernel F}.

Lemma move_fold_length (g : Vector F -> Vector F) (verts : list nat) :
  forall vs,
    length (fold_left (fun vs i => set_nth i (g (nth i vs zero_vector)) vs) verts vs)
    = length vs.
Proof.
  induction verts as [| i verts IH]; intros vs; simpl; [reflexivity |].
  rewrite IH. apply set_nth_length.
Qed.

Lemma move_fold_other (g : Vector F -> Vector F) (verts : list nat) (j : nat) :
  ~ In j verts ->
  forall vs,
    nth j (fold_left (fun vs i => set_nth i (g (nth i vs zero_vector)) vs) verts vs)
      zero_vector
    = nth j vs zero_vector.
Proof.
  induction verts as [| i verts IH]; intros Hj vs; simpl; [reflexivity |].
  rewrite IH by (intros H; apply Hj; right; exact H).
  apply set_nth_other. intros ->. apply Hj. left; reflexivity.
Qed.

Lemma move_fold_id (g : Vector F -> Vector F) (verts : list nat) :
  (forall p, g p = p) ->
  forall vs,
    fold_left (fun vs i => set_nth i (g (nth i vs zero_vector)) vs) verts vs = vs.
Proof.
  intros Hg. induction verts as [| i verts IH]; intros vs; simpl; [reflexivity |].
  rewrite Hg, set_nth_same. apply IH.
Qed.

Lemma same_but_refl verts bm : same_but verts bm bm.
Proof. repeat split. Qed.

Lemma same_but_trans verts verts' bm1 bm2 bm3 :
  same_but verts bm1 bm2 -> same_but verts' bm2 bm3 ->
  same_but (verts ++ verts') bm1 bm3.
Proof.
  intros (A1 & A2 & A3 & A4) (B1 & B2 & B3 & B4). repeat split; try congruence.
  intros j Hj. rewrite B4, A4; try reflexivity;
    intros H; apply Hj; apply in_or_app; tauto.
Qed.

Lemma same_but_weaken verts verts' bm bm' :
  incl verts verts' -> same_but verts bm bm' -> same_but verts' bm bm'.
Proof.
  intros Hi (A1 & A2 & A3 & A4). repeat split; try assumption.
  intros j Hj. apply A4. intros H. apply Hj, Hi, H.
Qed.

Lemma move_verts_same_but g verts bm : same_but verts bm (move_verts g verts bm).
Proof.
  unfold move_verts, same_but, co; simpl. repeat split.
  - apply move_fold_length.
  - intros j Hj. apply move_fold_other; assumption.
Qed.

Lemma move_verts_id g verts bm : (forall p, g p = p) -> move_verts g verts bm = bm.
Proof.
  intros Hg. unfold move_verts. rewrite move_fold_id by assumption.
  destruct bm; reflexivity.
Qed.

Lemma ops_transform_same_but bm matrix space verts :
  same_but verts bm (ops_transform bm matrix space verts).
Proof. apply move_verts_same_but. Qed.

(** One turn of the loop moves the vertices of its cap only, and records
    the loop of the cap when one of the two face outputs is connected. *)
Lemma transform_cap_inr cfg lk bm acc fd bm' acc' :
  transform_cap cfg lk (bm, acc) fd = inr (bm', acc') ->
  same_but (face_verts (face_of fd)) bm bm'
  /\ acc' = if linked_extruded_polygons lk || linked_other_polygons lk
            then acc ++ [face_verts (face_of fd)] else acc.
Proof.
  destruct fd as [[[face height] scale] matrix]. unfold transform_cap.
  intros H. bind_inv H. bind_inv H. injection H as <- <-.
  split; [| reflexivity]. simpl.
  destruct (extrude_mode cfg).
  - bind_inv Ha0. injection Ha0 as <-.
    unfold ops_translate, ops_scale.
    eapply same_but_weaken;
      [| eapply same_but_trans; apply ops_transform_same_but].
    intros j Hj. apply in_app_or in Hj. tauto.
  - injection Ha0 as <-. apply ops_transform_same_but.
Qed.

Lemma foldM_transform_cap_inr cfg lk (fd : list (@FaceData F)) :
  forall bm acc bm' acc',
    foldM (transform_cap cfg lk) fd (bm, acc) = inr (bm', acc') ->
    same_but (flat_map (fun d => face_verts (face_of d)) fd) bm bm'
    /\ acc' = acc ++ (if linked_extruded_polygons lk || linked_other_polygons lk
                      then map (fun d => face_verts (face_of d)) fd else []).
Proof.
  induction fd as [| d fd IH]; intros bm acc bm' acc' H; simpl in H.
  - injection H as <- <-. split; [apply same_but_refl |].
    destruct (_ || _); rewrite app_nil_r; reflexivity.
  - bind_inv H. destruct a as [bm1 acc1].
    apply transform_cap_inr in Ha as [S1 ->].
    apply IH in H as [S2 ->]. split.
    + simpl. eapply same_but_trans; eassumption.
    + destruct (_ || _); simpl; [rewrite <- app_assoc |]; reflexivity.
Qed.

End TransformFacts.

(** ** One turn of the batch loop, taken apart *)

Section ProcessItem.
Context {F : Type} {SF : Scalar F} {MK : MeshKernel F}.

Lemma process_item_inr cfg lk (it : @Item F) res :
  process_item cfg lk it = inr res ->
  exists hs ss xs ms bm2,
    let n := length (faces it) in
    let caps := extruded_caps (mask_mode cfg) (vertices it) (faces it) ms in
    fullList (heights it) n = inr hs
    /\ fullList (scales it) n = inr ss
    /\ fullList (matrixes it) n = inr xs
    /\ fullList (masks it) n = inr ms
    /\ Forall (Forall (fun i => i < length (vertices it))) (faces it)
    /\ foldM (transform_cap cfg lk)
         (face_data (mask_mode cfg) caps ms hs ss xs)
         (extruded_mesh (mask_mode cfg) (vertices it) (faces it) ms, [])
       = inr (bm2, new_extruded_faces res)
    /\ new_vertices res = bm_verts bm2
    /\ new_faces res = map face_verts (bm_faces bm2)
    /\ new_other_faces res
       = (if linked_other_polygons lk
          then filter (fun f => negb (mem_loop f (new_extruded_faces res)))
                 (new_faces res)
          else [])
    /\ (if need_mask_out lk
        then exists m, get_out_mask cfg bm2 caps = inr m /\ new_mask res = Some m
        else new_mask res = None).
Proof.
  unfold process_item. intros H.
  bind_inv H. rename a into hs, Ha into Hhs.
  bind_inv H. rename a into ss, Ha into Hss.
  bind_inv H. rename a into xs, Ha into Hxs.
  bind_inv H. rename a into ms, Ha into Hms.
  bind_inv H. rename a into bm0, Ha into Hbm.
  apply bmesh_from_pydata_inr in Hbm as [-> Hrange].
  pose proof (fullList_inr _ _ _ Hms) as [Hlen _].
  rewrite (extrude_closed_form (mask_mode cfg) (vertices it) (faces it) ms Hlen Hrange) in H.
  bind_inv H. destruct a as [bm2 acc]. rename Ha into Hfold.
  unfold pydata_from_bmesh in H.
  bind_inv H. injection H as <-. simpl.
  exists hs, ss, xs, ms, bm2. repeat split; try assumption; try reflexivity.
  destruct (need_mask_out lk).
  - bind_inv Ha. injection Ha as <-. eauto.
  - injection Ha as <-. reflexivity.
Qed.

End ProcessItem.

(** ** Face lists *)

Lemma loop_eqb_eq (a b : list nat) : loop_eqb a b = true <-> a = b.
Proof.
  revert b. induction a as [| x a IH]; intros [| y b]; simpl;
    try (split; [discriminate | discriminate]); try tauto.
  rewrite andb_true_iff, Nat.eqb_eq, IH. split.
  - intros [-> ->]; reflexivity.
  - intros H; injection H; auto.
Qed.

Lemma mem_loop_In (f : list nat) (l : list (list nat)) :
  mem_loop f l = true <-> In f l.
Proof.
  unfold mem_loop. rewrite existsb_exists. split.
  - intros [g [Hg E]]. apply loop_eqb_eq in E. subst; assumption.
  - intros H. exists f. split; [assumption | apply loop_eqb_eq; reflexivity].
Qed.

Section FaceLists.
Context {F : Type} {SF : Scalar F} {MK : MeshKernel F}.

(** The loop over [face_data] visits caps of the extrusion only. *)
Lemma face_data_incl mode es ms (hs : list F) ss xs d :
  In d (face_data mode es ms hs ss xs) -> In (face_of d) es.
Proof.
  destruct mode; simpl.
  - destruct d as [[[face h] s] x]. simpl. intros H.
    apply in_combine_l in H. apply in_combine_l in H.
    apply in_combine_l in H. exact H.
  - intros H. apply in_map_iff in H as [[[[[face m] h] s] x] [<- H]].
    apply filter_In in H as [H _]. simpl.
    apply in_combine_l in H. apply in_combine_l in H.
    apply in_combine_l in H. apply in_combine_l in H. exact H.
Qed.

Lemma caps_in_extruded_mesh mode (vs : list (Vector F)) ls ms :
  incl (extruded_caps mode vs ls ms) (bm_faces (extruded_mesh mode vs ls ms)).
Proof.
  intros f Hf. unfold extruded_mesh; simpl. apply in_or_app. right.
  apply caps_in_new_faces. exact Hf.
Qed.

End FaceLists.

(** C4. When both the ExtrudedPolys and the OtherPolys outputs are
    connected, a loop is a face of the final mesh exactly when it is in the
    extruded list or in the other list, and no loop is in both lists. *)
Theorem C4_partition {F : Type} {SF : Scalar F} {MK : MeshKernel F}
  (cfg : Config) (lk : Links) (it : @Item F) (res : @ItemResult F) :
  linked_extruded_polygons lk = true ->
  linked_other_polygons lk = true ->
  process_item cfg lk it = inr res ->
  (forall f, In f (new_extruded_faces res) \/ In f (new_other_faces res)
             <-> In f (new_faces res))
  /\ (forall f, ~ (In f (new_extruded_faces res) /\ In f (new_other_faces res))).
Proof.
  intros He Ho H.
  apply process_item_inr in H
    as (hs & ss & xs & ms & bm2 & _ & _ & _ & _ & _ & Hfold & _ & Hfaces & Hother & _).
  apply foldM_transform_cap_inr in Hfold as [(Hsame & _) Hacc].
  rewrite He in Hacc. simpl in Hacc.
  rewrite Ho in Hother.
  assert (Hsub : incl (new_extruded_faces res) (new_faces res)).
  { intros f Hf. rewrite Hacc in Hf. apply in_map_iff in Hf as [d [<- Hd]].
    rewrite Hfaces, Hsame. apply in_map.
    apply caps_in_extruded_mesh. eapply face_data_incl; eassumption. }
  split.
  - intros f. split.
    + intros [Hf | Hf]; [apply Hsub; exact Hf |].
      rewrite Hother in Hf. apply filter_In in Hf. tauto.
    + intros Hf. destruct (mem_loop f (new_extruded_faces res)) eqn:E.
      * left. apply mem_loop_In; exact E.
      * right. rewrite Hother. apply filter_In. rewrite E. auto.
  - intros f [Hf1 Hf2]. rewrite Hother in Hf2. apply filter_In in Hf2 as [_ Hf2].
    apply mem_loop_In in Hf1. rewrite Hf1 in Hf2. discriminate.
Qed.

(** ** The output mask *)

Lemma caps_of_id (sel : list BMFace) base next f :
  In f (caps_of base next sel) -> next <= face_id f.
Proof.
  intros H. eapply new_faces_of_id. apply caps_in_new_faces. exact H.
Qed.

Lemma sides_of_mask base next f :
  map face_mask (sides_of base next f)
  = repeat (face_mask f) (length (face_verts f)).
Proof.
  rewrite <- (sides_of_length base next f).
  unfold sides_of. generalize (S next).
  generalize (side_loops (face_verts f) (seq base (length (face_verts f)))
                (hd 0 (face_verts f)) (hd 0 (seq base (length (face_verts f))))).
  intros loops. induction loops as [| l loops IH]; intros s; simpl; [reflexivity |].
  rewrite IH. reflexivity.
Qed.

(** Tagging the caps [IN] in the list of new faces: every cap reads [IN],
    every side keeps the layer value it inherited. *)
Lemma tag_new_faces (sel : list BMFace) :
  forall base next ids,
    (forall i, In i ids -> i < next) ->
    map face_mask
      (map (fun face =>
              if mem_nat (face_id face) (ids ++ map face_id (caps_of base next sel))
              then set_mask IN face else face)
         (new_faces_of base next sel))
    = flat_map (fun f => IN :: repeat (face_mask f) (length (face_verts f))) sel.
Proof.
  induction sel as [| f sel IH]; intros base next ids Hids; [reflexivity |].
  cbn [caps_of new_faces_of flat_map map app].
  rewrite !map_app. cbn [face_id].
  assert (Hnx : mem_nat next
                  (ids ++ next :: map face_id
                     (caps_of (base + length (face_verts f))
                        (S next + length (face_verts f)) sel)) = true).
  { apply mem_nat_In. apply in_or_app. right. left. reflexivity. }
  rewrite Hnx. cbn [set_mask face_mask]. f_equal.
  f_equal.
  - rewrite <- sides_of_mask with (base := base) (next := next).
    rewrite map_map. apply map_ext_in. intros g Hg.
    unfold sides_of in Hg. apply number_faces_id in Hg as [Hg _].
    rewrite side_loops_length in Hg by (symmetry; apply length_seq).
    replace (mem_nat (face_id g) _) with false; [reflexivity |].
    symmetry. apply mem_nat_false. intros Hin.
    apply in_app_or in Hin as [Hin | [Hin | Hin]].
    + apply Hids in Hin. lia.
    + lia.
    + apply in_map_iff in Hin as [c [Ec Hc]]. apply caps_of_id in Hc. lia.
  - change (ids ++ next :: ?l) with (ids ++ [next] ++ l).
    rewrite app_assoc. apply IH.
    intros i Hi. apply in_app_or in Hi as [Hi | [<- | []]]; [apply Hids in Hi |]; lia.
Qed.

Lemma MASK_MEANING_tag (t : Z) :
  t = MASK \/ t = OUT \/ t = IN -> MASK_MEANING t = inr (tag_name t).
Proof.
  intros [-> | [-> | ->]]; reflexivity.
Qed.

Lemma spec_tag_range c m : spec_tag c m = MASK \/ spec_tag c m = OUT \/ spec_tag c m = IN.
Proof.
  unfold spec_tag. destruct c; [tauto |]. destruct (m =? 0)%Z; tauto.
Qed.

Lemma input_face_mask ls ms i :
  face_mask (input_face ls ms i) = spec_tag false (nth i ms 0%Z).
Proof.
  unfold input_face, spec_tag, truthy; simpl.
  destruct (nth i ms 0%Z =? 0)%Z; reflexivity.
Qed.

Section OutMask.
Context {F : Type} {SF : Scalar F} {MK : MeshKernel F}.

(** The layer of the final mesh once the caps are tagged. *)
Lemma tagged_layer mode (vs : list (Vector F)) (ls : list (list nat)) ms :
  map face_mask
    (map (fun face =>
            if mem_nat (face_id face) (map face_id (extruded_caps mode vs ls ms))
            then set_mask IN face else face)
       (bm_faces (extruded_mesh mode vs ls ms)))
  = map (fun k => spec_tag (fst k) (nth (snd k) ms 0%Z))
      (final_face_kinds mode ls ms).
Proof.
  unfold extruded_mesh, extruded_caps, final_face_kinds. cbn [bm_faces].
  rewrite !map_app. f_equal.
  - rewrite !map_map. apply map_ext_in. intros i Hi. cbn [fst snd].
    replace (mem_nat _ _) with false; [apply input_face_mask |].
    symmetry. apply mem_nat_false. intros Hin.
    apply in_map_iff in Hin as [c [Ec Hc]]. apply caps_of_id in Hc.
    cbn [input_face face_id] in Ec.
    apply filter_In in Hi as [Hi _]. apply in_seq in Hi. lia.
  - pose proof (tag_new_faces
                  (map (input_face ls ms) (selected_indices mode ms (length ls)))
                  (length vs) (length ls) [] (fun i (H : In i []) => match H with end))
      as T.
    cbn [app] in T. rewrite T. clear T.
    generalize (selected_indices mode ms (length ls)). intros l.
    induction l as [| i l IH]; [reflexivity |].
    cbn [map flat_map]. rewrite map_app, <- IH. cbn [map fst snd app].
    rewrite map_repeat. cbn [fst snd].
    rewrite input_face_mask. reflexivity.
Qed.

Lemma get_out_mask_closed cfg mode (vs : list (Vector F)) ls ms (bm2 : BMesh F) :
  mode = mask_mode cfg ->
  bm_faces bm2 = bm_faces (extruded_mesh mode vs ls ms) ->
  get_out_mask cfg bm2 (extruded_caps mode vs ls ms) = inr (spec_mask cfg ls ms).
Proof.
  intros -> Hfaces. unfold get_out_mask, spec_mask.
  pose proof (tagged_layer (mask_mode cfg) vs ls ms) as T.
  rewrite <- Hfaces in T.
  set (tagged := map _ (bm_faces bm2)) in *.
  rewrite (mapM_inr_map _
             (fun face => Z.b2z (mem_string (tag_name (face_mask face))
                                   (mask_out_type cfg)))).
  - f_equal. rewrite <- (map_map face_mask
       (fun t => Z.b2z (mem_string (tag_name t) (mask_out_type cfg)))).
    rewrite T. rewrite map_map. reflexivity.
  - intros face Hin.
    assert (Ht : In (face_mask face) (map face_mask tagged)) by (apply in_map; exact Hin).
    rewrite T in Ht. apply in_map_iff in Ht as [k [Ek _]].
    rewrite MASK_MEANING_tag by (rewrite <- Ek; apply spec_tag_range).
    reflexivity.
Qed.

End OutMask.

Lemma mem_string_In (s : string) (l : list string) :
  mem_string s l = true <-> In s l.
Proof.
  unfold mem_string. rewrite existsb_exists. split.
  - intros [x [Hx E]]. apply String.eqb_eq in E. subst; assumption.
  - intros H. exists s. split; [assumption | apply String.eqb_refl].
Qed.

Lemma spec_mask_nth cfg (ls : list (list nat)) ms j k :
  nth_error (final_face_kinds (mask_mode cfg) ls ms) j = Some k ->
  nth j (spec_mask cfg ls ms) 0%Z
  = Z.b2z (mem_string (tag_name (spec_tag (fst k) (nth (snd k) ms 0%Z)))
             (mask_out_type cfg)).
Proof.
  intros H. unfold spec_mask.
  apply nth_error_nth. rewrite nth_error_map, H. reflexivity.
Qed.

(** C5. Output mask.  When the Mask output is connected, the loop emits a
    mask with one entry per face of the final mesh, every entry is 0 or 1,
    and the entry of a face is 1 exactly when the name of its tag is in
    [mask_out_type], the tag being [IN] for a cap returned by the extrusion,
    [MASK] for any other face whose resolved input mask is 0, and [OUT]
    otherwise. *)
Theorem C5_output_mask {F : Type} {SF : Scalar F} {MK : MeshKernel F}
  (cfg : Config) (lk : Links) (it : @Item F) (res : @ItemResult F) :
  need_mask_out lk = true ->
  process_item cfg lk it = inr res ->
  exists ms m,
    fullList (masks it) (length (faces it)) = inr ms
    /\ new_mask res = Some m
    /\ length m = length (new_faces res)
    /\ Forall (fun z => z = 0%Z \/ z = 1%Z) m
    /\ m = spec_mask cfg (faces it) ms
    /\ (forall j k, nth_error (final_face_kinds (mask_mode cfg) (faces it) ms) j = Some k ->
          (nth j m 0%Z = 1%Z
           <-> In (tag_name (spec_tag (fst k) (nth (snd k) ms 0%Z)))
                 (mask_out_type cfg))).
Proof.
  intros Hneed H.
  apply process_item_inr in H
    as (hs & ss & xs & ms & bm2 & _ & _ & _ & Hms & _ & Hfold & _ & Hfaces & _ & Hmask).
  rewrite Hneed in Hmask. destruct Hmask as [m [Hm Hnew]].
  apply foldM_transform_cap_inr in Hfold as [(Hsame & _) _].
  rewrite (get_out_mask_closed cfg (mask_mode cfg) (vertices it) (faces it) ms bm2
             eq_refl Hsame) in Hm.
  injection Hm as <-.
  exists ms, (spec_mask cfg (faces it) ms). repeat split; try assumption.
  - rewrite Hfaces, Hsame, length_map.
    unfold spec_mask. rewrite length_map.
    rewrite <- (length_map (fun k => spec_tag (fst k) (nth (snd k) ms 0%Z))).
    rewrite <- (tagged_layer (mask_mode cfg) (vertices it) (faces it) ms).
    rewrite !length_map. reflexivity.
  - unfold spec_mask. apply Forall_forall. intros z Hz.
    apply in_map_iff in Hz as [k [<- _]].
    destruct (mem_string _ _); simpl; tauto.
  - intros Hj. apply mem_string_In.
    rewrite (spec_mask_nth cfg (faces it) ms j k H) in Hj.
    destruct (mem_string _ _); [reflexivity | discriminate].
  - intros Hin. rewrite (spec_mask_nth cfg (faces it) ms j k H).
    apply mem_string_In in Hin. rewrite Hin. reflexivity.
Qed.

(** ** Faces left alone *)

Lemma caps_of_loop_ge (sel : list BMFace) :
  forall base next c v,
    In c (caps_of base next sel) -> In v (face_verts c) -> base <= v.
Proof.
  induction sel as [| f sel IH]; intros base next c v; simpl; [tauto |].
  intros [<- | Hc] Hv.
  - simpl in Hv. apply in_seq in Hv. lia.
  - specialize (IH _ _ _ _ Hc Hv). lia.
Qed.

Lemma nth_error_co {A} (l : list A) (d : A) (v : nat) :
  v < length l -> nth_error l v = Some (nth v l d).
Proof.
  intros H. apply nth_error_nth'. exact H.
Qed.

Section Untouched.
Context {F : Type} {SF : Scalar F} {MK : MeshKernel F}.

(** Whatever the loop over [face_data] does, it leaves the vertices of the
    input where they are. *)
Lemma input_vertices_stay cfg lk mode (vs : list (Vector F)) ls ms hs ss xs bm2 acc v :
  foldM (transform_cap cfg lk)
    (face_data mode (extruded_caps mode vs ls ms) ms hs ss xs)
    (extruded_mesh mode vs ls ms, []) = inr (bm2, acc) ->
  v < length vs ->
  nth_error (bm_verts bm2) v = nth_error vs v.
Proof.
  intros Hfold Hv.
  apply foldM_transform_cap_inr in Hfold as [(_ & _ & Hlen & Hco) _].
  assert (Hout : ~ In v (flat_map (fun d => face_verts (face_of d))
                           (face_data mode (extruded_caps mode vs ls ms) ms hs ss xs))).
  { intros Hin. apply in_flat_map in Hin as [d [Hd Hin]].
    apply face_data_incl in Hd. unfold extruded_caps in Hd.
    pose proof (caps_of_loop_ge _ _ _ _ _ Hd Hin). lia. }
  specialize (Hco v Hout). unfold co in Hco. cbn [extruded_mesh bm_verts] in *.
  rewrite length_app in Hlen.
  rewrite (nth_error_co _ zero_vector) by lia.
  rewrite (nth_error_co vs zero_vector) by lia.
  rewrite Hco. rewrite app_nth1 by exact Hv. reflexivity.
Qed.

End Untouched.

(** C6. In NOEXTRUDE mode a face whose resolved mask entry is falsy is a
    face of the output with the loop it had, and every vertex of that loop
    is in the output at the position it had in the input: the very value,
    not a recomputed one. *)
Theorem C6_unselected_untouched {F : Type} {SF : Scalar F} {MK : MeshKernel F}
  (cfg : Config) (lk : Links) (it : @Item F) (res : @ItemResult F)
  (ms : list Z) (i : nat) (loop : list nat) :
  mask_mode cfg = NOEXTRUDE ->
  process_item cfg lk it = inr res ->
  fullList (masks it) (length (faces it)) = inr ms ->
  nth_error (faces it) i = Some loop ->
  truthy (nth i ms 0%Z) = false ->
  In loop (new_faces res)
  /\ forall v, In v loop ->
       v < length (vertices it)
       /\ nth_error (new_vertices res) v = nth_error (vertices it) v.
Proof.
  intros Hmode H Hms Hi Hmask.
  apply process_item_inr in H
    as (hs & ss & xs & ms' & bm2 & _ & _ & _ & Hms' & Hrange & Hfold & Hverts & Hfaces & _).
  rewrite Hms in Hms'. injection Hms' as <-.
  assert (Hlt : i < length (faces it)) by (apply nth_error_Some; congruence).
  assert (Hloop : nth i (faces it) [] = loop) by (apply nth_error_nth; exact Hi).
  split.
  - pose proof Hfold as Hf.
    apply foldM_transform_cap_inr in Hf as [(Hsame & _) _].
    rewrite Hfaces, Hsame. cbn [extruded_mesh bm_faces].
    rewrite map_app. apply in_or_app. left. rewrite map_map.
    apply in_map_iff. exists i. split; [exact Hloop |].
    unfold untouched_indices. apply filter_In. split; [apply in_seq; lia |].
    apply negb_true_iff, mem_nat_false. rewrite Hmode. simpl.
    intros Hin. apply filter_In in Hin as [_ Ht]. congruence.
  - intros v Hv.
    assert (Hr : v < length (vertices it)).
    { rewrite Forall_forall in Hrange.
      assert (Hl : In loop (faces it)) by (eapply nth_error_In; exact Hi).
      specialize (Hrange loop Hl). rewrite Forall_forall in Hrange. auto. }
    split; [exact Hr |].
    rewrite Hverts. eapply input_vertices_stay; eassumption.
Qed.

(** ** The node on the example mesh *)

Ltac runs := vm_compute; reflexivity.

(** The hypotheses of C4 hold on the example mesh. *)
Lemma C4_partition_witness :
  (forall f, In f (new_extruded_faces example_noextrude_result)
             \/ In f (new_other_faces example_noextrude_result)
             <-> In f (new_faces example_noextrude_result))
  /\ (forall f, ~ (In f (new_extruded_faces example_noextrude_result)
                   /\ In f (new_other_faces example_noextrude_result))).
Proof.
  assert (E : process_item (MK := reference_kernel) example_noextrude example_links
                example_item = inr example_noextrude_result) by runs.
  exact (@C4_partition Q QScalar reference_kernel example_noextrude example_links
           example_item example_noextrude_result eq_refl eq_refl E).
Defined.

(** The hypotheses of C5 hold on the example mesh. *)
Lemma C5_output_mask_witness :
  exists ms m,
    fullList (masks example_item) (length (faces example_item)) = inr ms
    /\ new_mask example_noextrude_result = Some m
    /\ length m = length (new_faces example_noextrude_result)
    /\ Forall (fun z => z = 0%Z \/ z = 1%Z) m
    /\ m = spec_mask example_noextrude (faces example_item) ms.
Proof.
  assert (E : process_item (MK := reference_kernel) example_noextrude example_links
                example_item = inr example_noextrude_result) by runs.
  destruct (@C5_output_mask Q QScalar reference_kernel example_noextrude example_links
              example_item example_noextrude_result eq_refl E)
    as (ms & m & H1 & H2 & H3 & H4 & H5 & _).
  exists ms, m. repeat split; assumption.
Defined.

(** The hypotheses of C6 hold for the masked triangle of the example. *)
Lemma C6_unselected_untouched_witness :
  In [0; 3; 1] (new_faces example_noextrude_result)
  /\ forall v, In v [0; 3; 1] ->
       v < length example_vertices
       /\ nth_error (new_vertices example_noextrude_result) v
          = nth_error example_vertices v.
Proof.
  assert (E : process_item (MK := reference_kernel) example_noextrude example_links
                example_item = inr example_noextrude_result) by runs.
  exact (@C6_unselected_untouched Q QScalar reference_kernel example_noextrude
           example_links example_item example_noextrude_result [1%Z; 0%Z] 1 [0; 3; 1]
           eq_refl E eq_refl eq_refl eq_refl).
Defined.

(** The square extruded in NORMAL mode with height 1 and scale 1: a cap at
    z = 1 on four new vertices, four quads around it, and ExtrudedPolys
    holding exactly the loop of the cap. *)
Example square_raised :
  process_item (MK := reference_kernel) (mkConfig NORMAL NOEXTRUDE ["out"%string])
    example_links
    (mkItem unit_square [] [[0; 1; 2; 3]] [1%Z] [1%Q] [ScaleFloat 1%Q] [identity])
  = inr (mkItemResult
           (unit_square ++
              [mkVector 0%Q 0%Q 1%Q; mkVector 1%Q 0%Q 1%Q;
               mkVector 1%Q 1%Q 1%Q; mkVector 0%Q 1%Q 1%Q])
           [[4; 5; 6; 7]; [1; 5; 4; 0]; [2; 6; 5; 1]; [3; 7; 6; 2]; [0; 4; 7; 3]]
           [[4; 5; 6; 7]]
           [[1; 5; 4; 0]; [2; 6; 5; 1]; [3; 7; 6; 2]; [0; 4; 7; 3]]
           (Some [0%Z; 1%Z; 1%Z; 1%Z; 1%Z])).
Proof. runs. Qed.

(** The square in MATRIX mode with a uniform scale by 2: the cap grows
    about the centre of the face, not about the origin. *)
Example square_doubled :
  process_item (MK := reference_kernel) (mkConfig MATRIX NOEXTRUDE ["in"%string])
    example_links
    (mkItem unit_square [] [[0; 1; 2; 3]] [1%Z] [0%Q] [ScaleFloat 1%Q]
       [scale_matrix (mkVector 2%Q 2%Q 2%Q)])
  = inr (mkItemResult
           (unit_square ++
              [mkVector (-1 # 2)%Q (-1 # 2)%Q 0%Q; mkVector (3 # 2)%Q (-1 # 2)%Q 0%Q;
               mkVector (3 # 2)%Q (3 # 2)%Q 0%Q; mkVector (-1 # 2)%Q (3 # 2)%Q 0%Q])
           [[4; 5; 6; 7]; [1; 5; 4; 0]; [2; 6; 5; 1]; [3; 7; 6; 2]; [0; 4; 7; 3]]
           [[4; 5; 6; 7]]
           [[1; 5; 4; 0]; [2; 6; 5; 1]; [3; 7; 6; 2]; [0; 4; 7; 3]]
           (Some [1%Z; 0%Z; 0%Z; 0%Z; 0%Z])).
Proof. runs. Qed.

(** [process] on a batch of two squares: the face list is extended to the
    length of the batch, the first square is extruded and the second, masked
    out, passes through. *)
Example process_two_squares :
  process (MK := reference_kernel) example_linked_node
  = inr (mkOutputs
           (Some [unit_square ++
                    [mkVector 0%Q 0%Q 1%Q; mkVector 1%Q 0%Q 1%Q;
                     mkVector 1%Q 1%Q 1%Q; mkVector 0%Q 1%Q 1%Q];
                  unit_square])
           (Some [[[4; 5; 6; 7]; [1; 5; 4; 0]; [2; 6; 5; 1]; [3; 7; 6; 2]; [0; 4; 7; 3]];
                  [[0; 1; 2; 3]]])
           (Some [[[4; 5; 6; 7]]; []])
           (Some [[]; []])
           (Some [[1%Z; 0%Z; 0%Z; 0%Z; 0%Z]; [0%Z]])).
Proof. runs. Qed.

(** The hypothesis of C9 holds for a node whose Polygons input is not
    connected. *)
Lemma C9_boundary_noop_witness :
  process (MK := reference_kernel) example_unlinked_node
  = ret (mkOutputs None None None None None).
Proof.
  apply (@C9_boundary_noop Q QScalar reference_kernel example_unlinked_node).
  right; left; reflexivity.
Defined.

(** C3. The ExtrudedPolys output misses caps.  In NOTRANSFORM mode the
    masked triangle is extruded: its cap [3, 4, 5] is a face of the final
    mesh and the output mask marks it as an inner face, yet the list emitted
    for ExtrudedPolys is empty and the cap is listed under OtherPolys. *)
Theorem C3_masked_cap_not_listed :
  process_item (MK := reference_kernel) example_notransform example_links
    masked_triangle
  = inr (mkItemResult
           [mkVector 0%Q 0%Q 0%Q; mkVector 2%Q 0%Q 0%Q; mkVector 0%Q 2%Q 0%Q;
            mkVector 0%Q 0%Q 0%Q; mkVector 2%Q 0%Q 0%Q; mkVector 0%Q 2%Q 0%Q]
           [[3; 4; 5]; [1; 4; 3; 0]; [2; 5; 4; 1]; [0; 3; 5; 2]]
           []
           [[3; 4; 5]; [1; 4; 3; 0]; [2; 5; 4; 1]; [0; 3; 5; 2]]
           (Some [1%Z; 0%Z; 0%Z; 0%Z])).
Proof. runs. Qed.

(** ** Matrices over the reals *)

Ltac real_ops :=
  cbv [determinant adjugate mat_div row_div matmul row_mul dot4 col0 col1 col2 col3
       cof00 cof01 cof02 cof03 cof10 cof11 cof12 cof13
       cof20 cof21 cof22 cof23 cof30 cof31 cof32 cof33 det3
       identity Translation scale_matrix zero_m4 to_4x4 zip_xyz mul_m4_v3
       vscale vadd dot cross zero_vector
       m0 m1 m2 m3 r0 r1 r2 r3 vx vy vz
       fadd fsub fmul fopp fdiv f0 f1 RScalar].

Ltac destruct_matrix a :=
  let a00 := fresh a "00" in let a01 := fresh a "01" in
  let a02 := fresh a "02" in let a03 := fresh a "03" in
  let a10 := fresh a "10" in let a11 := fresh a "11" in
  let a12 := fresh a "12" in let a13 := fresh a "13" in
  let a20 := fresh a "20" in let a21 := fresh a "21" in
  let a22 := fresh a "22" in let a23 := fresh a "23" in
  let a30 := fresh a "30" in let a31 := fresh a "31" in
  let a32 := fresh a "32" in let a33 := fresh a "33" in
  destruct a as [[a00 a01 a02 a03] [a10 a11 a12 a13]
                 [a20 a21 a22 a23] [a30 a31 a32 a33]].

Section RealMatrices.
Local Open Scope R_scope.

Lemma feqb_R_true (x y : R) : feqb x y = true <-> x = y.
Proof.
  simpl. destruct (Req_dec_T x y); split; congruence.
Qed.

Lemma feqb_R_false (x y : R) : feqb x y = false <-> x <> y.
Proof.
  simpl. destruct (Req_dec_T x y); split; congruence.
Qed.

Lemma fleb_R_true (x y : R) : fleb x y = true <-> x <= y.
Proof.
  simpl. destruct (Rle_dec x y); split; congruence.
Qed.

Lemma fleb_R_false (x y : R) : fleb x y = false <-> y < x.
Proof.
  simpl. destruct (Rle_dec x y); split; try congruence; lra.
Qed.

Lemma determinant_matmul (a b : Matrix R) :
  determinant (matmul a b) = determinant a * determinant b.
Proof.
  destruct_matrix a. destruct_matrix b. real_ops. ring.
Qed.

Lemma determinant_identity : determinant (identity (F := R)) = 1.
Proof. real_ops. ring. Qed.

Lemma determinant_Translation (v : Vector R) : determinant (Translation v) = 1.
Proof. destruct v. real_ops. ring. Qed.

Lemma matmul_identity_r (a : Matrix R) : matmul a identity = a.
Proof.
  destruct_matrix a. real_ops. repeat f_equal; ring.
Qed.

Lemma mul_m4_v3_identity (p : Vector R) : mul_m4_v3 identity p = p.
Proof.
  destruct p. real_ops. f_equal; ring.
Qed.

Lemma matmul_adjugate (a : Matrix R) :
  determinant a <> 0 ->
  matmul a (mat_div (adjugate a) (determinant a)) = identity.
Proof.
  destruct_matrix a. real_ops. intros H.
  f_equal; f_equal; field; exact H.
Qed.

Lemma adjugate_matmul (a : Matrix R) :
  determinant a <> 0 ->
  matmul (mat_div (adjugate a) (determinant a)) a = identity.
Proof.
  destruct_matrix a. real_ops. intros H.
  f_equal; f_equal; field; exact H.
Qed.

(** Over the reals [inverted] returns a two-sided inverse, itself
    invertible, whenever the determinant is not zero. *)
Lemma inverted_R (a : Matrix R) :
  determinant a <> 0 ->
  exists b, inverted a = inr b
            /\ matmul a b = identity /\ matmul b a = identity
            /\ determinant b <> 0.
Proof.
  intros H. exists (mat_div (adjugate a) (determinant a)).
  unfold inverted.
  replace (feqb (determinant a) f0) with false
    by (symmetry; apply feqb_R_false; exact H).
  pose proof (matmul_adjugate a H) as E.
  repeat split; try assumption.
  - apply adjugate_matmul; exact H.
  - intros Hz. apply (f_equal determinant) in E.
    rewrite determinant_matmul, determinant_identity, Hz in E. lra.
Qed.

Lemma invert_m4_R {MK : MeshKernel R} (b : Matrix R) :
  determinant b <> 0 -> matmul (invert_m4 b) b = identity.
Proof.
  intros H. unfold invert_m4, inverted.
  replace (feqb (determinant b) f0) with false
    by (symmetry; apply feqb_R_false; exact H).
  apply adjugate_matmul; exact H.
Qed.

Lemma is_zero_m4_R (b : Matrix R) : determinant b <> 0 -> is_zero_m4 b = false.
Proof.
  intros H. destruct (is_zero_m4 b) eqn:E; [| reflexivity].
  exfalso. apply H. unfold is_zero_m4, row_is_zero in E.
  repeat (apply andb_true_iff in E; destruct E as [E ?]).
  repeat match goal with
         | K : feqb _ _ = true |- _ => apply feqb_R_true in K
         end.
  destruct_matrix b. cbn [m0 m1 m2 m3 r0 r1 r2 r3 f0 RScalar] in *. subst.
  real_ops. ring.
Qed.

End RealMatrices.

(** ** The local frame over the reals *)

Section RealFrame.
Local Open Scope R_scope.

Lemma Rotation_pi_X_R :
  Rotation_pi_X (F := R)
  = mkMatrix (mkRow 1 0 0 0) (mkRow 0 (-1) 0 0) (mkRow 0 0 (-1) 0) (mkRow 0 0 0 1).
Proof.
  unfold Rotation_pi_X. cbn [cos_pi sin_pi f0 f1 fopp RScalar].
  rewrite cos_PI, sin_PI. repeat f_equal; ring.
Qed.

Lemma determinant_Rotation_pi_X : determinant (Rotation_pi_X (F := R)) = 1.
Proof. rewrite Rotation_pi_X_R. real_ops. ring. Qed.

(** A vector of positive squared length is normalized by a positive
    factor: the guard of [normalized] is not taken and the divisor is not
    zero. *)
Lemma normalized_R (v : Vector R) :
  0 < dot v v ->
  fleb (dot v v) f0 = false
  /\ sqrt (dot v v) <> 0
  /\ 0 < 1 / sqrt (dot v v)
  /\ normalized v = vscale v (1 / sqrt (dot v v)).
Proof.
  intros H.
  assert (Hs : 0 < sqrt (dot v v)) by (apply sqrt_lt_R0; exact H).
  assert (Hg : fleb (dot v v) f0 = false) by (apply fleb_R_false; exact H).
  repeat split.
  - exact Hg.
  - lra.
  - apply Rdiv_lt_0_compat; lra.
  - unfold normalized. rewrite Hg. reflexivity.
Qed.

(** The vector the non-degenerate branch normalizes first. *)
Lemma x_raw_positive (a b : R) :
  a <> 0 \/ b <> 0 ->
  0 < dot (mkVector (b * - 1) a 0) (mkVector (b * - 1) a 0).
Proof.
  intros H. real_ops. destruct H; nra.
Qed.

Lemma y_raw_positive (a b c k : R) :
  a <> 0 \/ b <> 0 -> 0 < k ->
  let x := vscale (mkVector (b * - 1) a 0) k in
  0 < dot (cross (mkVector a b c) x) (cross (mkVector a b c) x).
Proof.
  intros H Hk x. unfold x. real_ops.
  replace (_ + _ + _)
    with (k * k * ((a * a + b * b) * (a * a + b * b + c * c))) by ring.
  assert (0 < a * a + b * b) by (destruct H; nra).
  assert (0 <= c * c) by nra.
  apply Rmult_lt_0_compat; [nra |].
  apply Rmult_lt_0_compat; lra.
Qed.

Lemma frame_determinant (a b c k1 k2 : R) :
  let z := mkVector a b c in
  let x := vscale (mkVector (b * - 1) a 0) k1 in
  let y := vscale (cross z x) k2 in
  determinant (to_4x4 (zip_xyz x y z))
  = k1 * k1 * k2 * ((a * a + b * b) * (a * a + b * b + c * c)).
Proof.
  cbv zeta. real_ops. ring.
Qed.

(** The non-degenerate branch in closed form: both normalizations divide
    by a positive length. *)
Lemma local_rotation_frame (a b c : R) :
  a <> 0 \/ b <> 0 ->
  let z := mkVector a b c in
  let x := normalized (mkVector (b * - 1) a 0) in
  let y := normalized (cross z x) in
  local_rotation z = to_4x4 (zip_xyz x y z)
  /\ (exists k1 k2, 0 < k1 /\ 0 < k2
        /\ x = vscale (mkVector (b * - 1) a 0) k1
        /\ y = vscale (cross z x) k2).
Proof.
  intros H z x y. split.
  - unfold local_rotation. cbn [vx vy vz z].
    replace (feqb a f0 && feqb b f0)%bool with false; [reflexivity |].
    symmetry. apply andb_false_iff.
    destruct H as [H | H]; [left | right]; apply feqb_R_false; exact H.
  - pose proof (normalized_R _ (x_raw_positive a b H)) as (_ & _ & Hk1 & Ex).
    fold x in Ex.
    set (k1 := 1 / sqrt _) in *.
    pose proof (y_raw_positive a b c k1 H Hk1) as Hy. cbv zeta in Hy.
    rewrite <- Ex in Hy.
    pose proof (normalized_R _ Hy) as (_ & _ & Hk2 & Ey).
    exists k1, (1 / sqrt (dot (cross z x) (cross z x))).
    repeat split; assumption.
Qed.

(** The rotation of the local frame is invertible for every normal. *)
Lemma determinant_local_rotation (normal : Vector R) :
  determinant (local_rotation normal) <> 0.
Proof.
  destruct normal as [a b c].
  destruct (Req_dec_T a 0) as [Ha | Ha]; [destruct (Req_dec_T b 0) as [Hb | Hb] |].
  - unfold local_rotation. cbn [vx vy vz].
    replace (feqb a f0) with true by (symmetry; apply feqb_R_true; exact Ha).
    replace (feqb b f0) with true by (symmetry; apply feqb_R_true; exact Hb).
    cbn [andb]. destruct (fleb f0 c).
    + rewrite determinant_identity. lra.
    + rewrite determinant_Rotation_pi_X. lra.
  - destruct (local_rotation_frame a b c (or_intror Hb))
      as [E (k1 & k2 & H1 & H2 & Ex & Ey)].
    rewrite E, Ey, Ex. rewrite frame_determinant.
    assert (0 < a * a + b * b) by nra. assert (0 <= c * c) by nra.
    apply Rgt_not_eq. repeat apply Rmult_lt_0_compat; lra.
  - destruct (local_rotation_frame a b c (or_introl Ha))
      as [E (k1 & k2 & H1 & H2 & Ex & Ey)].
    rewrite E, Ey, Ex. rewrite frame_determinant.
    assert (0 < a * a + b * b) by nra. assert (0 <= c * c) by nra.
    apply Rgt_not_eq. repeat apply Rmult_lt_0_compat; lra.
Qed.

(** The reference frame exists for every normal and every centre, and is
    the two-sided inverse of translation times rotation. *)
Lemma local_space_R (normal center : Vector R) :
  exists space,
    local_space normal center = inr space
    /\ matmul (matmul (Translation center) (local_rotation normal)) space = identity
    /\ matmul space (matmul (Translation center) (local_rotation normal)) = identity
    /\ determinant space <> 0.
Proof.
  unfold local_space. apply inverted_R.
  rewrite determinant_matmul, determinant_Translation.
  pose proof (determinant_local_rotation normal). lra.
Qed.

End RealFrame.

Section RealFrameBranches.
Local Open Scope R_scope.

Lemma local_rotation_degenerate (normal : Vector R) :
  vx normal = 0 -> vy normal = 0 ->
  (feqb (vx normal) f0 && feqb (vy normal) f0)%bool = true
  /\ (0 <= vz normal -> local_rotation normal = identity)
  /\ (vz normal < 0 -> local_rotation normal = Rotation_pi_X).
Proof.
  intros Hx Hy.
  assert (G : (feqb (vx normal) f0 && feqb (vy normal) f0)%bool = true).
  { apply andb_true_iff. split; apply feqb_R_true; assumption. }
  unfold local_rotation. rewrite G. repeat split; intros Hz.
  - replace (fleb f0 (vz normal)) with true; [reflexivity |].
    symmetry. apply fleb_R_true. exact Hz.
  - replace (fleb f0 (vz normal)) with false; [reflexivity |].
    symmetry. apply fleb_R_false. exact Hz.
Qed.

Lemma x_raw_opp (a b : R) :
  mkVector (F := R) (fmul b (fopp f1)) a f0 = mkVector (- b) a 0.
Proof.
  cbn [fmul fopp f1 f0 RScalar]. f_equal. ring.
Qed.

End RealFrameBranches.

(** C2. Per-face local frame, coordinates read as real numbers.  A normal
    with x = 0 and y = 0 gives the identity when z >= 0 and the half turn
    about X otherwise; any other normal gives the matrix whose columns are
    local X = normalize((-normal.y, normal.x, 0)), local Y = normalize(Z
    cross X) and local Z = the normal; and the reference frame [space] of
    the transform exists and is the inverse of Translation(centre) times
    that rotation. *)
Theorem C2_local_frame (normal center : Vector R) :
  (vx normal = 0%R /\ vy normal = 0%R ->
     (0 <= vz normal -> local_rotation normal = identity)%R
     /\ (vz normal < 0 ->
         local_rotation normal = Rotation_pi_X
         /\ Rotation_pi_X (F := R)
            = mkMatrix (mkRow 1 0 0 0) (mkRow 0 (-1) 0 0)
                       (mkRow 0 0 (-1) 0) (mkRow 0 0 0 1))%R)
  /\ (~ (vx normal = 0%R /\ vy normal = 0%R) ->
       let z_axis := normal in
       let x_axis := normalized (mkVector (- vy normal) (vx normal) 0)%R in
       let y_axis := normalized (cross z_axis x_axis) in
       local_rotation normal
       = mkMatrix (mkRow (vx x_axis) (vx y_axis) (vx z_axis) 0%R)
                  (mkRow (vy x_axis) (vy y_axis) (vy z_axis) 0%R)
                  (mkRow (vz x_axis) (vz y_axis) (vz z_axis) 0%R)
                  (mkRow 0%R 0%R 0%R 1%R))
  /\ (exists space,
        local_space normal center = ret space
        /\ matmul space (matmul (Translation center) (local_rotation normal))
           = identity
        /\ matmul (matmul (Translation center) (local_rotation normal)) space
           = identity).
Proof.
  repeat split.
  - destruct H as [Hx Hy]. apply (local_rotation_degenerate normal Hx Hy).
  - destruct H as [Hx Hy]. apply (local_rotation_degenerate normal Hx Hy).
    assumption.
  - apply Rotation_pi_X_R.
  - intros Hnd z_axis x_axis y_axis.
    destruct normal as [a b c]. cbn [vx vy vz] in *.
    assert (H : a <> 0%R \/ b <> 0%R).
    { destruct (Req_dec_T a 0) as [Ha | Ha]; [| left; exact Ha].
      destruct (Req_dec_T b 0) as [Hb | Hb]; [tauto | right; exact Hb]. }
    destruct (local_rotation_frame a b c H) as [E _].
    rewrite E. rewrite x_raw_opp. reflexivity.
  - destruct (local_space_R normal center) as (space & E & H1 & H2 & _).
    exists space. repeat split; assumption.
Qed.

(** The hypotheses of C2 hold for the normals +Z and +X. *)
Lemma C2_local_frame_witness :
  local_rotation (mkVector 0%R 0%R 1%R) = identity
  /\ local_rotation (mkVector 1%R 0%R 0%R)
     = (let z_axis := mkVector 1%R 0%R 0%R in
        let x_axis := normalized (mkVector (- 0) 1 0)%R in
        let y_axis := normalized (cross z_axis x_axis) in
        mkMatrix (mkRow (vx x_axis) (vx y_axis) (vx z_axis) 0%R)
                 (mkRow (vy x_axis) (vy y_axis) (vy z_axis) 0%R)
                 (mkRow (vz x_axis) (vz y_axis) (vz z_axis) 0%R)
                 (mkRow 0%R 0%R 0%R 1%R)).
Proof.
  split.
  - apply (proj1 (C2_local_frame (mkVector 0%R 0%R 1%R) zero_vector)).
    + split; reflexivity.
    + simpl; lra.
  - apply (proj1 (proj2 (C2_local_frame (mkVector 1%R 0%R 0%R) zero_vector))).
    simpl. intros [H _]. lra.
Defined.

(** C10. The normalization step of the local frame is total, coordinates
    read as real numbers.  When the normal has x <> 0 or y <> 0 the
    non-degenerate branch is taken, the vector (-normal.y, normal.x, 0) is
    not the zero vector, its squared length is positive, and [normalized]
    divides by a length that is not zero.  When x = 0 and y = 0, the zero
    vector included, the guarded branch is taken and yields the identity
    for z >= 0 and the half turn about X for z < 0. *)
Theorem C10_frame_total (normal : Vector R) :
  (vx normal <> 0%R \/ vy normal <> 0%R ->
     let v := mkVector (fmul (vy normal) (fopp f1)) (vx normal) f0 in
     (feqb (vx normal) f0 && feqb (vy normal) f0)%bool = false
     /\ v <> zero_vector
     /\ (0 < dot v v)%R
     /\ fleb (dot v v) f0 = false
     /\ sqrt (dot v v) <> 0%R
     /\ normalized v = vscale v (1 / sqrt (dot v v))%R)
  /\ (vx normal = 0%R /\ vy normal = 0%R ->
        (feqb (vx normal) f0 && feqb (vy normal) f0)%bool = true
        /\ (0 <= vz normal -> local_rotation normal = identity)%R
        /\ (vz normal < 0 -> local_rotation normal = Rotation_pi_X)%R)
  /\ local_rotation (zero_vector (F := R)) = identity.
Proof.
  repeat split.
  - apply andb_false_iff.
    destruct H as [H | H]; [left | right]; apply feqb_R_false; exact H.
  - intros E. injection E as E1 E2. cbn [fmul fopp f1 f0 RScalar] in *.
    destruct H as [H | H]; apply H; lra.
  - destruct normal as [a b c]. apply x_raw_positive. exact H.
  - destruct normal as [a b c].
    apply (normalized_R _ (x_raw_positive a b H)).
  - destruct normal as [a b c].
    apply (normalized_R _ (x_raw_positive a b H)).
  - destruct normal as [a b c].
    apply (normalized_R _ (x_raw_positive a b H)).
  - destruct H as [Hx Hy]. apply (local_rotation_degenerate normal Hx Hy).
  - destruct H as [Hx Hy]. apply (local_rotation_degenerate normal Hx Hy).
  - destruct H as [Hx Hy]. apply (local_rotation_degenerate normal Hx Hy).
  - destruct (local_rotation_degenerate zero_vector) as (_ & H & _);
      [reflexivity | reflexivity |].
    apply H. simpl. lra.
Qed.

(** The hypotheses of C10 hold for the normals +X and -Z. *)
Lemma C10_frame_total_witness :
  mkVector (F := R) (fmul 0%R (fopp f1)) 1%R f0 <> zero_vector
  /\ local_rotation (mkVector 0%R 0%R (-1)%R) = Rotation_pi_X.
Proof.
  split.
  - apply (proj1 (C10_frame_total (mkVector 1%R 0%R 0%R))).
    left. simpl. lra.
  - apply (proj1 (proj2 (C10_frame_total (mkVector 0%R 0%R (-1)%R)))).
    + split; reflexivity.
    + simpl. lra.
Defined.

(** ** A transform with height 0 and scale 1 *)

Section RealNoop.
Local Open Scope R_scope.
Context {MK : MeshKernel R}.

Lemma ops_scale_one (bm : BMesh R) (space : Matrix R) (verts : list nat) :
  determinant space <> 0 ->
  ops_scale bm (mkVector 1 1 1) space verts = bm.
Proof.
  intros H. unfold ops_scale, ops_transform.
  rewrite (is_zero_m4_R space H).
  change (scale_matrix (mkVector 1 1 1)) with (identity (F := R)).
  rewrite matmul_identity_r, (invert_m4_R space H).
  apply move_verts_id. apply mul_m4_v3_identity.
Qed.

Lemma is_zero_m4_zero : is_zero_m4 (zero_m4 (F := R)) = true.
Proof.
  unfold is_zero_m4, row_is_zero, zero_m4. cbn [m0 m1 m2 m3 r0 r1 r2 r3].
  replace (feqb (f0 : R) f0) with true by (symmetry; apply feqb_R_true; reflexivity).
  reflexivity.
Qed.

Lemma ops_translate_zero (bm : BMesh R) (normal : Vector R) (verts : list nat) :
  ops_translate bm (vscale normal 0) verts = bm.
Proof.
  unfold ops_translate, ops_transform. rewrite is_zero_m4_zero.
  apply move_verts_id. intros [x y z]. destruct normal as [a b c].
  real_ops. f_equal; ring.
Qed.

(** One turn of the loop in NORMAL mode with height 0 and the number 1 as
    scale returns normally and leaves the mesh as it is. *)
Lemma transform_cap_noop cfg lk (bm : BMesh R) acc face matrix :
  extrude_mode cfg = NORMAL -> vector_in lk = false ->
  transform_cap cfg lk (bm, acc) (face, 0, ScaleFloat 1, matrix)
  = inr (bm, if (linked_extruded_polygons lk || linked_other_polygons lk)%bool
             then acc ++ [face_verts face] else acc).
Proof.
  intros Hmode Hvec. unfold transform_cap.
  destruct (local_space_R (face_normal bm face) (face_center_median bm face))
    as (space & E & _ & _ & Hdet).
  rewrite E, Hmode, Hvec. cbn [bind scale_vec ret].
  rewrite (ops_scale_one bm space _ Hdet), ops_translate_zero.
  reflexivity.
Qed.

(** A vertex that belongs only to caps transformed with height 0 and
    scale 1 is where it was when the loop ends. *)
Lemma foldM_noop_positions cfg lk (fd : list (@FaceData R)) (v : nat) :
  extrude_mode cfg = NORMAL -> vector_in lk = false ->
  (forall d, In d fd -> In v (face_verts (face_of d)) ->
             height_of d = 0 /\ scale_of d = ScaleFloat 1) ->
  forall bm acc bm' acc',
    foldM (transform_cap cfg lk) fd (bm, acc) = inr (bm', acc') ->
    co bm' v = co bm v.
Proof.
  intros Hmode Hvec. induction fd as [| d fd IH]; intros Hd bm acc bm' acc' H.
  - injection H as <- <-. reflexivity.
  - cbn [foldM] in H. bind_inv H. destruct a as [bm1 acc1].
    rewrite (IH (fun d' Hin => Hd d' (or_intror Hin)) _ _ _ _ H).
    destruct (in_dec Nat.eq_dec v (face_verts (face_of d))) as [Hin | Hout].
    + destruct (Hd d (or_introl eq_refl) Hin) as [Hh Hs].
      destruct d as [[[face height] scale] matrix]. cbn in Hh, Hs. subst.
      rewrite (transform_cap_noop cfg lk bm acc face matrix Hmode Hvec) in Ha.
      injection Ha as <- _. reflexivity.
    + apply transform_cap_inr in Ha as [(_ & _ & _ & Hco) _].
      apply Hco. exact Hout.
Qed.

End RealNoop.

(** ** Caps: where their vertices are *)

Lemma caps_of_nth_error (sel : list BMFace) :
  forall base next k f,
    nth_error sel k = Some f ->
    exists cap, nth_error (caps_of base next sel) k = Some cap
                /\ length (face_verts cap) = length (face_verts f).
Proof.
  induction sel as [| g sel IH]; intros base next [| k] f H; try discriminate.
  - injection H as <-. eexists. split; [reflexivity |]. apply length_seq.
  - cbn [caps_of nth_error]. apply IH. exact H.
Qed.

Lemma caps_of_length (sel : list BMFace) :
  forall base next, length (caps_of base next sel) = length sel.
Proof.
  induction sel as [| g sel IH]; intros base next; simpl; [reflexivity |].
  rewrite IH. reflexivity.
Qed.

(** Two caps of one extrusion share no vertex. *)
Lemma caps_of_disjoint (sel : list BMFace) :
  forall base next j k cj ck v,
    nth_error (caps_of base next sel) j = Some cj ->
    nth_error (caps_of base next sel) k = Some ck ->
    In v (face_verts cj) -> In v (face_verts ck) -> j = k.
Proof.
  induction sel as [| g sel IH]; intros base next j k cj ck v Hj Hk Vj Vk.
  - destruct j; discriminate.
  - destruct j as [| j], k as [| k]; cbn [caps_of nth_error] in Hj, Hk.
    + reflexivity.
    + exfalso. injection Hj as <-. cbn in Vj. apply in_seq in Vj.
      apply nth_error_In in Hk.
      pose proof (caps_of_loop_ge _ _ _ _ _ Hk Vk). lia.
    + exfalso. injection Hk as <-. cbn in Vk. apply in_seq in Vk.
      apply nth_error_In in Hj.
      pose proof (caps_of_loop_ge _ _ _ _ _ Hj Vj). lia.
    + f_equal. eapply IH; eassumption.
Qed.

Section CapPositions.
Context {F : Type} {SF : Scalar F}.

Lemma seq_nth_app (l pre rest : list (Vector F)) :
  map (fun v => nth v (pre ++ l ++ rest) zero_vector) (seq (length pre) (length l))
  = l.
Proof.
  revert pre. induction l as [| a l IH]; intros pre; [reflexivity |].
  cbn [length seq map]. f_equal.
  - rewrite app_nth2 by lia. rewrite Nat.sub_diag. reflexivity.
  - specialize (IH (pre ++ [a])).
    rewrite length_app in IH. cbn [length] in IH.
    rewrite Nat.add_1_r in IH. rewrite <- app_assoc in IH. exact IH.
Qed.

(** Right after the extrusion the vertices of a cap are at the positions
    of the vertices of the face it copies. *)
Lemma cap_positions (vs : list (Vector F)) (sel : list BMFace) :
  forall base next k cap f (pre : list (Vector F)),
    length pre = base ->
    nth_error (caps_of base next sel) k = Some cap ->
    nth_error sel k = Some f ->
    map (fun v => nth v (pre ++ new_verts_of vs sel) zero_vector) (face_verts cap)
    = map (fun i => nth i vs zero_vector) (face_verts f).
Proof.
  induction sel as [| g sel IH]; intros base next k cap f pre Hpre Hc Hf.
  - destruct k; discriminate.
  - destruct k as [| k]; cbn [caps_of nth_error new_verts_of flat_map] in *.
    + injection Hc as <-. injection Hf as <-. cbn [face_verts].
      rewrite <- Hpre.
      rewrite <- (length_map (fun i => nth i vs zero_vector) (face_verts g)).
      apply seq_nth_app.
    + rewrite app_assoc.
      apply (IH (base + length (face_verts g)) (S next + length (face_verts g))
               k cap f); try assumption.
      rewrite length_app, length_map. lia.
Qed.

End CapPositions.

Section FaceDataEntries.
Context {F : Type} {SF : Scalar F}.

(** The entries of [face_data] are entries of the zipped lists, in both
    mask modes. *)
Lemma face_data_entry mode es ms (hs : list F) ss xs d :
  length es <= length ms -> length es <= length hs ->
  length es <= length ss -> length es <= length xs ->
  In d (face_data mode es ms hs ss xs) ->
  exists j, j < length es /\ d = entry es hs ss xs j.
Proof.
  intros Hm Hh Hs Hx Hin. destruct mode.
  - rewrite face_data_NOEXTRUDE in Hin by assumption.
    apply in_map_iff in Hin as [j [<- Hj]]. apply in_seq in Hj.
    exists j. split; [lia | reflexivity].
  - rewrite face_data_NOTRANSFORM in Hin by assumption.
    apply in_map_iff in Hin as [j [<- Hj]].
    apply filter_In in Hj as [Hj _]. apply in_seq in Hj.
    exists j. split; [lia | reflexivity].
Qed.

End FaceDataEntries.

(** C8. Coordinates read as real numbers.  In NORMAL mode, when the k-th
    face handed to the extrusion is given height 0 and the number 1 as
    scale, its cap is a face of the output and every vertex of the cap is
    at the position of the vertex of the original face it copies: scaling
    by 1 about the local frame and translating by 0 along the normal move
    nothing, and the transform of no other cap touches these vertices. *)
Theorem C8_identity_transform {MK : MeshKernel R}
  (cfg : Config) (lk : Links) (it : @Item R) (res : @ItemResult R)
  (ms : list Z) (hs : list R) (ss : list (ScaleValue R)) (k i : nat) :
  extrude_mode cfg = NORMAL ->
  vector_in lk = false ->
  process_item cfg lk it = inr res ->
  fullList (masks it) (length (faces it)) = inr ms ->
  fullList (heights it) (length (faces it)) = inr hs ->
  fullList (scales it) (length (faces it)) = inr ss ->
  nth_error (selected_indices (mask_mode cfg) ms (length (faces it))) k = Some i ->
  nth_error hs k = Some 0%R ->
  nth_error ss k = Some (ScaleFloat 1%R) ->
  exists cap,
    nth_error (extruded_caps (mask_mode cfg) (vertices it) (faces it) ms) k = Some cap
    /\ In (face_verts cap) (new_faces res)
    /\ map (fun v => nth v (new_vertices res) zero_vector) (face_verts cap)
       = map (fun v => nth v (vertices it) zero_vector) (nth i (faces it) []).
Proof.
  intros Hmode Hvec H Hms Hhs Hss Hk Hh Hs.
  apply process_item_inr in H
    as (hs' & ss' & xs & ms' & bm2 & Hhs' & Hss' & Hxs & Hms' & Hrange & Hfold
        & Hverts & Hfaces & _).
  rewrite Hms in Hms'. injection Hms' as <-.
  rewrite Hhs in Hhs'. injection Hhs' as <-.
  rewrite Hss in Hss'. injection Hss' as <-.
  set (n := length (faces it)) in *.
  set (sel := map (input_face (faces it) ms) (selected_indices (mask_mode cfg) ms n)).
  assert (Hsel : nth_error sel k = Some (input_face (faces it) ms i))
    by (apply map_nth_error; exact Hk).
  destruct (caps_of_nth_error sel (length (vertices it)) n k _ Hsel) as [cap [Hcap _]].
  fold (extruded_caps (mask_mode cfg) (vertices it) (faces it) ms) in Hcap.
  exists cap. split; [exact Hcap |].
  pose proof Hfold as Hf.
  apply foldM_transform_cap_inr in Hf as [(Hsame & _) _].
  split.
  - rewrite Hfaces, Hsame. apply in_map.
    apply caps_in_extruded_mesh. eapply nth_error_In; exact Hcap.
  - rewrite Hverts.
    assert (Hlen : (length (extruded_caps (mask_mode cfg) (vertices it) (faces it) ms)
                    <= n)%nat).
    { unfold extruded_caps. rewrite caps_of_length, length_map.
      destruct (mask_mode cfg); simpl.
      - unfold truthy_indices.
        etransitivity; [apply filter_length_le |]. rewrite length_seq. lia.
      - rewrite length_seq. lia. }
    pose proof (fullList_inr _ _ _ Hms) as [Lm _].
    pose proof (fullList_inr _ _ _ Hhs) as [Lh _].
    pose proof (fullList_inr _ _ _ Hss) as [Ls _].
    pose proof (fullList_inr _ _ _ Hxs) as [Lx _].
    fold n in Lm, Lh, Ls, Lx.
    transitivity (map (co (extruded_mesh (mask_mode cfg) (vertices it) (faces it) ms))
                    (face_verts cap)).
    + apply map_ext_in. intros v Hv.
      change (nth v (bm_verts bm2) zero_vector) with (co bm2 v).
      refine (foldM_noop_positions cfg lk _ v Hmode Hvec _ _ _ _ _ Hfold).
      intros d Hd Hvd.
      apply face_data_entry in Hd as [j [Hj ->]]; try lia.
      cbn [entry face_of height_of scale_of] in *.
      assert (Hcj : nth_error (extruded_caps (mask_mode cfg) (vertices it) (faces it) ms) j
                    = Some (nth j (extruded_caps (mask_mode cfg) (vertices it)
                                     (faces it) ms) default_face))
        by (apply nth_error_nth'; exact Hj).
      assert (j = k)
        by (eapply (caps_of_disjoint sel); [exact Hcj | exact Hcap | exact Hvd | exact Hv]).
      subst j. split.
      * apply nth_error_nth. exact Hh.
      * apply nth_error_nth. exact Hs.
    + unfold co. cbn [extruded_mesh bm_verts]. fold n. fold sel.
      apply (cap_positions (vertices it) sel (length (vertices it)) n k cap
               (input_face (faces it) ms i) (vertices it) eq_refl Hcap Hsel).
Qed.

(** The hypotheses of C8 hold for a triangle extruded with height 0 and
    scale 1. *)
Lemma C8_identity_transform_witness :
  exists cap,
    nth_error (extruded_caps NOEXTRUDE (vertices real_triangle)
                 (faces real_triangle) [1%Z]) 0 = Some cap
    /\ In (face_verts cap) (new_faces real_result)
    /\ map (fun v => nth v (new_vertices real_result) zero_vector) (face_verts cap)
       = map (fun v => nth v (vertices real_triangle) zero_vector)
           (nth 0 (faces real_triangle) []).
Proof.
  assert (E : process_item (MK := reference_kernel) example_noextrude example_links
                real_triangle = inr real_result).
  { cbv -[transform_cap IZR].
    rewrite transform_cap_noop by reflexivity.
    cbv -[IZR]. reflexivity. }
  exact (@C8_identity_transform reference_kernel example_noextrude example_links
           real_triangle real_result [1%Z] [0%R] [ScaleFloat 1%R] 0 0
           eq_refl eq_refl E eq_refl eq_refl eq_refl eq_refl eq_refl eq_refl).
Defined.

(** ** The ExtrudedPolys list in closed form *)

Lemma map_nth_seq {A} (l : list A) (d : A) :
  map (fun j => nth j l d) (seq 0 (length l)) = l.
Proof.
  induction l as [| a l IH]; [reflexivity |].
  cbn [length seq map nth]. f_equal.
  rewrite <- seq_shift, map_map. exact IH.
Qed.

Section ExtrudedPolys.
Context {F : Type} {SF : Scalar F} {MK : MeshKernel F}.

(** The loops recorded for ExtrudedPolys are the loops of the caps the
    transform loop visits: all of them in NOEXTRUDE mode, those of the faces
    with a truthy mask entry in NOTRANSFORM mode. *)
Lemma extruded_polys_closed cfg lk (it : @Item F) res ms :
  (linked_extruded_polygons lk || linked_other_polygons lk)%bool = true ->
  process_item cfg lk it = inr res ->
  fullList (masks it) (length (faces it)) = inr ms ->
  let caps := extruded_caps (mask_mode cfg) (vertices it) (faces it) ms in
  new_extruded_faces res
  = match mask_mode cfg with
    | NOEXTRUDE => map face_verts caps
    | NOTRANSFORM =>
        map (fun j => face_verts (nth j caps default_face))
          (truthy_indices ms (length caps))
    end.
Proof.
  intros Hl H Hms caps.
  apply process_item_inr in H
    as (hs & ss & xs & ms' & bm2 & Hhs & Hss & Hxs & Hms' & _ & Hfold & _).
  rewrite Hms in Hms'. injection Hms' as <-.
  apply foldM_transform_cap_inr in Hfold as [_ Hacc].
  rewrite Hl in Hacc. cbn [app] in Hacc. rewrite Hacc. fold caps.
  assert (Hlen : length caps <= length (faces it)).
  { unfold caps, extruded_caps. rewrite caps_of_length, length_map.
    destruct (mask_mode cfg); simpl.
    - unfold truthy_indices.
      etransitivity; [apply filter_length_le |]. rewrite length_seq. lia.
    - rewrite length_seq. lia. }
  pose proof (fullList_inr _ _ _ Hms) as [Lm _].
  pose proof (fullList_inr _ _ _ Hhs) as [Lh _].
  pose proof (fullList_inr _ _ _ Hss) as [Ls _].
  pose proof (fullList_inr _ _ _ Hxs) as [Lx _].
  destruct (mask_mode cfg).
  - rewrite face_data_NOEXTRUDE by lia. rewrite map_map. cbn [entry face_of].
    rewrite <- (map_map (fun j => nth j caps default_face) face_verts).
    rewrite map_nth_seq. reflexivity.
  - rewrite face_data_NOTRANSFORM by lia. rewrite map_map. reflexivity.
Qed.

End ExtrudedPolys.

(** ** The batch *)

Lemma mapM_Forall2 {A B} (f : A -> result B) (l : list A) (rs : list B) :
  mapM f l = inr rs -> Forall2 (fun a r => f a = inr r) l rs.
Proof.
  revert rs. induction l as [| a l IH]; intros rs H; simpl in H.
  - injection H as <-. constructor.
  - bind_inv H. bind_inv H. injection H as <-.
    constructor; [assumption | apply IH; assumption].
Qed.

Section Batch.
Context {F : Type} {SF : Scalar F} {MK : MeshKernel F}.

(** When both guards pass, every entry of every output list is what the
    loop body returns on one mesh of the batch. *)
Lemma process_batch (node : Node F) (outs : Outputs F) :
  is_linked (in_Vertices (inputs node)) = true ->
  is_linked (in_Polygons (inputs node)) = true ->
  any_output_linked (output_links node) = true ->
  process node = inr outs ->
  exists lk meshes rs,
    linked_extruded_polygons lk = ExtrudedPolys_linked (output_links node)
    /\ linked_other_polygons lk = OtherPolys_linked (output_links node)
    /\ need_mask_out lk
       = match Mask_socket (output_links node) with Some b => b | None => false end
    /\ Forall2 (fun it r => process_item (config node) lk it = inr r) meshes rs
    /\ out_Vertices outs = Some (map new_vertices rs)
    /\ out_Polygons outs = Some (map new_faces rs)
    /\ out_ExtrudedPolys outs = Some (map new_extruded_faces rs)
    /\ out_OtherPolys outs = Some (map new_other_faces rs).
Proof.
  intros HV HP HO H. unfold process in H. rewrite HV, HP, HO in H.
  cbn [andb negb] in H. bind_inv H. bind_inv H. injection H as <-.
  apply mapM_Forall2 in Ha0.
  eexists _, _, a0.
  split; [| split; [| split; [| split; [exact Ha0 |]]]];
    repeat split; reflexivity.
Qed.

End Batch.

(** ** Caps of masked faces in NOTRANSFORM mode *)

Section MaskedCaps.
Context {F : Type} {SF : Scalar F} {MK : MeshKernel F}.

(** In NOTRANSFORM mode a face whose resolved mask entry is falsy is
    extruded all the same, and its cap stays where the extrusion put it: at
    the positions of the face it copies. *)
Lemma masked_caps_stay cfg lk (it : @Item F) res ms i :
  mask_mode cfg = NOTRANSFORM ->
  process_item cfg lk it = inr res ->
  fullList (masks it) (length (faces it)) = inr ms ->
  i < length (faces it) ->
  truthy (nth i ms 0%Z) = false ->
  exists cap,
    nth_error (extruded_caps NOTRANSFORM (vertices it) (faces it) ms) i = Some cap
    /\ In (face_verts cap) (new_faces res)
    /\ map (fun v => nth v (new_vertices res) zero_vector) (face_verts cap)
       = map (fun v => nth v (vertices it) zero_vector) (nth i (faces it) []).
Proof.
  intros Hmode H Hms Hi Hfalse.
  apply process_item_inr in H
    as (hs & ss & xs & ms' & bm2 & Hhs & Hss & Hxs & Hms' & _ & Hfold
        & Hverts & Hfaces & _).
  rewrite Hms in Hms'. injection Hms' as <-. rewrite Hmode in *.
  set (n := length (faces it)) in *.
  set (sel := map (input_face (faces it) ms) (selected_indices NOTRANSFORM ms n)).
  assert (Hsel : nth_error sel i = Some (input_face (faces it) ms i)).
  { apply map_nth_error. cbn [selected_indices].
    rewrite (nth_error_nth' _ 0) by (rewrite length_seq; exact Hi).
    rewrite seq_nth by exact Hi. reflexivity. }
  destruct (caps_of_nth_error sel (length (vertices it)) n i _ Hsel) as [cap [Hcap _]].
  fold (extruded_caps NOTRANSFORM (vertices it) (faces it) ms) in Hcap.
  exists cap. split; [exact Hcap |].
  apply foldM_transform_cap_inr in Hfold as [(Hsame & _ & _ & Hco) _].
  split.
  - rewrite Hfaces, Hsame. apply in_map.
    apply caps_in_extruded_mesh. eapply nth_error_In; exact Hcap.
  - rewrite Hverts.
    assert (Hlen : length (extruded_caps NOTRANSFORM (vertices it) (faces it) ms) = n).
    { unfold extruded_caps. rewrite caps_of_length, length_map. apply length_seq. }
    pose proof (fullList_inr _ _ _ Hms) as [Lm _].
    pose proof (fullList_inr _ _ _ Hhs) as [Lh _].
    pose proof (fullList_inr _ _ _ Hss) as [Ls _].
    pose proof (fullList_inr _ _ _ Hxs) as [Lx _].
    fold n in Lm, Lh, Ls, Lx.
    transitivity (map (co (extruded_mesh NOTRANSFORM (vertices it) (faces it) ms))
                    (face_verts cap)).
    + apply map_ext_in. intros v Hv.
      change (nth v (bm_verts bm2) zero_vector) with (co bm2 v).
      apply Hco. intros Hin. apply in_flat_map in Hin as [d [Hd Hvd]].
      rewrite face_data_NOTRANSFORM in Hd by lia.
      apply in_map_iff in Hd as [j [<- Hj]].
      apply filter_In in Hj as [Hj Htrue]. apply in_seq in Hj.
      cbn [entry face_of] in Hvd.
      assert (Hcj : nth_error (extruded_caps NOTRANSFORM (vertices it) (faces it) ms) j
                    = Some (nth j (extruded_caps NOTRANSFORM (vertices it)
                                     (faces it) ms) default_face))
        by (apply nth_error_nth'; lia).
      assert (j = i)
        by (eapply (caps_of_disjoint sel); [exact Hcj | exact Hcap | exact Hvd | exact Hv]).
      subst j. congruence.
    + unfold co. cbn [extruded_mesh bm_verts]. fold n. fold sel.
      apply (cap_positions (vertices it) sel (length (vertices it)) n i cap
               (input_face (faces it) ms i) (vertices it) eq_refl Hcap Hsel).
Qed.

End MaskedCaps.

(** * Further properties of the node *)

(** ** Sizes, and the shape of the output mesh *)

Lemma firstn_by_nth_error {A} (vs l : list A) :
  length vs <= length l ->
  (forall v, v < length vs -> nth_error l v = nth_error vs v) ->
  firstn (length vs) l = vs.
Proof.
  revert l. induction vs as [| a vs IH]; intros l Hlen H; [reflexivity |].
  destruct l as [| b l]; [simpl in Hlen; lia |].
  cbn [length firstn]. f_equal.
  - specialize (H 0 (Nat.lt_0_succ _)). cbn in H. congruence.
  - apply IH; [simpl in Hlen; lia |].
    intros v Hv. apply (H (S v)). simpl; lia.
Qed.

Lemma new_faces_of_length (sel : list BMFace) :
  forall base next,
    length (new_faces_of base next sel)
    = length sel + length (flat_map face_verts sel).
Proof.
  induction sel as [| f sel IH]; intros base next; [reflexivity |].
  cbn [new_faces_of flat_map length app]. rewrite !length_app, IH, sides_of_length.
  lia.
Qed.

Lemma flat_map_input_face (ls : list (list nat)) ms (idx : list nat) :
  flat_map face_verts (map (input_face ls ms) idx)
  = flat_map (fun i => nth i ls []) idx.
Proof.
  induction idx as [| i idx IH]; [reflexivity |].
  cbn [map flat_map]. rewrite IH. reflexivity.
Qed.

Lemma filter_negb_length {A} (p : A -> bool) (l : list A) :
  length (filter (fun a => negb (p a)) l) + length (filter p l) = length l.
Proof.
  induction l as [| a l IH]; [reflexivity |].
  cbn [filter]. destruct (p a); cbn [negb length]; lia.
Qed.

Lemma selected_indices_filter mode ms n :
  selected_indices mode ms n
  = filter (fun i => mem_nat i (selected_indices mode ms n)) (seq 0 n).
Proof.
  destruct mode; cbn [selected_indices]; unfold truthy_indices.
  - apply filter_ext_in. intros i Hi.
    destruct (truthy (nth i ms 0%Z)) eqn:E; symmetry.
    + apply mem_nat_In. apply filter_In. auto.
    + apply mem_nat_false. intros H. apply filter_In in H. destruct H; congruence.
  - symmetry. apply filter_all. intros i Hi. apply mem_nat_In. exact Hi.
Qed.

(** Every face is either handed to the extrusion or left alone. *)
Lemma untouched_selected_length mode ms n :
  length (untouched_indices mode ms n) + length (selected_indices mode ms n) = n.
Proof.
  unfold untouched_indices.
  set (s := selected_indices mode ms n).
  replace (length s) with (length (filter (fun i => mem_nat i s) (seq 0 n)))
    by (unfold s; rewrite <- selected_indices_filter; reflexivity).
  rewrite (filter_negb_length (fun i => mem_nat i s)). apply length_seq.
Qed.

Section Sizes.
Context {F : Type} {SF : Scalar F} {MK : MeshKernel F}.

Lemma new_verts_of_length (vs : list (Vector F)) (sel : list BMFace) :
  length (new_verts_of vs sel) = length (flat_map face_verts sel).
Proof.
  unfold new_verts_of. induction sel as [| f sel IH]; [reflexivity |].
  cbn [flat_map]. rewrite !length_app, length_map, IH. reflexivity.
Qed.

(** The mesh that leaves the loop has the faces of the mesh that left the
    extrusion and as many vertices. *)
Lemma final_mesh_shape cfg lk (it : @Item F) res ms :
  process_item cfg lk it = inr res ->
  fullList (masks it) (length (faces it)) = inr ms ->
  new_faces res
  = map face_verts
      (bm_faces (extruded_mesh (mask_mode cfg) (vertices it) (faces it) ms))
  /\ length (new_vertices res)
     = length (vertices it)
       + length (flat_map (fun i => nth i (faces it) [])
                   (selected_indices (mask_mode cfg) ms (length (faces it))))
  /\ Forall (Forall (fun i => i < length (vertices it))) (faces it)
  /\ (forall v, v < length (vertices it) ->
        nth_error (new_vertices res) v = nth_error (vertices it) v).
Proof.
  intros H Hms.
  apply process_item_inr in H
    as (hs & ss & xs & ms' & bm2 & _ & _ & _ & Hms' & Hrange & Hfold
        & Hverts & Hfaces & _).
  rewrite Hms in Hms'. injection Hms' as <-.
  pose proof Hfold as Hf.
  apply foldM_transform_cap_inr in Hf as [(Hsame & _ & Hlen & _) _].
  repeat split.
  - rewrite Hfaces, Hsame. reflexivity.
  - rewrite Hverts, Hlen. cbn [extruded_mesh bm_verts].
    rewrite length_app, new_verts_of_length, flat_map_input_face. reflexivity.
  - exact Hrange.
  - intros v Hv. rewrite Hverts. eapply input_vertices_stay; eassumption.
Qed.

End Sizes.

(** X1. Whatever the modes and the mask are, the vertices of the input are
    the first vertices of the output, at the positions they had: the node
    only ever appends vertices, one for every vertex of the loop of every
    face handed to the extrusion. *)
Theorem X1_input_vertices_first {F : Type} {SF : Scalar F} {MK : MeshKernel F}
  (cfg : Config) (lk : Links) (it : @Item F) (res : @ItemResult F) (ms : list Z) :
  process_item cfg lk it = inr res ->
  fullList (masks it) (length (faces it)) = inr ms ->
  firstn (length (vertices it)) (new_vertices res) = vertices it
  /\ length (new_vertices res)
     = length (vertices it)
       + length (flat_map (fun i => nth i (faces it) [])
                   (selected_indices (mask_mode cfg) ms (length (faces it)))).
Proof.
  intros H Hms.
  destruct (final_mesh_shape cfg lk it res ms H Hms) as (_ & Hlen & _ & Hnth).
  split; [| exact Hlen].
  apply firstn_by_nth_error; [lia | exact Hnth].
Qed.

(** The hypotheses of X1 hold on the example mesh. *)
Lemma X1_input_vertices_first_witness :
  firstn 4 (new_vertices example_noextrude_result) = example_vertices
  /\ length (new_vertices example_noextrude_result) = 4 + 3.
Proof.
  assert (E : process_item (MK := reference_kernel) example_noextrude example_links
                example_item = inr example_noextrude_result) by runs.
  exact (@X1_input_vertices_first Q QScalar reference_kernel example_noextrude
           example_links example_item example_noextrude_result [1%Z; 0%Z]
           E eq_refl).
Defined.

(** X3. The output has as many more faces than the input as it has more
    vertices: a face of n vertices handed to the extrusion is replaced by
    its cap and n sides. *)
Theorem X3_face_count {F : Type} {SF : Scalar F} {MK : MeshKernel F}
  (cfg : Config) (lk : Links) (it : @Item F) (res : @ItemResult F) (ms : list Z) :
  process_item cfg lk it = inr res ->
  fullList (masks it) (length (faces it)) = inr ms ->
  length (new_faces res)
  = length (faces it)
    + length (flat_map (fun i => nth i (faces it) [])
                (selected_indices (mask_mode cfg) ms (length (faces it))))
  /\ length (new_faces res) + length (vertices it)
     = length (faces it) + length (new_vertices res).
Proof.
  intros H Hms.
  destruct (final_mesh_shape cfg lk it res ms H Hms) as (Hfaces & Hlen & _ & _).
  assert (G : length (new_faces res)
              = length (faces it)
                + length (flat_map (fun i => nth i (faces it) [])
                            (selected_indices (mask_mode cfg) ms (length (faces it))))).
  { rewrite Hfaces, length_map. cbn [extruded_mesh bm_faces].
    rewrite length_app, length_map, new_faces_of_length, length_map,
      flat_map_input_face.
    pose proof (untouched_selected_length (mask_mode cfg) ms (length (faces it))).
    lia. }
  split; [exact G | lia].
Qed.

(** The hypotheses of X3 hold on the example mesh. *)
Lemma X3_face_count_witness :
  length (new_faces example_noextrude_result) = 2 + 3
  /\ length (new_faces example_noextrude_result) + 4
     = 2 + length (new_vertices example_noextrude_result).
Proof.
  assert (E : process_item (MK := reference_kernel) example_noextrude example_links
                example_item = inr example_noextrude_result) by runs.
  exact (@X3_face_count Q QScalar reference_kernel example_noextrude
           example_links example_item example_noextrude_result [1%Z; 0%Z]
           E eq_refl).
Defined.

Lemma hd_In {A} (d : A) (l : list A) : l <> [] -> In (hd d l) l.
Proof.
  destruct l; [congruence | intros _; left; reflexivity].
Qed.

Lemma side_loops_In (old new : list nat) (o n : nat) (l : list nat) (v : nat) :
  In l (side_loops old new o n) -> In v l ->
  In v (o :: old) \/ In v (n :: new).
Proof.
  revert new. induction old as [| a old IH]; intros [| b new] Hl Hv;
    cbn [side_loops] in Hl; try contradiction.
  destruct Hl as [<- | Hl].
  - destruct Hv as [<- | [<- | [<- | [<- | []]]]].
    + left. destruct old; cbn; auto.
    + right. destruct new; cbn; auto.
    + right. cbn; auto.
    + left. cbn; auto.
  - destruct (IH new Hl Hv) as [[H | H] | [H | H]]; cbn; auto.
Qed.

(** Every new face is made of vertices of the mesh: old ones and the ones
    the extrusion has added so far. *)
Lemma new_faces_of_range (sel : list BMFace) :
  forall base next,
    (forall f, In f sel -> loop_in_range base f) ->
    forall f v, In f (new_faces_of base next sel) -> In v (face_verts f) ->
                v < base + length (flat_map face_verts sel).
Proof.
  induction sel as [| g sel IH]; intros base next Hsel f v Hf Hv; [contradiction |].
  cbn [new_faces_of flat_map] in *. rewrite length_app.
  assert (Hg : forall w, In w (face_verts g) -> w < base).
  { intros w Hw. specialize (Hsel g (or_introl eq_refl)).
    unfold loop_in_range in Hsel. rewrite Forall_forall in Hsel. auto. }
  destruct Hf as [<- | Hf]; [| apply in_app_or in Hf as [Hf | Hf]].
  - cbn in Hv. apply in_seq in Hv. lia.
  - unfold sides_of in Hf.
    assert (Hl : In (face_verts f)
                   (side_loops (face_verts g) (seq base (length (face_verts g)))
                      (hd 0 (face_verts g)) (hd 0 (seq base (length (face_verts g)))))).
    { rewrite <- (number_faces_verts (S next) (face_mask g)). apply in_map. exact Hf. }
    destruct (face_verts g) as [| a old] eqn:Eg; [contradiction |].
    destruct (side_loops_In _ _ _ _ _ _ Hl Hv) as [H | H].
    + assert (In v (a :: old)) by (cbn in H |- *; tauto).
      specialize (Hg v H0). lia.
    + assert (In v (seq base (length (a :: old)))) by (cbn in H |- *; tauto).
      apply in_seq in H0. lia.
  - assert (v < base + length (face_verts g) + length (flat_map face_verts sel));
      [| lia].
    apply (IH (base + length (face_verts g)) (S next + length (face_verts g)))
      with (f := f); try assumption.
    intros f' Hf'. specialize (Hsel f' (or_intror Hf')).
    unfold loop_in_range in *. eapply Forall_impl; [| exact Hsel].
    cbn. intros; lia.
Qed.

(** The faces a turn returns name vertices it returns. *)
Lemma turn_output_in_range {F : Type} {SF : Scalar F} {MK : MeshKernel F}
  (cfg : Config) (lk : Links) (it : @Item F) (res : @ItemResult F) :
  process_item cfg lk it = inr res ->
  Forall (Forall (fun i => i < length (new_vertices res))) (new_faces res)
  /\ exists bm, bmesh_from_pydata (new_vertices res) [] (new_faces res) = inr bm.
Proof.
  intros H.
  assert (Hms : exists ms, fullList (masks it) (length (faces it)) = inr ms).
  { apply process_item_inr in H as (hs & ss & xs & ms & _ & _ & _ & _ & Hms & _).
    eauto. }
  destruct Hms as [ms Hms].
  destruct (final_mesh_shape cfg lk it res ms H Hms) as (Hfaces & Hlen & Hrange & _).
  assert (G : Forall (Forall (fun i => i < length (new_vertices res))) (new_faces res)).
  { rewrite Hfaces, Hlen. cbn [extruded_mesh bm_faces].
    rewrite map_app. apply Forall_app. split.
    - rewrite map_map. apply Forall_forall. intros l Hl.
      apply in_map_iff in Hl as [i [<- Hi]]. cbn [input_face face_verts].
      apply filter_In in Hi as [Hi _]. apply in_seq in Hi.
      rewrite Forall_forall in Hrange.
      eapply Forall_impl; [| apply Hrange, nth_In; lia].
      cbn. intros; lia.
    - apply Forall_forall. intros l Hl. apply in_map_iff in Hl as [f [<- Hf]].
      apply Forall_forall. intros v Hv.
      rewrite <- flat_map_input_face with (ms := ms).
      eapply new_faces_of_range; [| exact Hf | exact Hv].
      intros g Hg. apply in_map_iff in Hg as [i [<- Hi]].
      apply selected_indices_lt in Hi. unfold loop_in_range. cbn [input_face face_verts].
      rewrite Forall_forall in Hrange. apply Hrange, nth_In. exact Hi. }
  split; [exact G |].
  unfold bmesh_from_pydata. cbn [forallb andb].
  replace (forallb _ (new_faces res)) with true; [eauto |].
  symmetry. apply forallb_forall. intros l Hl. apply forallb_forall. intros v Hv.
  apply Nat.ltb_lt. rewrite Forall_forall in G. specialize (G l Hl).
  rewrite Forall_forall in G. auto.
Qed.


(** X2. The output of a turn is a mesh again: every face of the output
    names vertices of the output only, so the lists can be fed back to the
    node, whose mesh builder accepts them. *)
Theorem X2_output_in_range {F : Type} {SF : Scalar F} {MK : MeshKernel F}
  (cfg : Config) (lk : Links) (it : @Item F) (res : @ItemResult F) :
  process_item cfg lk it = inr res ->
  Forall (Forall (fun i => i < length (new_vertices res))) (new_faces res)
  /\ exists bm, bmesh_from_pydata (new_vertices res) [] (new_faces res) = inr bm.
Proof.
  exact (turn_output_in_range cfg lk it res).
Qed.

(** The hypothesis of X2 holds on the example mesh. *)
Lemma X2_output_in_range_witness :
  Forall (Forall (fun i => i < length (new_vertices example_noextrude_result)))
    (new_faces example_noextrude_result)
  /\ exists bm, bmesh_from_pydata (new_vertices example_noextrude_result) []
                  (new_faces example_noextrude_result) = inr bm.
Proof.
  assert (E : process_item (MK := reference_kernel) example_noextrude example_links
                example_item = inr example_noextrude_result) by runs.
  exact (@X2_output_in_range Q QScalar reference_kernel example_noextrude
           example_links example_item example_noextrude_result E).
Defined.

(** ** A turn of the loop in closed form, and its exceptions *)

Lemma bind_inl {A B} (c : result A) (k : A -> result B) (e : exn) :
  bind c k = inl e -> c = inl e \/ exists a, c = inr a /\ k a = inl e.
Proof.
  destruct c as [e' | a]; simpl; intros H;
    [left; injection H as <-; reflexivity | right; eauto].
Qed.

Lemma fullList_inl {A} (l : list A) (count : nat) (e : exn) :
  fullList l count = inl e -> e = EmptyMaskError /\ l = [] /\ 0 < count.
Proof.
  unfold fullList. destruct (length l <? count) eqn:E; [| discriminate].
  apply Nat.ltb_lt in E.
  destruct (last_elem l) eqn:El; [discriminate |].
  intros H; injection H as <-. apply last_elem_none in El. subst l.
  repeat split. simpl in E. exact E.
Qed.

Lemma fullList_nil {A} (count : nat) :
  0 < count -> fullList (@nil A) count = inl EmptyMaskError.
Proof.
  intros H. unfold fullList. cbn [length last_elem].
  replace (0 <? count) with true by (symmetry; apply Nat.ltb_lt; exact H).
  reflexivity.
Qed.

Lemma fullList_nonempty {A} (l : list A) (count : nat) :
  l <> [] \/ count = 0 -> exists l', fullList l count = inr l'.
Proof.
  intros H. unfold fullList. destruct (length l <? count) eqn:E; [| eauto].
  apply Nat.ltb_lt in E.
  destruct (last_elem l) eqn:El; [eauto |].
  apply last_elem_none in El. destruct H as [H | H]; [contradiction | lia].
Qed.

Lemma last_elem_In {A} (l : list A) (a : A) : last_elem l = Some a -> In a l.
Proof.
  induction l as [| b l IH]; [discriminate |].
  destruct l as [| c l]; [intros H; injection H as <-; left; reflexivity |].
  intros H. right. apply IH. exact H.
Qed.

(** [fullList] adds no new element. *)
Lemma fullList_In {A} (l l' : list A) (count : nat) (x : A) :
  fullList l count = inr l' -> In x l' -> In x l.
Proof.
  unfold fullList. destruct (length l <? count).
  - destruct (last_elem l) as [a |] eqn:El; [| discriminate].
    intros H; injection H as <-. intros Hin.
    apply in_app_or in Hin as [Hin | Hin]; [exact Hin |].
    apply repeat_spec in Hin. subst x. apply last_elem_In. exact El.
  - intros H; injection H as <-. auto.
Qed.

Lemma foldM_inl {A S} (f : S -> A -> result S) (l : list A) :
  forall s e, foldM f l s = inl e -> exists s' a, In a l /\ f s' a = inl e.
Proof.
  induction l as [| a l IH]; intros s e H; [discriminate |].
  cbn [foldM] in H. apply bind_inl in H as [H | [s1 [_ H]]].
  - exists s, a. split; [left; reflexivity | exact H].
  - destruct (IH _ _ H) as (s' & b & Hb & Hf). exists s', b. split; [right |]; assumption.
Qed.

Section Turn.
Context {F : Type} {SF : Scalar F} {MK : MeshKernel F}.

Lemma bmesh_from_pydata_inl vs es ls (e : exn) :
  bmesh_from_pydata (F := F) vs es ls = inl e -> e = InvalidTopology.
Proof.
  unfold bmesh_from_pydata. destruct (_ && _)%bool; [discriminate |].
  intros H; injection H as <-. reflexivity.
Qed.

Lemma inverted_inl (m : Matrix F) (e : exn) : inverted m = inl e -> e = ValueError.
Proof.
  unfold inverted. destruct (feqb _ _); [| discriminate].
  intros H; injection H as <-. reflexivity.
Qed.

(** One turn of the inner loop fails in two ways only: the frame has no
    inverse, or, in NORMAL mode, the scale entry is of the wrong kind. *)
Lemma transform_cap_inl cfg lk st (d : @FaceData F) (e : exn) :
  transform_cap cfg lk st d = inl e ->
  (e = ValueError /\ exists normal center, local_space normal center = inl ValueError)
  \/ (e = TypeError /\ extrude_mode cfg = NORMAL
      /\ scale_vec (vector_in lk) (scale_of d) = inl TypeError).
Proof.
  destruct st as [bm acc]. destruct d as [[[face height] scale] matrix].
  unfold transform_cap. intros H.
  apply bind_inl in H as [H | [space [_ H]]].
  - left. pose proof (inverted_inl _ _ H). subst e. split; [reflexivity |].
    eexists _, _. exact H.
  - apply bind_inl in H as [H | [bm' [_ H]]]; [| discriminate].
    destruct (extrude_mode cfg) eqn:Em; [| discriminate].
    apply bind_inl in H as [H | [vec [_ H]]]; [| discriminate].
    right. cbn [scale_of].
    assert (e = TypeError).
    { unfold scale_vec in H. destruct (vector_in lk), scale; try discriminate;
        injection H as <-; reflexivity. }
    subst e. auto.
Qed.

(** Lines 195-259 once the lists are resolved and the mesh is built: the
    loop over [face_data] runs on the extruded mesh, and what follows it
    cannot fail. *)
Lemma process_item_closed cfg lk (it : @Item F) hs ss xs ms bm0 :
  fullList (heights it) (length (faces it)) = inr hs ->
  fullList (scales it) (length (faces it)) = inr ss ->
  fullList (matrixes it) (length (faces it)) = inr xs ->
  fullList (masks it) (length (faces it)) = inr ms ->
  bmesh_from_pydata (vertices it) (edges it) (faces it) = inr bm0 ->
  process_item cfg lk it
  = (st <- foldM (transform_cap cfg lk)
             (face_data (mask_mode cfg)
                (extruded_caps (mask_mode cfg) (vertices it) (faces it) ms)
                ms hs ss xs)
             (extruded_mesh (mask_mode cfg) (vertices it) (faces it) ms, []) ;;
     ret (turn_result cfg lk (faces it) ms st)).
Proof.
  intros Hhs Hss Hxs Hms Hbm. unfold process_item.
  rewrite Hhs, Hss, Hxs, Hms, Hbm. cbn [bind].
  apply bmesh_from_pydata_inr in Hbm as [-> Hrange].
  pose proof (fullList_inr _ _ _ Hms) as [Hlen _].
  rewrite (extrude_closed_form (mask_mode cfg) (vertices it) (faces it) ms Hlen Hrange).
  destruct (foldM _ _ _) as [e | [bm2 acc]] eqn:Hfold; [reflexivity |].
  cbn [bind pydata_from_bmesh].
  apply foldM_transform_cap_inr in Hfold as [(Hsame & _) _].
  unfold turn_result. cbn [fst snd].
  destruct (need_mask_out lk); [| reflexivity].
  rewrite (get_out_mask_closed cfg (mask_mode cfg) (vertices it) (faces it) ms bm2
             eq_refl Hsame).
  reflexivity.
Qed.

(** The exceptions of a turn, each with its cause. *)
Lemma process_item_inl cfg lk (it : @Item F) (e : exn) :
  process_item cfg lk it = inl e ->
  (e = EmptyMaskError /\ faces it <> []
   /\ (heights it = [] \/ scales it = [] \/ matrixes it = [] \/ masks it = []))
  \/ (e = InvalidTopology
      /\ forall bm, bmesh_from_pydata (vertices it) (edges it) (faces it) <> inr bm)
  \/ (e = ValueError /\ exists normal center, local_space normal center = inl ValueError)
  \/ (e = TypeError /\ extrude_mode cfg = NORMAL
      /\ exists s, In s (scales it) /\ scale_vec (vector_in lk) s = inl TypeError).
Proof.
  intros H.
  assert (Hne : forall A (l : list A) e', fullList l (length (faces it)) = inl e' ->
                  e' = EmptyMaskError /\ l = [] /\ faces it <> []).
  { intros A l e' Hl. apply fullList_inl in Hl as (-> & -> & Hn).
    repeat split. intros E. rewrite E in Hn. simpl in Hn. lia. }
  destruct (fullList (heights it) (length (faces it))) as [e1 | hs] eqn:Hhs.
  { unfold process_item in H. rewrite Hhs in H. cbn in H. injection H as <-.
    apply Hne in Hhs as (-> & Hl & Hf). left. tauto. }
  destruct (fullList (scales it) (length (faces it))) as [e1 | ss] eqn:Hss.
  { unfold process_item in H. rewrite Hhs, Hss in H. cbn in H. injection H as <-.
    apply Hne in Hss as (-> & Hl & Hf). left. tauto. }
  destruct (fullList (matrixes it) (length (faces it))) as [e1 | xs] eqn:Hxs.
  { unfold process_item in H. rewrite Hhs, Hss, Hxs in H. cbn in H. injection H as <-.
    apply Hne in Hxs as (-> & Hl & Hf). left. tauto. }
  destruct (fullList (masks it) (length (faces it))) as [e1 | ms] eqn:Hms.
  { unfold process_item in H. rewrite Hhs, Hss, Hxs, Hms in H. cbn in H.
    injection H as <-. apply Hne in Hms as (-> & Hl & Hf). left. tauto. }
  destruct (bmesh_from_pydata (vertices it) (edges it) (faces it)) as [e1 | bm0] eqn:Hbm.
  { unfold process_item in H. rewrite Hhs, Hss, Hxs, Hms, Hbm in H. cbn in H.
    injection H as <-. right. left.
    split; [eapply bmesh_from_pydata_inl; exact Hbm |]. intros bm; discriminate. }
  rewrite (process_item_closed cfg lk it hs ss xs ms bm0 Hhs Hss Hxs Hms Hbm) in H.
  apply bind_inl in H as [H | [st [_ H]]]; [| discriminate].
  apply foldM_inl in H as (st & d & Hd & H).
  apply transform_cap_inl in H as [(-> & Hv) | (-> & Hmode & Hs)]; [tauto |].
  right. right. right. repeat split; try assumption.
  exists (scale_of d). split; [| exact Hs].
  assert (Hin : In (scale_of d) ss).
  { destruct (mask_mode cfg); cbn [face_data] in Hd.
    - destruct d as [[[face h] s] x]. cbn [scale_of].
      apply in_combine_l in Hd. apply in_combine_r in Hd. exact Hd.
    - apply in_map_iff in Hd as [[[[[face m] h] s] x] [<- Hd]].
      apply filter_In in Hd as [Hd _]. cbn [scale_of].
      apply in_combine_l in Hd. apply in_combine_r in Hd. exact Hd. }
  eapply fullList_In; eassumption.
Qed.

End Turn.

(** X4. The lookup in [MASK_MEANING] never fails inside a turn: whatever
    the mesh, the mask and the modes are, [process_item] does not raise
    [KeyError], because every face carries one of the three tags when the
    output mask is computed. *)
Theorem X4_no_KeyError {F : Type} {SF : Scalar F} {MK : MeshKernel F}
  (cfg : Config) (lk : Links) (it : @Item F) :
  process_item cfg lk it <> inl KeyError.
Proof.
  intros H. apply process_item_inl in H
    as [(H & _) | [(H & _) | [(H & _) | (H & _)]]]; discriminate.
Qed.

(** X5. A turn raises the error of an empty list exactly when the mesh has
    a face and one of the four per-face lists (heights, scales, matrices,
    mask) is empty; with no face at all, empty lists are accepted. *)
Theorem X5_empty_list_error {F : Type} {SF : Scalar F} {MK : MeshKernel F}
  (cfg : Config) (lk : Links) (it : @Item F) :
  process_item cfg lk it = inl EmptyMaskError
  <-> faces it <> []
      /\ (heights it = [] \/ scales it = [] \/ matrixes it = [] \/ masks it = []).
Proof.
  split.
  - intros H. apply process_item_inl in H
      as [(_ & H) | [(H & _) | [(H & _) | (H & _)]]]; try discriminate. exact H.
  - intros [Hf He].
    assert (Hn : 0 < length (faces it)) by (destruct (faces it); [congruence | simpl; lia]).
    unfold process_item.
    destruct (heights it) as [| h hs0] eqn:Eh.
    { rewrite (fullList_nil _ Hn). reflexivity. }
    destruct (fullList_nonempty (h :: hs0) (length (faces it))) as [hs ->];
      [left; discriminate |].
    destruct (scales it) as [| s ss0] eqn:Es.
    { rewrite (fullList_nil _ Hn). reflexivity. }
    destruct (fullList_nonempty (s :: ss0) (length (faces it))) as [ss ->];
      [left; discriminate |].
    destruct (matrixes it) as [| x xs0] eqn:Ex.
    { rewrite (fullList_nil _ Hn). reflexivity. }
    destruct (fullList_nonempty (x :: xs0) (length (faces it))) as [xs ->];
      [left; discriminate |].
    destruct (masks it) as [| m ms0] eqn:Em.
    { rewrite (fullList_nil _ Hn). reflexivity. }
    destruct He as [He | [He | [He | He]]]; discriminate.
Qed.

(** X6. Over the reals the frame of a cap always has an inverse, so line
    234 never raises: a turn returns a result whenever the per-face lists
    are not empty (or there is no face), the mesh builder accepts the mesh,
    and, in NORMAL mode, every scale entry is of the kind the Scale socket
    announces. *)
Theorem X6_turn_returns {MK : MeshKernel R}
  (cfg : Config) (lk : Links) (it : @Item R) :
  (faces it = []
   \/ (heights it <> [] /\ scales it <> [] /\ matrixes it <> [] /\ masks it <> [])) ->
  (exists bm, bmesh_from_pydata (vertices it) (edges it) (faces it) = inr bm) ->
  (extrude_mode cfg = MATRIX
   \/ forall s, In s (scales it) -> exists vec, scale_vec (vector_in lk) s = inr vec) ->
  exists res, process_item cfg lk it = inr res.
Proof.
  intros Hlists [bm Hbm] Hscale.
  destruct (process_item cfg lk it) as [e | res] eqn:H; [| eauto].
  exfalso. apply process_item_inl in H
    as [(_ & Hf & He) | [(_ & H) | [(_ & (n & c & H)) | (_ & Hm & (s & Hs & H))]]].
  - destruct Hlists as [Hl | (H1 & H2 & H3 & H4)]; [contradiction |].
    destruct He as [He | [He | [He | He]]]; contradiction.
  - apply (H bm). exact Hbm.
  - destruct (local_space_R n c) as (space & E & _). congruence.
  - destruct Hscale as [Hx | Hx]; [congruence |].
    destruct (Hx s Hs) as [vec Hv]. congruence.
Qed.

(** The hypotheses of X6 hold for a triangle over the reals. *)
Lemma X6_turn_returns_witness :
  exists res, process_item (MK := reference_kernel) example_noextrude example_links
                real_triangle = inr res.
Proof.
  apply (@X6_turn_returns reference_kernel example_noextrude example_links
           real_triangle).
  - right. cbn. repeat split; discriminate.
  - eexists. cbv -[IZR]. reflexivity.
  - right. cbn. intros s [<- | []]. eexists. reflexivity.
Defined.

(** ** [get_out_mask] on any mesh *)

Lemma mapM_inl {A B} (f : A -> result B) (l : list A) (e : exn) :
  mapM f l = inl e -> exists a, In a l /\ f a = inl e.
Proof.
  induction l as [| a l IH]; [discriminate |].
  cbn [mapM]. intros H. apply bind_inl in H as [H | [b [_ H]]].
  - exists a. split; [left; reflexivity | exact H].
  - apply bind_inl in H as [H | [bs [_ H]]]; [| discriminate].
    destruct (IH H) as [a' [Ha' Hf]]. exists a'. split; [right |]; assumption.
Qed.

Lemma MASK_MEANING_inr (k : Z) (name : string) :
  MASK_MEANING k = inr name -> (k = MASK \/ k = OUT \/ k = IN) /\ name = tag_name k.
Proof.
  unfold tag_name. intros H. rewrite H. split; [| reflexivity].
  unfold MASK_MEANING in H.
  destruct (k =? MASK)%Z eqn:E0; [apply Z.eqb_eq in E0; tauto |].
  destruct (k =? OUT)%Z eqn:E1; [apply Z.eqb_eq in E1; tauto |].
  destruct (k =? IN)%Z eqn:E2; [apply Z.eqb_eq in E2; tauto | discriminate].
Qed.

Lemma MASK_MEANING_inl (k : Z) (e : exn) :
  MASK_MEANING k = inl e -> e = KeyError /\ k <> MASK /\ k <> OUT /\ k <> IN.
Proof.
  unfold MASK_MEANING.
  destruct (k =? MASK)%Z eqn:E0; [discriminate |].
  destruct (k =? OUT)%Z eqn:E1; [discriminate |].
  destruct (k =? IN)%Z eqn:E2; [discriminate |].
  intros H; injection H as <-.
  apply Z.eqb_neq in E0, E1, E2. auto.
Qed.

Section OutMaskAnyMesh.
Context {F : Type} {SF : Scalar F}.

Lemma tagged_final_tag (ids : list nat) (face : BMFace) :
  face_mask (if mem_nat (face_id face) ids then set_mask IN face else face)
  = final_tag ids face.
Proof.
  unfold final_tag. destruct (mem_nat _ _); reflexivity.
Qed.

(** When [get_out_mask] returns, it returns one entry per face of the
    mesh, computed from the tag of the face. *)
Lemma get_out_mask_inr cfg (bm : BMesh F) ex m :
  get_out_mask cfg bm ex = inr m ->
  m = map (fun face =>
             Z.b2z (mem_string (tag_name (final_tag (map face_id ex) face))
                      (mask_out_type cfg)))
        (bm_faces bm)
  /\ forall face, In face (bm_faces bm) ->
       final_tag (map face_id ex) face = MASK
       \/ final_tag (map face_id ex) face = OUT
       \/ final_tag (map face_id ex) face = IN.
Proof.
  unfold get_out_mask. intros H. apply mapM_Forall2 in H.
  assert (G : forall (l : list BMFace) m,
            Forall2 (fun a r =>
                       (name <- MASK_MEANING (face_mask a) ;;
                        ret (Z.b2z (mem_string name (mask_out_type cfg)))) = inr r)
              (map (fun face => if mem_nat (face_id face) (map face_id ex)
                                then set_mask IN face else face) l) m ->
            m = map (fun face =>
                       Z.b2z (mem_string (tag_name (final_tag (map face_id ex) face))
                                (mask_out_type cfg))) l
            /\ forall face, In face l ->
                 final_tag (map face_id ex) face = MASK
                 \/ final_tag (map face_id ex) face = OUT
                 \/ final_tag (map face_id ex) face = IN).
  { clear. induction l as [| a l IH]; intros m H; inversion H; subst.
    - split; [reflexivity | intros face []].
    - match goal with K : bind _ _ = inr _ |- _ => bind_inv K; injection K as <- end.
      rewrite tagged_final_tag in Ha.
      apply MASK_MEANING_inr in Ha as [Hr ->].
      match goal with K : Forall2 _ _ _ |- _ => apply IH in K as [-> Hall] end.
      split; [reflexivity |].
      intros face [<- | Hin]; [exact Hr | apply Hall; exact Hin]. }
  apply G. exact H.
Qed.

End OutMaskAnyMesh.

(** X7. [get_out_mask] returns a mask exactly when every face that is not
    one of the extruded faces carries one of the three tags in its layer;
    a face with any other value makes the lookup in [MASK_MEANING] raise
    [KeyError], and no other exception is possible.  The mask it returns
    has one entry per face of the mesh. *)
Theorem X7_get_out_mask_KeyError {F : Type} {SF : Scalar F}
  (cfg : Config) (bm : BMesh F) (extruded_faces : list BMFace) :
  ((exists m, get_out_mask cfg bm extruded_faces = inr m)
   <-> forall face, In face (bm_faces bm) ->
         mem_nat (face_id face) (map face_id extruded_faces) = true
         \/ face_mask face = MASK \/ face_mask face = OUT \/ face_mask face = IN)
  /\ (forall e, get_out_mask cfg bm extruded_faces = inl e -> e = KeyError)
  /\ (forall m, get_out_mask cfg bm extruded_faces = inr m ->
        length m = length (bm_faces bm)).
Proof.
  repeat split.
  - intros [m H] face Hin. apply get_out_mask_inr in H as [_ H].
    specialize (H face Hin). unfold final_tag in H.
    destruct (mem_nat _ _); [left; reflexivity | right; exact H].
  - intros H. unfold get_out_mask. eexists.
    apply (mapM_inr_map _ (fun face =>
             Z.b2z (mem_string (tag_name (face_mask face)) (mask_out_type cfg)))).
    intros face' Hin. apply in_map_iff in Hin as [face [<- Hin]].
    rewrite tagged_final_tag. rewrite MASK_MEANING_tag; [reflexivity |].
    unfold final_tag. destruct (H face Hin) as [Hc | Ht].
    + rewrite Hc. unfold IN, OUT, MASK. auto.
    + destruct (mem_nat _ _); [unfold IN, OUT, MASK; auto | exact Ht].
  - intros e H. unfold get_out_mask in H.
    apply mapM_inl in H as [face [_ H]].
    apply bind_inl in H as [H | [name [_ H]]]; [| discriminate].
    apply MASK_MEANING_inl in H. tauto.
  - intros m H. apply get_out_mask_inr in H as [-> _]. apply length_map.
Qed.

(** A face tagged [IN] through the list of extruded faces is accepted
    whatever its layer held before. *)
Lemma X7_get_out_mask_KeyError_witness :
  exists m,
    get_out_mask (F := Q) example_noextrude
      (mkMesh [] [mkFace 0 [0; 1; 2] 7%Z; mkFace 1 [0; 2; 3] 1%Z] 2)
      [mkFace 0 [0; 1; 2] 7%Z] = inr m.
Proof.
  apply (proj2 (proj1 (@X7_get_out_mask_KeyError Q QScalar example_noextrude
                         (mkMesh [] [mkFace 0 [0; 1; 2] 7%Z; mkFace 1 [0; 2; 3] 1%Z] 2)
                         [mkFace 0 [0; 1; 2] 7%Z]))).
  intros face [<- | [<- | []]]; cbn; auto.
Defined.

(** X8. The three tags partition the faces: on any mesh, the masks that
    [get_out_mask] returns for the output types 'mask', 'out' and 'in'
    taken one at a time have the same length and add up to 1 on every
    face, so every face is selected by exactly one of them. *)
Theorem X8_tags_partition {F : Type} {SF : Scalar F}
  (cfg : Config) (bm : BMesh F) (extruded_faces : list BMFace)
  (m_mask m_out m_in : list Z) :
  get_out_mask (config_with_types cfg ["mask"%string]) bm extruded_faces = inr m_mask ->
  get_out_mask (config_with_types cfg ["out"%string]) bm extruded_faces = inr m_out ->
  get_out_mask (config_with_types cfg ["in"%string]) bm extruded_faces = inr m_in ->
  length m_mask = length (bm_faces bm)
  /\ length m_out = length (bm_faces bm)
  /\ length m_in = length (bm_faces bm)
  /\ forall j, j < length (bm_faces bm) ->
       (nth j m_mask 0 + nth j m_out 0 + nth j m_in 0 = 1)%Z.
Proof.
  intros Hm Ho Hi.
  apply get_out_mask_inr in Hm as [-> Hvalid].
  apply get_out_mask_inr in Ho as [-> _].
  apply get_out_mask_inr in Hi as [-> _].
  rewrite !length_map. repeat split.
  intros j Hj. cbn [config_with_types mask_out_type].
  set (d := mkFace 0 [] MASK).
  rewrite !(nth_indep (map _ (bm_faces bm)) 0%Z
              (Z.b2z false)) by (rewrite length_map; exact Hj).
  assert (E : forall types,
            nth j (map (fun face =>
                          Z.b2z (mem_string
                                   (tag_name (final_tag (map face_id extruded_faces) face))
                                   types)) (bm_faces bm)) (Z.b2z false)
            = Z.b2z (mem_string
                       (tag_name (final_tag (map face_id extruded_faces)
                                    (nth j (bm_faces bm) d))) types)).
  { intros types.
    rewrite (nth_indep _ (Z.b2z false)
               (Z.b2z (mem_string
                         (tag_name (final_tag (map face_id extruded_faces) d)) types)))
      by (rewrite length_map; exact Hj).
    apply (map_nth (fun face =>
             Z.b2z (mem_string (tag_name (final_tag (map face_id extruded_faces) face))
                      types))). }
  rewrite !E.
  destruct (Hvalid (nth j (bm_faces bm) d) (nth_In _ _ Hj)) as [-> | [-> | ->]];
    reflexivity.
Qed.

(** The hypotheses of X8 hold on a mesh of two faces, one of them extruded. *)
Lemma X8_tags_partition_witness :
  length [0; 1]%Z = 2
  /\ length [0; 0]%Z = 2
  /\ length [1; 0]%Z = 2
  /\ forall j, j < 2 ->
       (nth j [0; 1] 0 + nth j [0; 0] 0 + nth j [1; 0] 0 = 1)%Z.
Proof.
  apply (@X8_tags_partition Q QScalar example_noextrude
           (mkMesh [] [mkFace 0 [0; 1; 2] 1%Z; mkFace 1 [0; 2; 3] 0%Z] 2)
           [mkFace 0 [0; 1; 2] 1%Z] [0; 1]%Z [0; 0]%Z [1; 0]%Z);
    reflexivity.
Defined.

(** ** Modes and inputs that make no difference *)

Lemma truthy_indices_all (ms : list Z) (n m : nat) :
  (forall i, i < n -> truthy (nth i ms 0%Z) = true) -> m <= n ->
  truthy_indices ms m = seq 0 m.
Proof.
  intros H Hm. unfold truthy_indices. apply filter_all.
  intros i Hi. apply in_seq in Hi. apply H. lia.
Qed.

Lemma filter_none {A} (p : A -> bool) (l : list A) :
  (forall a, In a l -> p a = false) -> filter p l = [].
Proof.
  induction l as [| a l IH]; intros H; [reflexivity |].
  cbn [filter]. rewrite (H a (or_introl eq_refl)).
  apply IH. intros; apply H; right; assumption.
Qed.

Lemma truthy_indices_none (ms : list Z) (n : nat) :
  (forall i, i < n -> truthy (nth i ms 0%Z) = false) ->
  truthy_indices ms n = [].
Proof.
  intros H. unfold truthy_indices. apply filter_none.
  intros i Hi. apply in_seq in Hi. apply H. lia.
Qed.

Lemma foldM_map_ext {A B S} (f : S -> B -> result S) (g1 g2 : A -> B) (l : list A) :
  (forall a s, In a l -> f s (g1 a) = f s (g2 a)) ->
  forall s, foldM f (map g1 l) s = foldM f (map g2 l) s.
Proof.
  induction l as [| a l IH]; intros H s; [reflexivity |].
  cbn [map foldM]. rewrite (H a s (or_introl eq_refl)).
  destruct (f s (g2 a)) as [e | s']; [reflexivity |]. cbn [bind].
  apply IH. intros; apply H; right; assumption.
Qed.

Section SameResult.
Context {F : Type} {SF : Scalar F} {MK : MeshKernel F}.

Lemma extruded_caps_length mode (vs : list (Vector F)) ls ms :
  length (extruded_caps mode vs ls ms) <= length ls.
Proof.
  unfold extruded_caps. rewrite caps_of_length, length_map.
  pose proof (untouched_selected_length mode ms (length ls)). lia.
Qed.

(** The list the inner loop runs over, through indices, in either mode. *)
Lemma face_data_closed mode es ms (hs : list F) ss xs :
  length es <= length ms -> length es <= length hs ->
  length es <= length ss -> length es <= length xs ->
  face_data mode es ms hs ss xs
  = map (entry es hs ss xs)
      (match mode with
       | NOEXTRUDE => seq 0 (length es)
       | NOTRANSFORM => truthy_indices ms (length es)
       end).
Proof.
  intros. destruct mode.
  - apply face_data_NOEXTRUDE; assumption.
  - apply face_data_NOTRANSFORM; assumption.
Qed.

(** Two parameter triples that make every turn of the inner loop do the
    same thing give the same result. *)
Lemma process_item_same_steps cfg lk (it : @Item F) hs ss xs hs2 ss2 xs2 hs' ss' xs' :
  let n := length (faces it) in
  fullList (heights it) n = inr hs -> fullList (scales it) n = inr ss ->
  fullList (matrixes it) n = inr xs ->
  fullList hs2 n = inr hs' -> fullList ss2 n = inr ss' -> fullList xs2 n = inr xs' ->
  (forall es j st, transform_cap cfg lk st (entry es hs ss xs j)
                   = transform_cap cfg lk st (entry es hs' ss' xs' j)) ->
  process_item cfg lk it = process_item cfg lk (with_parameters it hs2 ss2 xs2).
Proof.
  intros n Hhs Hss Hxs Hhs' Hss' Hxs' Hstep.
  destruct (fullList (masks it) n) as [e | ms] eqn:Hms.
  { unfold process_item. cbn [with_parameters heights scales matrixes masks faces].
    fold n. rewrite Hhs, Hss, Hxs, Hhs', Hss', Hxs', Hms. reflexivity. }
  destruct (bmesh_from_pydata (vertices it) (edges it) (faces it)) as [e | bm0] eqn:Hbm.
  { unfold process_item.
    cbn [with_parameters heights scales matrixes masks faces vertices edges].
    fold n. rewrite Hhs, Hss, Hxs, Hhs', Hss', Hxs', Hms, Hbm. reflexivity. }
  rewrite (process_item_closed cfg lk it hs ss xs ms bm0 Hhs Hss Hxs Hms Hbm).
  rewrite (process_item_closed cfg lk (with_parameters it hs2 ss2 xs2) hs' ss' xs' ms bm0
             Hhs' Hss' Hxs' Hms Hbm).
  cbn [with_parameters vertices faces].
  pose proof (extruded_caps_length (mask_mode cfg) (vertices it) (faces it) ms) as Hc.
  pose proof (fullList_inr _ _ _ Hms) as [Lm _].
  pose proof (fullList_inr _ _ _ Hhs) as [Lh _].
  pose proof (fullList_inr _ _ _ Hss) as [Ls _].
  pose proof (fullList_inr _ _ _ Hxs) as [Lx _].
  pose proof (fullList_inr _ _ _ Hhs') as [Lh' _].
  pose proof (fullList_inr _ _ _ Hss') as [Ls' _].
  pose proof (fullList_inr _ _ _ Hxs') as [Lx' _].
  fold n in Hc.
  rewrite !face_data_closed by lia.
  rewrite (foldM_map_ext (transform_cap cfg lk) _
             (entry (extruded_caps (mask_mode cfg) (vertices it) (faces it) ms)
                hs' ss' xs')); [reflexivity |].
  intros j st _. apply Hstep.
Qed.

Lemma transform_cap_MATRIX cfg lk st face h s h' s' (x : Matrix F) :
  extrude_mode cfg = MATRIX ->
  transform_cap cfg lk st (face, h, s, x) = transform_cap cfg lk st (face, h', s', x).
Proof.
  intros Hmode. destruct st as [bm acc]. unfold transform_cap. rewrite Hmode.
  reflexivity.
Qed.

Lemma transform_cap_NORMAL cfg lk st face (h : F) s (x x' : Matrix F) :
  extrude_mode cfg = NORMAL ->
  transform_cap cfg lk st (face, h, s, x) = transform_cap cfg lk st (face, h, s, x').
Proof.
  intros Hmode. destruct st as [bm acc]. unfold transform_cap. rewrite Hmode.
  reflexivity.
Qed.

(** With every resolved mask entry truthy the two mask modes select the
    same faces and visit the same caps. *)
Lemma all_truthy_same_mode (ls : list (list nat)) (ms : list Z) :
  (forall i, i < length ls -> truthy (nth i ms 0%Z) = true) ->
  selected_indices NOEXTRUDE ms (length ls) = selected_indices NOTRANSFORM ms (length ls).
Proof.
  intros H. cbn [selected_indices]. apply (truthy_indices_all ms (length ls)); auto.
Qed.

End SameResult.

(** X9. When every resolved mask entry is truthy, as with the Mask input
    left unconnected, the two mask modes give the same result, exceptions
    included: there is no masked face for them to treat differently. *)
Theorem X9_modes_agree {F : Type} {SF : Scalar F} {MK : MeshKernel F}
  (em : ExtrudeMode) (types : list string) (lk : Links) (it : @Item F) (ms : list Z) :
  fullList (masks it) (length (faces it)) = inr ms ->
  (forall i, i < length (faces it) -> truthy (nth i ms 0%Z) = true) ->
  process_item (mkConfig em NOEXTRUDE types) lk it
  = process_item (mkConfig em NOTRANSFORM types) lk it.
Proof.
  intros Hms Hall.
  destruct (fullList (heights it) (length (faces it))) as [e | hs] eqn:Hhs.
  { unfold process_item. rewrite Hhs. reflexivity. }
  destruct (fullList (scales it) (length (faces it))) as [e | ss] eqn:Hss.
  { unfold process_item. rewrite Hhs, Hss. reflexivity. }
  destruct (fullList (matrixes it) (length (faces it))) as [e | xs] eqn:Hxs.
  { unfold process_item. rewrite Hhs, Hss, Hxs. reflexivity. }
  destruct (bmesh_from_pydata (vertices it) (edges it) (faces it)) as [e | bm0] eqn:Hbm.
  { unfold process_item. rewrite Hhs, Hss, Hxs, Hms, Hbm. reflexivity. }
  rewrite (process_item_closed _ lk it hs ss xs ms bm0 Hhs Hss Hxs Hms Hbm).
  rewrite (process_item_closed _ lk it hs ss xs ms bm0 Hhs Hss Hxs Hms Hbm).
  cbn [mask_mode].
  pose proof (all_truthy_same_mode (faces it) ms Hall) as Hsel.
  assert (Hcaps : extruded_caps NOEXTRUDE (vertices it) (faces it) ms
                  = extruded_caps NOTRANSFORM (vertices it) (faces it) ms).
  { unfold extruded_caps. rewrite Hsel. reflexivity. }
  assert (Hmesh : extruded_mesh NOEXTRUDE (vertices it) (faces it) ms
                  = extruded_mesh NOTRANSFORM (vertices it) (faces it) ms).
  { unfold extruded_mesh, untouched_indices. rewrite Hsel. reflexivity. }
  assert (Hmask : spec_mask (mkConfig em NOEXTRUDE types) (faces it) ms
                  = spec_mask (mkConfig em NOTRANSFORM types) (faces it) ms).
  { unfold spec_mask, final_face_kinds, untouched_indices. cbn [mask_mode mask_out_type].
    rewrite Hsel. reflexivity. }
  pose proof (extruded_caps_length NOTRANSFORM (vertices it) (faces it) ms) as Hc.
  pose proof (fullList_inr _ _ _ Hms) as [Lm _].
  pose proof (fullList_inr _ _ _ Hhs) as [Lh _].
  pose proof (fullList_inr _ _ _ Hss) as [Ls _].
  pose proof (fullList_inr _ _ _ Hxs) as [Lx _].
  rewrite Hcaps, Hmesh. rewrite !face_data_closed by lia.
  rewrite (truthy_indices_all ms (length (faces it))) by (auto || lia).
  unfold turn_result. rewrite Hmask. reflexivity.
Qed.

(** The hypotheses of X9 hold on the square with the mask [1]. *)
Lemma X9_modes_agree_witness :
  process_item (MK := reference_kernel) (mkConfig NORMAL NOEXTRUDE ["out"%string])
    example_links
    (mkItem unit_square [] [[0; 1; 2; 3]] [1%Z] [1%Q] [ScaleFloat 1%Q] [identity])
  = process_item (MK := reference_kernel) (mkConfig NORMAL NOTRANSFORM ["out"%string])
      example_links
      (mkItem unit_square [] [[0; 1; 2; 3]] [1%Z] [1%Q] [ScaleFloat 1%Q] [identity]).
Proof.
  apply (@X9_modes_agree Q QScalar reference_kernel NORMAL ["out"%string] example_links
           (mkItem unit_square [] [[0; 1; 2; 3]] [1%Z] [1%Q] [ScaleFloat 1%Q] [identity])
           [1%Z] eq_refl).
  cbn. intros [| i] Hi; [reflexivity | lia].
Defined.

(** X11. In MATRIX mode the Height and Scale inputs play no part: replacing
    them by any other lists that are not empty gives the same result, the
    same exception included. *)
Theorem X11_matrix_mode_ignores_height_scale
  {F : Type} {SF : Scalar F} {MK : MeshKernel F}
  (cfg : Config) (lk : Links) (it : @Item F)
  (hs2 : list F) (ss2 : list (ScaleValue F)) :
  extrude_mode cfg = MATRIX ->
  heights it <> [] -> scales it <> [] -> hs2 <> [] -> ss2 <> [] ->
  process_item cfg lk it
  = process_item cfg lk (with_parameters it hs2 ss2 (matrixes it)).
Proof.
  intros Hmode H1 H2 H3 H4.
  destruct (fullList_nonempty (heights it) (length (faces it)) (or_introl H1)) as [hs Hhs].
  destruct (fullList_nonempty (scales it) (length (faces it)) (or_introl H2)) as [ss Hss].
  destruct (fullList_nonempty hs2 (length (faces it)) (or_introl H3)) as [hs' Hhs'].
  destruct (fullList_nonempty ss2 (length (faces it)) (or_introl H4)) as [ss' Hss'].
  destruct (fullList (matrixes it) (length (faces it))) as [e | xs] eqn:Hxs.
  { unfold process_item. cbn [with_parameters heights scales matrixes faces].
    rewrite Hhs, Hss, Hhs', Hss', Hxs. reflexivity. }
  apply (process_item_same_steps cfg lk it hs ss xs hs2 ss2 (matrixes it) hs' ss' xs);
    try assumption.
  intros es j st. unfold entry. apply transform_cap_MATRIX. exact Hmode.
Qed.

(** The hypotheses of X11 hold on the square in MATRIX mode. *)
Lemma X11_matrix_mode_ignores_height_scale_witness :
  process_item (MK := reference_kernel) (mkConfig MATRIX NOEXTRUDE ["in"%string])
    example_links
    (mkItem unit_square [] [[0; 1; 2; 3]] [1%Z] [0%Q] [ScaleFloat 1%Q]
       [scale_matrix (mkVector 2%Q 2%Q 2%Q)])
  = process_item (MK := reference_kernel) (mkConfig MATRIX NOEXTRUDE ["in"%string])
      example_links
      (mkItem unit_square [] [[0; 1; 2; 3]] [1%Z] [5%Q; 7%Q]
         [ScaleVector (mkVector 3%Q 3%Q 3%Q)]
         [scale_matrix (mkVector 2%Q 2%Q 2%Q)]).
Proof.
  apply (@X11_matrix_mode_ignores_height_scale Q QScalar reference_kernel
           (mkConfig MATRIX NOEXTRUDE ["in"%string]) example_links
           (mkItem unit_square [] [[0; 1; 2; 3]] [1%Z] [0%Q] [ScaleFloat 1%Q]
              [scale_matrix (mkVector 2%Q 2%Q 2%Q)])
           [5%Q; 7%Q] [ScaleVector (mkVector 3%Q 3%Q 3%Q)]);
    (reflexivity || discriminate).
Defined.

(** X12. In NORMAL mode the Matrix input plays no part: replacing it by any
    other list that is not empty gives the same result, the same exception
    included. *)
Theorem X12_normal_mode_ignores_matrix
  {F : Type} {SF : Scalar F} {MK : MeshKernel F}
  (cfg : Config) (lk : Links) (it : @Item F) (xs2 : list (Matrix F)) :
  extrude_mode cfg = NORMAL ->
  matrixes it <> [] -> xs2 <> [] ->
  process_item cfg lk it
  = process_item cfg lk (with_parameters it (heights it) (scales it) xs2).
Proof.
  intros Hmode H1 H2.
  destruct (fullList_nonempty (matrixes it) (length (faces it)) (or_introl H1)) as [xs Hxs].
  destruct (fullList_nonempty xs2 (length (faces it)) (or_introl H2)) as [xs' Hxs'].
  destruct (fullList (heights it) (length (faces it))) as [e | hs] eqn:Hhs.
  { unfold process_item. cbn [with_parameters heights scales matrixes faces].
    rewrite Hhs. reflexivity. }
  destruct (fullList (scales it) (length (faces it))) as [e | ss] eqn:Hss.
  { unfold process_item. cbn [with_parameters heights scales matrixes faces].
    rewrite Hhs, Hss. reflexivity. }
  apply (process_item_same_steps cfg lk it hs ss xs (heights it) (scales it) xs2 hs ss xs');
    try assumption.
  intros es j st. unfold entry. apply transform_cap_NORMAL. exact Hmode.
Qed.

(** The hypotheses of X12 hold on the example mesh. *)
Lemma X12_normal_mode_ignores_matrix_witness :
  process_item (MK := reference_kernel) example_noextrude example_links example_item
  = process_item (MK := reference_kernel) example_noextrude example_links
      (with_parameters example_item (heights example_item) (scales example_item)
         [scale_matrix (mkVector 2%Q 2%Q 2%Q)]).
Proof.
  apply (@X12_normal_mode_ignores_matrix Q QScalar reference_kernel example_noextrude
           example_links example_item [scale_matrix (mkVector 2%Q 2%Q 2%Q)]);
    (reflexivity || discriminate).
Defined.

Lemma map_seq_const {A} (g : nat -> A) (a : A) (n : nat) :
  (forall i, i < n -> g i = a) -> map g (seq 0 n) = repeat a n.
Proof.
  intros H. apply nth_ext with (d := g 0) (d' := a).
  - rewrite length_map, length_seq, repeat_length. reflexivity.
  - intros i Hi. rewrite length_map, length_seq in Hi.
    rewrite map_nth, seq_nth by exact Hi. rewrite nth_repeat. apply H. exact Hi.
Qed.

(** X10. In NOEXTRUDE mode a mask with no truthy entry leaves the mesh as
    it is: the turn returns the vertices and the faces of the input, no
    extruded face, every face under OtherPolys when that output is
    connected, and an output mask that is 1 everywhere when 'mask' is among
    the output types and 0 everywhere otherwise. *)
Theorem X10_nothing_selected {F : Type} {SF : Scalar F} {MK : MeshKernel F}
  (cfg : Config) (lk : Links) (it : @Item F) (ms : list Z) :
  mask_mode cfg = NOEXTRUDE ->
  heights it <> [] -> scales it <> [] -> matrixes it <> [] ->
  fullList (masks it) (length (faces it)) = inr ms ->
  (forall i, i < length (faces it) -> truthy (nth i ms 0%Z) = false) ->
  (exists bm, bmesh_from_pydata (vertices it) (edges it) (faces it) = inr bm) ->
  process_item cfg lk it
  = inr (mkItemResult (vertices it) (faces it) []
           (if linked_other_polygons lk then faces it else [])
           (if need_mask_out lk
            then Some (repeat (Z.b2z (mem_string "mask" (mask_out_type cfg)))
                         (length (faces it)))
            else None)).
Proof.
  intros Hmode H1 H2 H3 Hms Hnone [bm0 Hbm].
  destruct (fullList_nonempty (heights it) (length (faces it)) (or_introl H1)) as [hs Hhs].
  destruct (fullList_nonempty (scales it) (length (faces it)) (or_introl H2)) as [ss Hss].
  destruct (fullList_nonempty (matrixes it) (length (faces it)) (or_introl H3)) as [xs Hxs].
  rewrite (process_item_closed cfg lk it hs ss xs ms bm0 Hhs Hss Hxs Hms Hbm).
  rewrite Hmode.
  assert (Hsel : selected_indices NOEXTRUDE ms (length (faces it)) = [])
    by (apply truthy_indices_none; exact Hnone).
  assert (Hun : untouched_indices NOEXTRUDE ms (length (faces it))
                = seq 0 (length (faces it))).
  { unfold untouched_indices. rewrite Hsel. apply filter_all. reflexivity. }
  unfold extruded_caps, extruded_mesh. rewrite Hsel, Hun.
  cbn [map caps_of new_faces_of new_verts_of flat_map face_data combine foldM bind ret].
  unfold turn_result. cbn [fst snd bm_verts bm_faces].
  rewrite !app_nil_r.
  assert (Hfaces : map face_verts (map (input_face (faces it) ms)
                                     (seq 0 (length (faces it)))) = faces it).
  { rewrite map_map. cbn [input_face face_verts]. apply map_nth_seq. }
  rewrite Hfaces.
  assert (Hother : filter (fun f : list nat => negb (mem_loop f [])) (faces it)
                   = faces it) by (apply filter_all; reflexivity).
  assert (Hmask : spec_mask cfg (faces it) ms
                  = repeat (Z.b2z (mem_string "mask" (mask_out_type cfg)))
                      (length (faces it))).
  { unfold spec_mask, final_face_kinds. rewrite Hmode, Hsel, Hun.
    cbn [flat_map]. rewrite app_nil_r, map_map. cbn [fst snd].
    apply map_seq_const. intros i Hi.
    unfold spec_tag. specialize (Hnone i Hi). unfold truthy in Hnone.
    apply negb_false_iff in Hnone. rewrite Hnone. reflexivity. }
  rewrite Hother, Hmask. reflexivity.
Qed.

(** The hypotheses of X10 hold on the masked triangle. *)
Lemma X10_nothing_selected_witness :
  process_item (MK := reference_kernel) example_noextrude example_links masked_triangle
  = inr (mkItemResult (vertices masked_triangle) (faces masked_triangle) []
           (faces masked_triangle) (Some [0%Z])).
Proof.
  apply (@X10_nothing_selected Q QScalar reference_kernel example_noextrude
           example_links masked_triangle [0%Z]);
    try reflexivity; try discriminate.
  - cbn. intros [| i] Hi; [reflexivity | lia].
  - eexists. reflexivity.
Defined.

(** ** The face outputs and the batch *)

Section FaceOutputs.
Context {F : Type} {SF : Scalar F} {MK : MeshKernel F}.

(** The loops recorded by the loop are loops of faces of the final mesh. *)
Lemma recorded_loops_are_faces cfg lk (it : @Item F) res :
  process_item cfg lk it = inr res ->
  incl (new_extruded_faces res) (new_faces res)
  /\ ((linked_extruded_polygons lk || linked_other_polygons lk)%bool = false ->
      new_extruded_faces res = []).
Proof.
  intros H.
  apply process_item_inr in H
    as (hs & ss & xs & ms & bm2 & _ & _ & _ & _ & _ & Hfold & _ & Hfaces & _).
  apply foldM_transform_cap_inr in Hfold as [(Hsame & _) Hacc].
  cbn [app] in Hacc. split.
  - intros f Hf. rewrite Hacc in Hf.
    destruct (_ || _)%bool; [| contradiction].
    apply in_map_iff in Hf as [d [<- Hd]].
    rewrite Hfaces, Hsame. apply in_map.
    apply caps_in_extruded_mesh. eapply face_data_incl; eassumption.
  - intros Hl. rewrite Hl in Hacc. exact Hacc.
Qed.

Lemma other_faces_def cfg lk (it : @Item F) res :
  process_item cfg lk it = inr res ->
  new_other_faces res
  = (if linked_other_polygons lk
     then filter (fun f => negb (mem_loop f (new_extruded_faces res))) (new_faces res)
     else []).
Proof.
  intros H.
  apply process_item_inr in H
    as (hs & ss & xs & ms & bm2 & _ & _ & _ & _ & _ & _ & _ & _ & Hother & _).
  exact Hother.
Qed.

Lemma mask_when_wanted cfg lk (it : @Item F) res :
  process_item cfg lk it = inr res ->
  if need_mask_out lk
  then exists m, new_mask res = Some m /\ length m = length (new_faces res)
  else new_mask res = None.
Proof.
  intros H.
  apply process_item_inr in H
    as (hs & ss & xs & ms & bm2 & _ & _ & _ & _ & _ & Hfold & _ & Hfaces & _ & Hmask).
  destruct (need_mask_out lk); [| exact Hmask].
  destruct Hmask as [m [Hm Hn]]. exists m. split; [exact Hn |].
  apply foldM_transform_cap_inr in Hfold as [(Hsame & _) _].
  rewrite (get_out_mask_closed cfg (mask_mode cfg) (vertices it) (faces it) ms bm2
             eq_refl Hsame) in Hm.
  injection Hm as <-.
  rewrite Hfaces, Hsame, length_map. unfold spec_mask. rewrite length_map.
  rewrite <- (length_map (fun k => spec_tag (fst k) (nth (snd k) ms 0%Z))).
  rewrite <- (tagged_layer (mask_mode cfg) (vertices it) (faces it) ms).
  rewrite !length_map. reflexivity.
Qed.

End FaceOutputs.

(** X14. The two face outputs are computed on demand.  With OtherPolys
    connected, whether ExtrudedPolys is or not, the recorded cap loops and
    the other faces split the faces of the final mesh in two; with
    OtherPolys not connected its list is empty; with neither connected no
    loop is recorded at all. *)
Theorem X14_face_outputs_on_demand {F : Type} {SF : Scalar F} {MK : MeshKernel F}
  (cfg : Config) (lk : Links) (it : @Item F) (res : @ItemResult F) :
  process_item cfg lk it = inr res ->
  (linked_other_polygons lk = true ->
     (forall f, In f (new_extruded_faces res) \/ In f (new_other_faces res)
                <-> In f (new_faces res))
     /\ (forall f, ~ (In f (new_extruded_faces res) /\ In f (new_other_faces res))))
  /\ (linked_other_polygons lk = false -> new_other_faces res = [])
  /\ (linked_extruded_polygons lk = false -> linked_other_polygons lk = false ->
      new_extruded_faces res = []).
Proof.
  intros H.
  destruct (recorded_loops_are_faces cfg lk it res H) as [Hsub Hnone].
  pose proof (other_faces_def cfg lk it res H) as Hother.
  split; [| split].
  - intros Ho. rewrite Ho in Hother. split.
    + intros f. split.
      * intros [Hf | Hf]; [apply Hsub; exact Hf |].
        rewrite Hother in Hf. apply filter_In in Hf. tauto.
      * intros Hf. destruct (mem_loop f (new_extruded_faces res)) eqn:E.
        -- left. apply mem_loop_In; exact E.
        -- right. rewrite Hother. apply filter_In. rewrite E. auto.
    + intros f [Hf1 Hf2]. rewrite Hother in Hf2. apply filter_In in Hf2 as [_ Hf2].
      apply mem_loop_In in Hf1. rewrite Hf1 in Hf2. discriminate.
  - intros Ho. rewrite Hother, Ho. reflexivity.
  - intros He Ho. apply Hnone. rewrite He, Ho. reflexivity.
Qed.

(** The hypotheses of X14 hold on the example mesh with OtherPolys alone
    connected. *)
Lemma X14_face_outputs_on_demand_witness :
  (forall f, In f [[4; 5; 6]]
             \/ In f [[0; 3; 1]; [1; 5; 4; 0]; [2; 6; 5; 1]; [0; 4; 6; 2]]
             <-> In f [[0; 3; 1]; [4; 5; 6]; [1; 5; 4; 0]; [2; 6; 5; 1]; [0; 4; 6; 2]])
  /\ (forall f, ~ (In f [[4; 5; 6]]
                   /\ In f [[0; 3; 1]; [1; 5; 4; 0]; [2; 6; 5; 1]; [0; 4; 6; 2]])).
Proof.
  assert (E : process_item (MK := reference_kernel) example_noextrude
                (mkLinks false false false true) example_item
              = inr (mkItemResult (new_vertices example_noextrude_result)
                       (new_faces example_noextrude_result)
                       [[4; 5; 6]]
                       [[0; 3; 1]; [1; 5; 4; 0]; [2; 6; 5; 1]; [0; 4; 6; 2]]
                       None)) by runs.
  exact (proj1 (@X14_face_outputs_on_demand Q QScalar reference_kernel
                  example_noextrude (mkLinks false false false true)
                  example_item _ E) eq_refl).
Defined.

(** ** The batch *)

Lemma flatten_option_length {A B} (g : A -> option B) (l : list A) :
  (forall a, In a l -> exists b, g a = Some b) ->
  length (flatten_option (map g l)) = length l.
Proof.
  induction l as [| a l IH]; intros H; [reflexivity |].
  cbn [map flatten_option flat_map].
  destruct (H a (or_introl eq_refl)) as [b ->]. cbn [app length].
  f_equal. apply IH. intros; apply H; right; assumption.
Qed.

Lemma Forall2_in_r {A B} (R : A -> B -> Prop) (l : list A) (rs : list B) (r : B) :
  Forall2 R l rs -> In r rs -> exists a, In a l /\ R a r.
Proof.
  induction 1 as [| a b l rs Hab _ IH]; intros Hin; [contradiction |].
  destruct Hin as [<- | Hin].
  - exists a. split; [left; reflexivity | exact Hab].
  - destruct (IH Hin) as [a' [Ha' Hr]]. exists a'. split; [right |]; assumption.
Qed.

(** X13. The outputs of [process] are aligned.  When both guards pass and
    [process] returns, the Vertices, Polygons, ExtrudedPolys and OtherPolys
    outputs hold lists of one and the same length, one entry per mesh of
    the batch, and the faces of each entry name vertices of the entry of the
    same rank; the Mask output holds a list of that length when it is
    connected and is left as it was when it is not. *)
Theorem X13_outputs_aligned {F : Type} {SF : Scalar F} {MK : MeshKernel F}
  (node : Node F) (outs : Outputs F) :
  is_linked (in_Vertices (inputs node)) = true ->
  is_linked (in_Polygons (inputs node)) = true ->
  any_output_linked (output_links node) = true ->
  process node = inr outs ->
  exists vs ps es os,
    out_Vertices outs = Some vs /\ out_Polygons outs = Some ps
    /\ out_ExtrudedPolys outs = Some es /\ out_OtherPolys outs = Some os
    /\ length ps = length vs /\ length es = length vs /\ length os = length vs
    /\ Forall2 (fun v p => Forall (Forall (fun i => i < length v)) p) vs ps
    /\ (match Mask_socket (output_links node) with
        | Some true => exists mk, out_Mask outs = Some mk /\ length mk = length vs
        | _ => out_Mask outs = out_Mask (outputs node)
        end).
Proof.
  intros HV HP HO H. unfold process in H. rewrite HV, HP, HO in H.
  cbn [andb negb] in H. bind_inv H. bind_inv H. injection H as <-.
  rename a0 into rs. apply mapM_Forall2 in Ha0.
  cbn [out_Vertices out_Polygons out_ExtrudedPolys out_OtherPolys out_Mask].
  eexists _, _, _, _. repeat split; try reflexivity.
  - rewrite !length_map. reflexivity.
  - rewrite !length_map. reflexivity.
  - rewrite !length_map. reflexivity.
  - clear - Ha0. induction Ha0 as [| it r l rs Hr _ IH]; [constructor |].
    cbn [map]. constructor; [| exact IH].
    apply (turn_output_in_range _ _ it r Hr).
  - cbn [need_mask_out]. destruct (Mask_socket (output_links node)) as [[|] |];
      try reflexivity.
    eexists. split; [reflexivity |].
    rewrite length_map. apply flatten_option_length.
    intros r Hr. destruct (Forall2_in_r _ _ _ r Ha0 Hr) as [it [_ Hit]].
    apply mask_when_wanted in Hit. cbn [need_mask_out] in Hit.
    destruct Hit as [m [Hm _]]. eauto.
Qed.

(** The hypotheses of X13 hold for the node fed with two squares. *)
Lemma X13_outputs_aligned_witness :
  exists (vs : list (list (Vector Q))) (ps es os : list (list (list nat))),
    Some [unit_square ++
            [mkVector 0%Q 0%Q 1%Q; mkVector 1%Q 0%Q 1%Q;
             mkVector 1%Q 1%Q 1%Q; mkVector 0%Q 1%Q 1%Q];
          unit_square] = Some vs
    /\ Some [[[4; 5; 6; 7]; [1; 5; 4; 0]; [2; 6; 5; 1]; [3; 7; 6; 2]; [0; 4; 7; 3]];
             [[0; 1; 2; 3]]] = Some ps
    /\ Some [[[4; 5; 6; 7]]; []] = Some es
    /\ Some [[]; []] = Some os
    /\ length ps = length vs /\ length es = length vs /\ length os = length vs.
Proof.
  assert (E : process (MK := reference_kernel) example_linked_node
              = inr (mkOutputs
                       (Some [unit_square ++
                                [mkVector 0%Q 0%Q 1%Q; mkVector 1%Q 0%Q 1%Q;
                                 mkVector 1%Q 1%Q 1%Q; mkVector 0%Q 1%Q 1%Q];
                              unit_square])
                       (Some [[[4; 5; 6; 7]; [1; 5; 4; 0]; [2; 6; 5; 1]; [3; 7; 6; 2];
                               [0; 4; 7; 3]]; [[0; 1; 2; 3]]])
                       (Some [[[4; 5; 6; 7]]; []])
                       (Some [[]; []])
                       (Some [[1%Z; 0%Z; 0%Z; 0%Z; 0%Z]; [0%Z]]))) by runs.
  destruct (@X13_outputs_aligned Q QScalar reference_kernel example_linked_node _
              eq_refl eq_refl eq_refl E)
    as (vs & ps & es & os & H1 & H2 & H3 & H4 & H5 & H6 & H7 & _).
  exists vs, ps, es, os. repeat split; assumption.
Defined.

(** ** What ExtrudedPolys lists, in both mask modes *)

(** X15. In both mask modes, with one of the two face outputs connected,
    the list recorded for ExtrudedPolys has one loop for every face whose
    resolved mask entry is truthy, in the order of the faces: the loop of
    the cap of that face, a face of the final mesh with as many vertices as
    the face it caps, all of them vertices the extrusion has added. *)
Theorem X15_extruded_polys {F : Type} {SF : Scalar F} {MK : MeshKernel F}
  (cfg : Config) (lk : Links) (it : @Item F) (res : @ItemResult F) (ms : list Z) :
  (linked_extruded_polygons lk || linked_other_polygons lk)%bool = true ->
  process_item cfg lk it = inr res ->
  fullList (masks it) (length (faces it)) = inr ms ->
  length (new_extruded_faces res) = length (truthy_indices ms (length (faces it)))
  /\ forall k i,
       nth_error (truthy_indices ms (length (faces it))) k = Some i ->
       exists loop,
         nth_error (new_extruded_faces res) k = Some loop
         /\ In loop (new_faces res)
         /\ length loop = length (nth i (faces it) [])
         /\ Forall (fun v => length (vertices it) <= v) loop.
Proof.
  intros Hl H Hms.
  pose proof (extruded_polys_closed cfg lk it res ms Hl H Hms) as E. cbv zeta in E.
  destruct (recorded_loops_are_faces cfg lk it res H) as [Hsub _].
  set (n := length (faces it)) in *.
  assert (Hcap : forall j (sel : list nat) i,
            nth_error sel j = Some i ->
            exists cap,
              nth_error (caps_of (length (vertices it)) n
                           (map (input_face (faces it) ms) sel)) j = Some cap
              /\ length (face_verts cap) = length (nth i (faces it) [])
              /\ Forall (fun v => length (vertices it) <= v) (face_verts cap)).
  { intros j sel i Hj.
    assert (Hs : nth_error (map (input_face (faces it) ms) sel) j
                 = Some (input_face (faces it) ms i)) by (apply map_nth_error; exact Hj).
    destruct (caps_of_nth_error _ (length (vertices it)) n j _ Hs) as [cap [Hc Hlen]].
    exists cap. repeat split; try assumption.
    apply Forall_forall. intros v Hv.
    eapply caps_of_loop_ge; [eapply nth_error_In; exact Hc | exact Hv]. }
  assert (G : forall k i,
            nth_error (truthy_indices ms n) k = Some i ->
            exists loop,
              nth_error (new_extruded_faces res) k = Some loop
              /\ length loop = length (nth i (faces it) [])
              /\ Forall (fun v => length (vertices it) <= v) loop).
  { intros k i Hk. rewrite E. destruct (mask_mode cfg) eqn:Hmode.
    - destruct (Hcap k _ i Hk) as (cap & Hc & Hlen & Hge).
      exists (face_verts cap). split; [| split; assumption].
      apply map_nth_error. exact Hc.
    - assert (Hn : length (extruded_caps NOTRANSFORM (vertices it) (faces it) ms) = n).
      { unfold extruded_caps. rewrite caps_of_length, length_map. apply length_seq. }
      rewrite Hn.
      assert (Hi : i < n).
      { apply nth_error_In in Hk. apply filter_In in Hk as [Hk _].
        apply in_seq in Hk. lia. }
      assert (Hseq : nth_error (seq 0 n) i = Some i).
      { rewrite (nth_error_nth' _ 0) by (rewrite length_seq; exact Hi).
        rewrite seq_nth by exact Hi. reflexivity. }
      destruct (Hcap i _ i Hseq) as (cap & Hc & Hlen & Hge).
      exists (face_verts cap). split; [| split; assumption].
      rewrite (map_nth_error _ _ _ Hk). f_equal. f_equal.
      apply nth_error_nth. exact Hc. }
  split.
  - rewrite E. destruct (mask_mode cfg).
    + rewrite length_map. unfold extruded_caps.
      rewrite caps_of_length, length_map. reflexivity.
    + rewrite length_map. unfold extruded_caps.
      rewrite caps_of_length, length_map. cbn [selected_indices].
      rewrite length_seq. reflexivity.
  - intros k i Hk. destruct (G k i Hk) as (loop & H1 & H2 & H3).
    exists loop. repeat split; try assumption.
    apply Hsub. eapply nth_error_In. exact H1.
Qed.

(** The hypotheses of X15 hold on the example mesh. *)
Lemma X15_extruded_polys_witness :
  length (new_extruded_faces example_noextrude_result) = 1
  /\ forall k i,
       nth_error [0] k = Some i ->
       exists loop,
         nth_error (new_extruded_faces example_noextrude_result) k = Some loop
         /\ In loop (new_faces example_noextrude_result)
         /\ length loop = length (nth i (faces example_item) [])
         /\ Forall (fun v => 4 <= v) loop.
Proof.
  assert (E : process_item (MK := reference_kernel) example_noextrude example_links
                example_item = inr example_noextrude_result) by runs.
  exact (@X15_extruded_polys Q QScalar reference_kernel example_noextrude
           example_links example_item example_noextrude_result [1%Z; 0%Z]
           eq_refl E eq_refl).
Defined.

(** ** The NORMAL transform with a number as scale *)

Section RealConjugation.
Local Open Scope R_scope.
Context {MK : MeshKernel R}.

Lemma matmul_assoc (a b c : Matrix R) :
  matmul (matmul a b) c = matmul a (matmul b c).
Proof.
  destruct_matrix a. destruct_matrix b. destruct_matrix c. real_ops.
  f_equal; f_equal; ring.
Qed.

Lemma matmul_identity_l (a : Matrix R) : matmul identity a = a.
Proof.
  destruct_matrix a. real_ops. f_equal; f_equal; ring.
Qed.

Lemma local_rotation_is_linear (normal : Vector R) : is_linear (local_rotation normal).
Proof.
  unfold local_rotation, is_linear.
  destruct (_ && _)%bool; [destruct (fleb _ _) |]; cbn; repeat split.
Qed.

(** A uniform scale commutes with a matrix that acts on directions only. *)
Lemma uniform_scale_commutes (m : Matrix R) (s : R) :
  is_linear m ->
  matmul m (scale_matrix (mkVector s s s)) = matmul (scale_matrix (mkVector s s s)) m.
Proof.
  destruct_matrix m. unfold is_linear. cbn [m0 m1 m2 m3 r3].
  intros (-> & -> & -> & E). injection E as -> -> -> ->.
  real_ops. f_equal; f_equal; ring.
Qed.

Lemma Translation_opp (c : Vector R) :
  matmul (Translation (mkVector (- vx c) (- vy c) (- vz c))) (Translation c) = identity.
Proof.
  destruct c as [x y z]. real_ops. f_equal; f_equal; ring.
Qed.

Lemma scale_between_translations (c p : Vector R) (s : R) :
  mul_m4_v3
    (matmul (matmul (Translation c) (scale_matrix (mkVector s s s)))
       (Translation (mkVector (- vx c) (- vy c) (- vz c)))) p
  = scale_about c s p.
Proof.
  destruct c as [x y z], p as [a b d]. unfold scale_about. real_ops.
  f_equal; ring.
Qed.

(** The matrix [bmesh.ops.scale] builds from a uniform scale and the frame
    of a cap scales about the centre of the cap: the rotation of the frame
    cancels out. *)
Lemma uniform_scale_in_frame (c : Vector R) (rot space : Matrix R) (s : R) (p : Vector R) :
  is_linear rot ->
  determinant space <> 0 ->
  matmul (matmul (Translation c) rot) space = identity ->
  matmul space (matmul (Translation c) rot) = identity ->
  mul_m4_v3 (matmul (matmul (invert_m4 space) (scale_matrix (mkVector s s s))) space) p
  = scale_about c s p.
Proof.
  intros Hlin Hdet Hr Hl.
  assert (Hinv : invert_m4 space = matmul (Translation c) rot).
  { rewrite <- (matmul_identity_r (invert_m4 space)), <- Hl.
    rewrite <- matmul_assoc, (invert_m4_R space Hdet). apply matmul_identity_l. }
  assert (Hrs : matmul rot space
                = Translation (mkVector (- vx c) (- vy c) (- vz c))).
  { rewrite <- (matmul_identity_l (matmul rot space)).
    rewrite <- (Translation_opp c).
    rewrite matmul_assoc, <- (matmul_assoc (Translation c) rot space), Hr.
    apply matmul_identity_r. }
  rewrite Hinv.
  rewrite (matmul_assoc (Translation c) rot), (uniform_scale_commutes rot s Hlin).
  rewrite <- (matmul_assoc (Translation c) _ rot).
  rewrite (matmul_assoc _ rot space), Hrs.
  apply scale_between_translations.
Qed.

Lemma translation_moves (dr p : Vector R) :
  mul_m4_v3 (Translation dr) p
  = mkVector (vx p + vx dr) (vy p + vy dr) (vz p + vz dr).
Proof.
  destruct dr, p. real_ops. f_equal; ring.
Qed.

End RealConjugation.

Lemma set_nth_eq {X} (i : nat) (x d : X) (l : list X) :
  i < length l -> nth i (set_nth i x l) d = x.
Proof.
  revert i. induction l as [| y l IH]; intros [| i] H; simpl in *; try lia.
  - reflexivity.
  - apply IH. lia.
Qed.

Section MovedVertices.
Context {F : Type} {SF : Scalar F} {MK : MeshKernel F}.

(** A vertex listed once is moved once. *)
Lemma move_fold_in (g : Vector F -> Vector F) (verts : list nat) (j : nat) :
  NoDup verts -> In j verts ->
  forall vs, j < length vs ->
    nth j (fold_left (fun vs i => set_nth i (g (nth i vs zero_vector)) vs) verts vs)
      zero_vector
    = g (nth j vs zero_vector).
Proof.
  induction verts as [| i verts IH]; intros Hnd Hj vs Hlt; [contradiction |].
  inversion Hnd as [| ? ? Hi Hnd']; subst. cbn [fold_left].
  destruct (Nat.eq_dec i j) as [-> | Hne].
  - rewrite move_fold_other by exact Hi. apply set_nth_eq. exact Hlt.
  - destruct Hj as [-> | Hj]; [congruence |].
    rewrite IH; try assumption.
    + rewrite set_nth_other by exact Hne. reflexivity.
    + rewrite set_nth_length. exact Hlt.
Qed.

Lemma move_verts_in (g : Vector F -> Vector F) (verts : list nat) (bm : BMesh F) (j : nat) :
  NoDup verts -> In j verts -> j < length (bm_verts bm) ->
  co (move_verts g verts bm) j = g (co bm j).
Proof.
  intros Hnd Hj Hlt. unfold co, move_verts. cbn [bm_verts].
  apply move_fold_in; assumption.
Qed.

Lemma move_verts_length (g : Vector F -> Vector F) (verts : list nat) (bm : BMesh F) :
  length (bm_verts (move_verts g verts bm)) = length (bm_verts bm).
Proof. unfold move_verts. cbn [bm_verts]. apply move_fold_length. Qed.

End MovedVertices.

Section RealNormalMode.
Local Open Scope R_scope.
Context {MK : MeshKernel R}.

(** One turn of the loop in NORMAL mode with a number as scale: it returns
    normally, and every vertex of the cap is scaled about the centre of the
    cap and pushed along its normal. *)
Lemma transform_cap_inset_push cfg lk (bm : BMesh R) acc face h s matrix :
  extrude_mode cfg = NORMAL -> vector_in lk = false ->
  NoDup (face_verts face) ->
  (forall v, In v (face_verts face) -> (v < length (bm_verts bm))%nat) ->
  exists bm',
    transform_cap cfg lk (bm, acc) (face, h, ScaleFloat s, matrix)
    = inr (bm', if (linked_extruded_polygons lk || linked_other_polygons lk)%bool
                then acc ++ [face_verts face] else acc)
    /\ forall v, In v (face_verts face) ->
         co bm' v = inset_and_push (face_center_median bm face) (face_normal bm face)
                      s h (co bm v).
Proof.
  intros Hmode Hvec Hnd Hrange. unfold transform_cap.
  destruct (local_space_R (face_normal bm face) (face_center_median bm face))
    as (space & E & Hr & Hl & Hdet).
  rewrite E, Hmode, Hvec. cbn [bind scale_vec ret].
  eexists. split; [reflexivity |].
  intros v Hv. unfold ops_translate, ops_scale, ops_transform.
  rewrite is_zero_m4_zero, (is_zero_m4_R space Hdet).
  rewrite move_verts_in; try assumption.
  2: { rewrite move_verts_length. apply Hrange, Hv. }
  rewrite move_verts_in; try assumption; [| apply Hrange, Hv].
  rewrite (uniform_scale_in_frame (face_center_median bm face)
             (local_rotation (face_normal bm face)) space s (co bm v)
             (local_rotation_is_linear _) Hdet Hr Hl).
  rewrite translation_moves. unfold inset_and_push, vscale. reflexivity.
Qed.

End RealNormalMode.

Lemma caps_of_NoDup (sel : list BMFace) :
  forall base next c, In c (caps_of base next sel) -> NoDup (face_verts c).
Proof.
  induction sel as [| f sel IH]; intros base next c; simpl; [tauto |].
  intros [<- | Hc]; [apply seq_NoDup | eapply IH; exact Hc].
Qed.

Lemma caps_of_range (sel : list BMFace) :
  forall base next c v,
    In c (caps_of base next sel) -> In v (face_verts c) ->
    v < base + length (flat_map face_verts sel).
Proof.
  induction sel as [| f sel IH]; intros base next c v; simpl; [tauto |].
  rewrite length_app. intros [<- | Hc] Hv.
  - simpl in Hv. apply in_seq in Hv. lia.
  - specialize (IH _ _ _ _ Hc Hv). lia.
Qed.

Lemma ForallOrdPairs_map {A B} (R : B -> B -> Prop) (f : A -> B) (l : list A) :
  NoDup l ->
  (forall a b, In a l -> In b l -> a <> b -> R (f a) (f b)) ->
  ForallOrdPairs R (map f l).
Proof.
  induction 1 as [| a l Ha Hnd IH]; intros HR; cbn [map]; constructor.
  - apply Forall_forall. intros y Hy. apply in_map_iff in Hy as [b [<- Hb]].
    apply HR; [left; reflexivity | right; exact Hb |].
    intros ->. exact (Ha Hb).
  - apply IH. intros x y Hx Hy. apply HR; right; assumption.
Qed.

Section VisitedCaps.
Context {F : Type} {SF : Scalar F}.

(** The caps the loop visits are visited once each, and no two of them
    share a vertex. *)
Lemma face_data_apart mode sel base next ms (hs : list F) ss xs :
  let es := caps_of base next sel in
  length es <= length ms -> length es <= length hs ->
  length es <= length ss -> length es <= length xs ->
  ForallOrdPairs
    (fun da db => forall v, In v (face_verts (face_of da)) ->
                            ~ In v (face_verts (face_of db)))
    (face_data mode es ms hs ss xs).
Proof.
  intros es Hm Hh Hs Hx.
  assert (G : forall l, NoDup l -> (forall j, In j l -> j < length es) ->
              ForallOrdPairs
                (fun da db => forall v, In v (face_verts (face_of da)) ->
                                        ~ In v (face_verts (face_of db)))
                (map (entry es hs ss xs) l)).
  { intros l Hnd Hl. apply ForallOrdPairs_map; [exact Hnd |].
    intros a b Ha Hb Hab v Va Vb. apply Hab.
    cbn [entry face_of] in Va, Vb.
    apply (caps_of_disjoint sel base next a b
             (nth a es default_face) (nth b es default_face) v);
      try assumption; apply nth_error_nth'; auto. }
  destruct mode.
  - rewrite face_data_NOEXTRUDE by assumption. apply G.
    + apply seq_NoDup.
    + intros j Hj. apply in_seq in Hj. lia.
  - rewrite face_data_NOTRANSFORM by assumption. apply G.
    + apply NoDup_filter, seq_NoDup.
    + intros j Hj. apply filter_In in Hj as [Hj _]. apply in_seq in Hj. lia.
Qed.

(** A cap whose mask entry is truthy is visited, with the entries of the
    lists at its place among the caps. *)
Lemma face_data_visits mode es ms (hs : list F) ss xs k :
  length es <= length ms -> length es <= length hs ->
  length es <= length ss -> length es <= length xs ->
  k < length es ->
  (mode = NOTRANSFORM -> truthy (nth k ms 0%Z) = true) ->
  In (entry es hs ss xs k) (face_data mode es ms hs ss xs).
Proof.
  intros Hm Hh Hs Hx Hk Ht. destruct mode.
  - rewrite face_data_NOEXTRUDE by assumption. apply in_map, in_seq. lia.
  - rewrite face_data_NOTRANSFORM by assumption. apply in_map.
    apply filter_In. split; [apply in_seq; lia | apply Ht; reflexivity].
Qed.

End VisitedCaps.

Section RealNormalLoop.
Local Open Scope R_scope.
Context {MK : MeshKernel R}.

(** The loop in NORMAL mode over caps that share no vertex: each cap
    visited with a number as scale ends scaled about the centre it had
    when the loop began and pushed along the normal it had then. *)
Lemma foldM_inset_push cfg lk (fd : list (@FaceData R)) :
  extrude_mode cfg = NORMAL -> vector_in lk = false ->
  forall bm acc bm' acc',
    ForallOrdPairs
      (fun da db => forall v, In v (face_verts (face_of da)) ->
                              ~ In v (face_verts (face_of db))) fd ->
    (forall d, In d fd ->
       NoDup (face_verts (face_of d))
       /\ forall v, In v (face_verts (face_of d)) -> (v < length (bm_verts bm))%nat) ->
    foldM (transform_cap cfg lk) fd (bm, acc) = inr (bm', acc') ->
    forall face h s m v,
      In (face, h, ScaleFloat s, m) fd -> In v (face_verts face) ->
      co bm' v = inset_and_push (face_center_median bm face) (face_normal bm face)
                   s h (co bm v).
Proof.
  intros Hmode Hvec.
  induction fd as [| d fd IH]; intros bm acc bm' acc' Hfop Hok H face h s m v Hin Hv;
    [contradiction |].
  inversion Hfop as [| ? ? Hhead Htail]; subst.
  cbn [foldM] in H. bind_inv H. destruct a as [bm1 acc1].
  destruct Hin as [-> | Hin].
  - destruct (Hok _ (or_introl eq_refl)) as [Hnd Hrange]. cbn [face_of] in Hnd, Hrange.
    destruct (transform_cap_inset_push cfg lk bm acc face h s m Hmode Hvec Hnd Hrange)
      as (bm1' & E & Hco).
    rewrite E in Ha. injection Ha as -> _.
    rewrite <- (Hco v Hv).
    apply foldM_transform_cap_inr in H as [(_ & _ & _ & Hsame) _].
    apply Hsame. intros Hflat. apply in_flat_map in Hflat as [d' [Hd' Hvd']].
    rewrite Forall_forall in Hhead. exact (Hhead d' Hd' v Hv Hvd').
  - apply transform_cap_inr in Ha as [(_ & _ & Hlen & Hsame) _].
    assert (Hkeep : forall w, In w (face_verts face) -> co bm1 w = co bm w).
    { intros w Hw. apply Hsame. intros Hwd.
      rewrite Forall_forall in Hhead. exact (Hhead _ Hin w Hwd Hw). }
    rewrite (IH bm1 acc1 bm' acc' Htail) with (face := face) (h := h) (s := s) (m := m);
      try assumption.
    + unfold face_center_median, face_normal.
      rewrite (map_ext_in (co bm1) (co bm) (face_verts face) Hkeep).
      rewrite (Hkeep v Hv). reflexivity.
    + intros d' Hd'. rewrite Hlen. apply Hok. right. exact Hd'.
Qed.

End RealNormalLoop.

(** X16. Coordinates read as real numbers.  In NORMAL mode with numbers
    on the Scale input, the cap of the k-th face handed to the extrusion,
    when the mask entry of that face is truthy, ends where the face was,
    scaled by the k-th scale about the median centre of the face and pushed
    by the k-th height along the normal of the face: the rotation of the
    local frame has no effect on the result, and the transforms of the
    other caps do not touch it. *)
Theorem X16_inset_and_push {MK : MeshKernel R}
  (cfg : Config) (lk : Links) (it : @Item R) (res : @ItemResult R)
  (ms : list Z) (hs : list R) (ss : list (ScaleValue R)) (k i : nat) (h s : R) :
  extrude_mode cfg = NORMAL ->
  vector_in lk = false ->
  process_item cfg lk it = inr res ->
  fullList (masks it) (length (faces it)) = inr ms ->
  fullList (heights it) (length (faces it)) = inr hs ->
  fullList (scales it) (length (faces it)) = inr ss ->
  nth_error (selected_indices (mask_mode cfg) ms (length (faces it))) k = Some i ->
  truthy (nth i ms 0%Z) = true ->
  nth_error hs k = Some h ->
  nth_error ss k = Some (ScaleFloat s) ->
  exists cap,
    nth_error (extruded_caps (mask_mode cfg) (vertices it) (faces it) ms) k = Some cap
    /\ let ps := map (fun v => nth v (vertices it) zero_vector) (nth i (faces it) []) in
       map (fun v => nth v (new_vertices res) zero_vector) (face_verts cap)
       = map (inset_and_push (calc_center_median ps) (calc_normal ps) s h) ps.
Proof.
  intros Hmode Hvec H Hms Hhs Hss Hk Htruthy Hh Hs.
  apply process_item_inr in H
    as (hs' & ss' & xs & ms' & bm2 & Hhs' & Hss' & Hxs & Hms' & Hrange & Hfold
        & Hverts & _).
  rewrite Hms in Hms'. injection Hms' as <-.
  rewrite Hhs in Hhs'. injection Hhs' as <-.
  rewrite Hss in Hss'. injection Hss' as <-.
  set (n := length (faces it)) in *.
  set (sel := map (input_face (faces it) ms) (selected_indices (mask_mode cfg) ms n)).
  set (caps := extruded_caps (mask_mode cfg) (vertices it) (faces it) ms) in *.
  set (bm0 := extruded_mesh (mask_mode cfg) (vertices it) (faces it) ms) in *.
  assert (Hsel : nth_error sel k = Some (input_face (faces it) ms i))
    by (apply map_nth_error; exact Hk).
  destruct (caps_of_nth_error sel (length (vertices it)) n k _ Hsel) as [cap [Hcap _]].
  change (nth_error caps k = Some cap) in Hcap.
  exists cap. split; [exact Hcap |].
  assert (Hlen : (length caps <= n)%nat).
  { unfold caps, extruded_caps. rewrite caps_of_length, length_map.
    destruct (mask_mode cfg); simpl.
    - unfold truthy_indices.
      etransitivity; [apply filter_length_le |]. rewrite length_seq. lia.
    - rewrite length_seq. lia. }
  pose proof (fullList_inr _ _ _ Hms) as [Lm _].
  pose proof (fullList_inr _ _ _ Hhs) as [Lh _].
  pose proof (fullList_inr _ _ _ Hss) as [Ls _].
  pose proof (fullList_inr _ _ _ Hxs) as [Lx _].
  fold n in Lm, Lh, Ls, Lx.
  assert (Hklt : (k < length caps)%nat)
    by (apply nth_error_Some; rewrite Hcap; discriminate).
  assert (Hvisit : In (cap, h, ScaleFloat s, nth k xs identity)
                     (face_data (mask_mode cfg) caps ms hs ss xs)).
  { replace (cap, h, ScaleFloat s, nth k xs identity) with (entry caps hs ss xs k).
    - apply face_data_visits; try lia.
      intros Hm. rewrite Hm in Hk. cbn [selected_indices] in Hk.
      assert (i = k); [| subst; exact Htruthy].
      assert (Hk' : (k < length (seq 0 n))%nat)
        by (apply nth_error_Some; rewrite Hk; discriminate).
      rewrite length_seq in Hk'.
      rewrite (nth_error_nth' (seq 0 n) 0%nat) in Hk by (rewrite length_seq; exact Hk').
      rewrite seq_nth in Hk by exact Hk'. injection Hk as <-. reflexivity.
    - unfold entry.
      rewrite (nth_error_nth _ _ default_face Hcap).
      rewrite (nth_error_nth _ _ (f0 : R) Hh).
      rewrite (nth_error_nth _ _ (ScaleFloat (f0 : R)) Hs). reflexivity. }
  assert (Hpos : map (co bm0) (face_verts cap)
                 = map (fun v => nth v (vertices it) zero_vector) (nth i (faces it) [])).
  { unfold co, bm0. cbn [extruded_mesh bm_verts]. fold n. fold sel.
    apply (cap_positions (vertices it) sel (length (vertices it)) n k cap
             (input_face (faces it) ms i) (vertices it) eq_refl Hcap Hsel). }
  cbv zeta. rewrite Hverts. rewrite <- Hpos, map_map.
  apply map_ext_in. intros v Hv.
  change (nth v (bm_verts bm2) zero_vector) with (co bm2 v).
  refine (foldM_inset_push cfg lk _ Hmode Hvec bm0 [] bm2 (new_extruded_faces res)
            _ _ Hfold cap h s (nth k xs identity) v Hvisit Hv).
  - apply (face_data_apart (mask_mode cfg) sel (length (vertices it)) n ms hs ss xs);
      change (caps_of (length (vertices it)) n sel) with caps; lia.
  - intros d Hd. apply face_data_entry in Hd as [j [Hj ->]]; try lia.
    cbn [entry face_of].
    assert (Hc : In (nth j caps default_face) caps) by (apply nth_In; exact Hj).
    split.
    + eapply caps_of_NoDup; exact Hc.
    + intros w Hw. unfold bm0. cbn [extruded_mesh bm_verts].
      rewrite length_app, new_verts_of_length.
      eapply caps_of_range; [exact Hc | exact Hw].
Qed.

(** The hypotheses of X16 hold for a triangle extruded with height 3 and
    scale 2. *)
Lemma X16_inset_and_push_witness :
  exists res cap,
    process_item (MK := reference_kernel) example_noextrude example_links
      pushed_triangle = inr res
    /\ nth_error (extruded_caps NOEXTRUDE (vertices pushed_triangle)
                    (faces pushed_triangle) [1%Z]) 0 = Some cap
    /\ let ps := map (fun v => nth v (vertices pushed_triangle) zero_vector)
                   (nth 0 (faces pushed_triangle) []) in
       map (fun v => nth v (new_vertices res) zero_vector) (face_verts cap)
       = map (inset_and_push (calc_center_median (MeshKernel := reference_kernel) ps)
                (calc_normal (MeshKernel := reference_kernel) ps) 2%R 3%R) ps.
Proof.
  destruct (process_item (MK := reference_kernel) example_noextrude example_links
              pushed_triangle) as [e | res] eqn:E.
  - exfalso. apply process_item_inl in E
      as [(_ & _ & He) | [(_ & H) | [(_ & (n & c & H)) | (_ & _ & (s & Hs & H))]]].
    + cbn in He. destruct He as [He | [He | [He | He]]]; discriminate.
    + eapply H. cbv -[IZR]. reflexivity.
    + destruct (local_space_R n c) as (space & E & _). congruence.
    + cbn in Hs. destruct Hs as [<- | []]. discriminate.
  - exists res.
    destruct (@X16_inset_and_push reference_kernel example_noextrude example_links
                pushed_triangle res [1%Z] [3%R] [ScaleFloat 2%R] 0 0 3%R 2%R
                eq_refl eq_refl E eq_refl eq_refl eq_refl eq_refl eq_refl
                eq_refl eq_refl) as [cap [H1 H2]].
    exists cap. split; [reflexivity |]. split; [exact H1 | exact H2].
Defined.

(** ** The loop over caps that share no vertex *)

Section LoopOverCaps.
Context {F : Type} {SF : Scalar F} {MK : MeshKernel F}.

(** What one turn does to the vertices of its cap, when it depends on the
    mesh only through the positions of the cap, is what the whole loop does
    to them. *)
Lemma foldM_moves cfg lk (P : @FaceData F -> Prop)
  (move : list (Vector F) -> @FaceData F -> Vector F -> Vector F) :
  (forall bm acc d bm1 acc1,
     P d -> NoDup (face_verts (face_of d)) ->
     (forall v, In v (face_verts (face_of d)) -> v < length (bm_verts bm)) ->
     transform_cap cfg lk (bm, acc) d = inr (bm1, acc1) ->
     forall v, In v (face_verts (face_of d)) ->
       co bm1 v = move (map (co bm) (face_verts (face_of d))) d (co bm v)) ->
  forall fd bm acc bm' acc',
    ForallOrdPairs
      (fun da db => forall v, In v (face_verts (face_of da)) ->
                              ~ In v (face_verts (face_of db))) fd ->
    (forall d, In d fd ->
       NoDup (face_verts (face_of d))
       /\ forall v, In v (face_verts (face_of d)) -> v < length (bm_verts bm)) ->
    foldM (transform_cap cfg lk) fd (bm, acc) = inr (bm', acc') ->
    forall d v, In d fd -> P d -> In v (face_verts (face_of d)) ->
      co bm' v = move (map (co bm) (face_verts (face_of d))) d (co bm v).
Proof.
  intros Hstep.
  induction fd as [| d0 fd IH]; intros bm acc bm' acc' Hfop Hok H d v Hin HP Hv;
    [contradiction |].
  inversion Hfop as [| ? ? Hhead Htail]; subst.
  cbn [foldM] in H. bind_inv H. destruct a as [bm1 acc1].
  destruct Hin as [-> | Hin].
  - destruct (Hok _ (or_introl eq_refl)) as [Hnd Hrange].
    rewrite <- (Hstep bm acc d bm1 acc1 HP Hnd Hrange Ha v Hv).
    apply foldM_transform_cap_inr in H as [(_ & _ & _ & Hsame) _].
    apply Hsame. intros Hflat. apply in_flat_map in Hflat as [d' [Hd' Hvd']].
    rewrite Forall_forall in Hhead. exact (Hhead d' Hd' v Hv Hvd').
  - apply transform_cap_inr in Ha as [(_ & _ & Hlen & Hsame) _].
    assert (Hkeep : forall w, In w (face_verts (face_of d)) -> co bm1 w = co bm w).
    { intros w Hw. apply Hsame. intros Hwd.
      rewrite Forall_forall in Hhead. exact (Hhead _ Hin w Hwd Hw). }
    rewrite (IH bm1 acc1 bm' acc' Htail) with (d := d); try assumption.
    + rewrite (map_ext_in (co bm1) (co bm) (face_verts (face_of d)) Hkeep).
      rewrite (Hkeep v Hv). reflexivity.
    + intros d' Hd'. rewrite Hlen. apply Hok. right. exact Hd'.
Qed.

(** Turns that leave the mesh as it is make a loop that does. *)
Lemma foldM_still cfg lk (fd : list (@FaceData F)) :
  (forall d bm acc bm1 acc1,
     In d fd -> transform_cap cfg lk (bm, acc) d = inr (bm1, acc1) -> bm1 = bm) ->
  forall bm acc bm' acc',
    foldM (transform_cap cfg lk) fd (bm, acc) = inr (bm', acc') -> bm' = bm.
Proof.
  induction fd as [| d fd IH]; intros Hd bm acc bm' acc' H.
  - injection H as <- _. reflexivity.
  - cbn [foldM] in H. bind_inv H. destruct a as [bm1 acc1].
    rewrite (IH (fun d' b a b1 a1 Hin => Hd d' b a b1 a1 (or_intror Hin)) _ _ _ _ H).
    exact (Hd d bm acc bm1 acc1 (or_introl eq_refl) Ha).
Qed.

End LoopOverCaps.

(** ** MATRIX mode over the reals *)

Section RealMatrixMode.
Local Open Scope R_scope.
Context {MK : MeshKernel R}.

(** The kernel inverts the frame [process] has inverted: it gets
    translation times rotation back. *)
Lemma frame_back (c : Vector R) (rot space : Matrix R) :
  determinant space <> 0 ->
  matmul space (matmul (Translation c) rot) = identity ->
  invert_m4 space = matmul (Translation c) rot.
Proof.
  intros Hdet Hl.
  rewrite <- (matmul_identity_r (invert_m4 space)), <- Hl.
  rewrite <- matmul_assoc, (invert_m4_R space Hdet). apply matmul_identity_l.
Qed.

Lemma rotation_then_space (c : Vector R) (rot space : Matrix R) :
  matmul (matmul (Translation c) rot) space = identity ->
  matmul rot space = Translation (mkVector (- vx c) (- vy c) (- vz c)).
Proof.
  intros Hr.
  rewrite <- (matmul_identity_l (matmul rot space)).
  rewrite <- (Translation_opp c).
  rewrite matmul_assoc, <- (matmul_assoc (Translation c) rot space), Hr.
  apply matmul_identity_r.
Qed.

(** A matrix that acts on directions only turns a translation by [t] into
    the translation by the image of [t]. *)
Lemma linear_translation (m : Matrix R) (t : Vector R) :
  is_linear m ->
  matmul m (Translation t) = matmul (Translation (mul_m4_v3 m t)) m.
Proof.
  destruct_matrix m. destruct t as [x y z]. unfold is_linear. cbn [m0 m1 m2 m3 r3].
  intros (-> & -> & -> & E). injection E as -> -> -> ->.
  real_ops. f_equal; f_equal; ring.
Qed.

Lemma translation_between_translations (c u p : Vector R) :
  mul_m4_v3
    (matmul (matmul (Translation c) (Translation u))
       (Translation (mkVector (- vx c) (- vy c) (- vz c)))) p
  = vadd p u.
Proof.
  destruct c as [x y z], u as [a b d], p as [e f g]. real_ops. f_equal; ring.
Qed.

(** A translation applied in the frame of a cap is the translation by the
    image of its vector under the rotation of the frame. *)
Lemma translation_in_frame (c : Vector R) (rot space : Matrix R) (t p : Vector R) :
  is_linear rot ->
  determinant space <> 0 ->
  matmul (matmul (Translation c) rot) space = identity ->
  matmul space (matmul (Translation c) rot) = identity ->
  mul_m4_v3 (matmul (matmul (invert_m4 space) (Translation t)) space) p
  = vadd p (mul_m4_v3 rot t).
Proof.
  intros Hlin Hdet Hr Hl.
  rewrite (frame_back c rot space Hdet Hl).
  rewrite (matmul_assoc (Translation c) rot), (linear_translation rot t Hlin).
  rewrite <- (matmul_assoc (Translation c) _ rot).
  rewrite (matmul_assoc _ rot space), (rotation_then_space c rot space Hr).
  apply translation_between_translations.
Qed.

(** One turn of the loop in MATRIX mode returns normally. *)
Lemma transform_cap_MATRIX_R cfg lk (bm : BMesh R) acc face h sc matrix :
  extrude_mode cfg = MATRIX ->
  exists space,
    local_space (face_normal bm face) (face_center_median bm face) = inr space
    /\ determinant space <> 0
    /\ matmul (matmul (Translation (face_center_median bm face))
                 (local_rotation (face_normal bm face))) space = identity
    /\ matmul space (matmul (Translation (face_center_median bm face))
                       (local_rotation (face_normal bm face))) = identity
    /\ transform_cap cfg lk (bm, acc) (face, h, sc, matrix)
       = inr (move_verts
                (mul_m4_v3 (matmul (matmul (invert_m4 space) matrix) space))
                (face_verts face) bm,
              if (linked_extruded_polygons lk || linked_other_polygons lk)%bool
              then acc ++ [face_verts face] else acc).
Proof.
  intros Hmode. unfold transform_cap.
  destruct (local_space_R (face_normal bm face) (face_center_median bm face))
    as (space & E & Hr & Hl & Hdet).
  exists space. rewrite E, Hmode. cbn [bind ret].
  unfold ops_transform. rewrite (is_zero_m4_R space Hdet).
  repeat split; assumption || reflexivity.
Qed.

(** One turn of the loop in MATRIX mode with the identity matrix leaves
    the mesh as it is. *)
Lemma transform_cap_identity cfg lk (bm : BMesh R) acc face h sc bm1 acc1 :
  extrude_mode cfg = MATRIX ->
  transform_cap cfg lk (bm, acc) (face, h, sc, identity) = inr (bm1, acc1) ->
  bm1 = bm.
Proof.
  intros Hmode H.
  destruct (transform_cap_MATRIX_R cfg lk bm acc face h sc identity Hmode)
    as (space & _ & Hdet & _ & _ & E).
  rewrite E in H. injection H as <- _.
  rewrite matmul_identity_r, (invert_m4_R space Hdet).
  apply move_verts_id. apply mul_m4_v3_identity.
Qed.

(** One turn of the loop in MATRIX mode with a translation matrix moves
    every vertex of the cap by the image of the translation vector under
    the rotation of the frame of the cap. *)
Lemma transform_cap_translation cfg lk (bm : BMesh R) acc face h sc t bm1 acc1 :
  extrude_mode cfg = MATRIX ->
  NoDup (face_verts face) ->
  (forall v, In v (face_verts face) -> (v < length (bm_verts bm))%nat) ->
  transform_cap cfg lk (bm, acc) (face, h, sc, Translation t) = inr (bm1, acc1) ->
  forall v, In v (face_verts face) ->
    co bm1 v = vadd (co bm v) (mul_m4_v3 (local_rotation (face_normal bm face)) t).
Proof.
  intros Hmode Hnd Hrange H v Hv.
  destruct (transform_cap_MATRIX_R cfg lk bm acc face h sc (Translation t) Hmode)
    as (space & _ & Hdet & Hr & Hl & E).
  rewrite E in H. injection H as <- _.
  rewrite move_verts_in; try assumption; [| apply Hrange, Hv].
  apply (translation_in_frame (face_center_median bm face)
           (local_rotation (face_normal bm face)) space t (co bm v)
           (local_rotation_is_linear _) Hdet Hr Hl).
Qed.

End RealMatrixMode.

Lemma new_verts_of_input_face {F : Type} {SF : Scalar F}
  (vs : list (Vector F)) (ls : list (list nat)) ms (idx : list nat) :
  new_verts_of vs (map (input_face ls ms) idx)
  = flat_map (fun i => map (fun v => nth v vs zero_vector) (nth i ls [])) idx.
Proof.
  unfold new_verts_of. induction idx as [| i idx IH]; [reflexivity |].
  cbn [map flat_map]. rewrite IH. reflexivity.
Qed.

(** X17. Coordinates read as real numbers.  In MATRIX mode with identity
    matrices only, which is what the Matrix input gives when nothing is
    connected to it, a turn moves nothing: the vertices it returns are the
    input vertices followed, for every face handed to the extrusion in
    order, by copies of the vertices of that face. *)
Theorem X17_identity_matrices {MK : MeshKernel R}
  (cfg : Config) (lk : Links) (it : @Item R) (res : @ItemResult R) (ms : list Z) :
  extrude_mode cfg = MATRIX ->
  Forall (fun m => m = identity) (matrixes it) ->
  process_item cfg lk it = inr res ->
  fullList (masks it) (length (faces it)) = inr ms ->
  new_vertices res
  = vertices it
    ++ flat_map (fun i => map (fun v => nth v (vertices it) zero_vector)
                            (nth i (faces it) []))
         (selected_indices (mask_mode cfg) ms (length (faces it))).
Proof.
  intros Hmode Hid H Hms.
  apply process_item_inr in H
    as (hs & ss & xs & ms' & bm2 & Hhs & Hss & Hxs & Hms' & _ & Hfold & Hverts & _).
  rewrite Hms in Hms'. injection Hms' as <-.
  set (n := length (faces it)) in *.
  set (caps := extruded_caps (mask_mode cfg) (vertices it) (faces it) ms) in *.
  assert (Hlen : (length caps <= n)%nat).
  { unfold caps, extruded_caps. rewrite caps_of_length, length_map.
    destruct (mask_mode cfg); simpl.
    - unfold truthy_indices.
      etransitivity; [apply filter_length_le |]. rewrite length_seq. lia.
    - rewrite length_seq. lia. }
  pose proof (fullList_inr _ _ _ Hms) as [Lm _].
  pose proof (fullList_inr _ _ _ Hhs) as [Lh _].
  pose proof (fullList_inr _ _ _ Hss) as [Ls _].
  pose proof (fullList_inr _ _ _ Hxs) as [Lx _].
  fold n in Lm, Lh, Ls, Lx.
  assert (Hbm : bm2 = extruded_mesh (mask_mode cfg) (vertices it) (faces it) ms).
  { refine (foldM_still cfg lk _ _ _ _ _ _ Hfold).
    intros d bm acc bm1 acc1 Hd Hstep.
    apply face_data_entry in Hd as [j [Hj ->]]; try lia.
    unfold entry in Hstep.
    assert (Hx : nth j xs identity = identity).
    { destruct (nth_in_or_default j xs identity) as [Hin | E]; [| exact E].
      rewrite Forall_forall in Hid. apply Hid.
      eapply fullList_In; [exact Hxs | exact Hin]. }
    rewrite Hx in Hstep.
    eapply transform_cap_identity; [exact Hmode | exact Hstep]. }
  rewrite Hverts, Hbm. cbn [extruded_mesh bm_verts].
  rewrite new_verts_of_input_face. reflexivity.
Qed.

(** The hypotheses of X17 hold for a triangle over the reals with the
    default matrix. *)
Lemma X17_identity_matrices_witness :
  exists res,
    process_item (MK := reference_kernel) example_matrix_mode example_links
      real_triangle = inr res
    /\ new_vertices res
       = vertices real_triangle
         ++ flat_map (fun i => map (fun v => nth v (vertices real_triangle) zero_vector)
                                 (nth i (faces real_triangle) []))
              (selected_indices NOTRANSFORM [1%Z] 1).
Proof.
  destruct (process_item (MK := reference_kernel) example_matrix_mode example_links
              real_triangle) as [e | res] eqn:E.
  - exfalso. apply process_item_inl in E
      as [(_ & _ & He) | [(_ & H) | [(_ & (n & c & H)) | (_ & Hm & _)]]].
    + cbn in He. destruct He as [He | [He | [He | He]]]; discriminate.
    + eapply H. cbv -[IZR]. reflexivity.
    + destruct (local_space_R n c) as (space & E & _). congruence.
    + discriminate.
  - exists res. split; [reflexivity |].
    apply (@X17_identity_matrices reference_kernel example_matrix_mode example_links
             real_triangle res [1%Z] eq_refl).
    + repeat constructor.
    + exact E.
    + reflexivity.
Defined.

Lemma local_rotation_z (normal : Vector R) (h : R) :
  ~ (vx normal = 0%R /\ vy normal = 0%R) ->
  mul_m4_v3 (local_rotation normal) (mkVector 0%R 0%R h) = vscale normal h.
Proof.
  intros Hn. unfold local_rotation.
  destruct (feqb (vx normal) f0 && feqb (vy normal) f0)%bool eqn:E.
  - exfalso. apply Hn. apply andb_true_iff in E as [E1 E2].
    apply feqb_R_true in E1. apply feqb_R_true in E2. split; assumption.
  - cbv zeta.
    destruct (normalized _) as [x1 x2 x3], (normalized _) as [y1 y2 y3].
    destruct normal as [a b c]. real_ops. f_equal; ring.
Qed.

(** X18. Coordinates read as real numbers.  In MATRIX mode a translation
    matrix is applied in the frame of the cap: the cap of the k-th face
    handed to the extrusion, when the mask entry of that face is truthy and
    its matrix is the translation by [t], ends where the face was, moved by
    the image of [t] under the rotation of the frame.  When the normal of
    the face is not parallel to Z, a translation along Z by [vz t] is a push
    by that amount along the normal. *)
Theorem X18_matrix_translation {MK : MeshKernel R}
  (cfg : Config) (lk : Links) (it : @Item R) (res : @ItemResult R)
  (ms : list Z) (xs : list (Matrix R)) (k i : nat) (t : Vector R) :
  extrude_mode cfg = MATRIX ->
  process_item cfg lk it = inr res ->
  fullList (masks it) (length (faces it)) = inr ms ->
  fullList (matrixes it) (length (faces it)) = inr xs ->
  nth_error (selected_indices (mask_mode cfg) ms (length (faces it))) k = Some i ->
  truthy (nth i ms 0%Z) = true ->
  nth_error xs k = Some (Translation t) ->
  exists cap,
    nth_error (extruded_caps (mask_mode cfg) (vertices it) (faces it) ms) k = Some cap
    /\ let ps := map (fun v => nth v (vertices it) zero_vector) (nth i (faces it) []) in
       let rot := local_rotation (calc_normal ps) in
       map (fun v => nth v (new_vertices res) zero_vector) (face_verts cap)
       = map (fun p => vadd p (mul_m4_v3 rot t)) ps
       /\ (~ (vx (calc_normal ps) = 0%R /\ vy (calc_normal ps) = 0%R) ->
           vx t = 0%R -> vy t = 0%R ->
           mul_m4_v3 rot t = vscale (calc_normal ps) (vz t)).
Proof.
  intros Hmode H Hms Hxs Hk Htruthy Hx.
  apply process_item_inr in H
    as (hs & ss & xs' & ms' & bm2 & Hhs & Hss & Hxs' & Hms' & Hrange & Hfold
        & Hverts & _).
  rewrite Hms in Hms'. injection Hms' as <-.
  rewrite Hxs in Hxs'. injection Hxs' as <-.
  set (n := length (faces it)) in *.
  set (sel := map (input_face (faces it) ms) (selected_indices (mask_mode cfg) ms n)).
  set (caps := extruded_caps (mask_mode cfg) (vertices it) (faces it) ms) in *.
  set (bm0 := extruded_mesh (mask_mode cfg) (vertices it) (faces it) ms) in *.
  assert (Hsel : nth_error sel k = Some (input_face (faces it) ms i))
    by (apply map_nth_error; exact Hk).
  destruct (caps_of_nth_error sel (length (vertices it)) n k _ Hsel) as [cap [Hcap _]].
  change (nth_error caps k = Some cap) in Hcap.
  exists cap. split; [exact Hcap |].
  assert (Hlen : (length caps <= n)%nat).
  { unfold caps, extruded_caps. rewrite caps_of_length, length_map.
    destruct (mask_mode cfg); simpl.
    - unfold truthy_indices.
      etransitivity; [apply filter_length_le |]. rewrite length_seq. lia.
    - rewrite length_seq. lia. }
  pose proof (fullList_inr _ _ _ Hms) as [Lm _].
  pose proof (fullList_inr _ _ _ Hhs) as [Lh _].
  pose proof (fullList_inr _ _ _ Hss) as [Ls _].
  pose proof (fullList_inr _ _ _ Hxs) as [Lx _].
  fold n in Lm, Lh, Ls, Lx.
  assert (Hklt : (k < length caps)%nat)
    by (apply nth_error_Some; rewrite Hcap; discriminate).
  assert (Hvisit : In (entry caps hs ss xs k)
                     (face_data (mask_mode cfg) caps ms hs ss xs)).
  { apply face_data_visits; try lia.
    intros Hm. rewrite Hm in Hk. cbn [selected_indices] in Hk.
    assert (i = k); [| subst; exact Htruthy].
    assert (Hk' : (k < length (seq 0 n))%nat)
      by (apply nth_error_Some; rewrite Hk; discriminate).
    rewrite length_seq in Hk'.
    rewrite (nth_error_nth' (seq 0 n) 0%nat) in Hk by (rewrite length_seq; exact Hk').
    rewrite seq_nth in Hk by exact Hk'. injection Hk as <-. reflexivity. }
  assert (Hface : face_of (entry caps hs ss xs k) = cap)
    by (cbn [entry face_of]; apply nth_error_nth; exact Hcap).
  assert (Hmat : matrix_of (entry caps hs ss xs k) = Translation t)
    by (cbn [entry matrix_of]; apply nth_error_nth; exact Hx).
  assert (Hpos : map (co bm0) (face_verts cap)
                 = map (fun v => nth v (vertices it) zero_vector) (nth i (faces it) [])).
  { unfold co, bm0. cbn [extruded_mesh bm_verts]. fold n. fold sel.
    apply (cap_positions (vertices it) sel (length (vertices it)) n k cap
             (input_face (faces it) ms i) (vertices it) eq_refl Hcap Hsel). }
  cbv zeta. split.
  - rewrite Hverts. rewrite <- Hpos, map_map.
    apply map_ext_in. intros v Hv.
    change (nth v (bm_verts bm2) zero_vector) with (co bm2 v).
    rewrite <- Hface in Hv |- *.
    refine (foldM_moves cfg lk (fun d => matrix_of d = Translation t)
              (fun ps d p => vadd p (mul_m4_v3 (local_rotation (calc_normal ps)) t))
              _ _ bm0 [] bm2 (new_extruded_faces res) _ _ Hfold
              (entry caps hs ss xs k) v Hvisit Hmat Hv).
    + intros bm acc [[[face h] sc] m] bm1 acc1 Hm Hnd Hr Hstep w Hw.
      cbn [matrix_of face_of] in *. subst m.
      exact (transform_cap_translation cfg lk bm acc face h sc t bm1 acc1
               Hmode Hnd Hr Hstep w Hw).
    + apply (face_data_apart (mask_mode cfg) sel (length (vertices it)) n ms hs ss xs);
        change (caps_of (length (vertices it)) n sel) with caps; lia.
    + intros d Hd. apply face_data_entry in Hd as [j [Hj ->]]; try lia.
      cbn [entry face_of].
      assert (Hc : In (nth j caps default_face) caps) by (apply nth_In; exact Hj).
      split.
      * eapply caps_of_NoDup; exact Hc.
      * intros w Hw. unfold bm0. cbn [extruded_mesh bm_verts].
        rewrite length_app, new_verts_of_length.
        eapply caps_of_range; [exact Hc | exact Hw].
  - intros Hn Htx Hty. destruct t as [tx ty tz]. cbn [vx vy vz] in *. subst tx ty.
    apply local_rotation_z. exact Hn.
Qed.

(** The hypotheses of X18 hold for a triangle whose matrix translates by 5
    along Z. *)
Lemma X18_matrix_translation_witness :
  exists res cap,
    process_item (MK := reference_kernel) example_matrix_mode example_links
      shifted_triangle = inr res
    /\ nth_error (extruded_caps NOTRANSFORM (vertices shifted_triangle)
                    (faces shifted_triangle) [1%Z]) 0 = Some cap
    /\ let ps := map (fun v => nth v (vertices shifted_triangle) zero_vector)
                   (nth 0 (faces shifted_triangle) []) in
       let rot := local_rotation (calc_normal (MeshKernel := reference_kernel) ps) in
       map (fun v => nth v (new_vertices res) zero_vector) (face_verts cap)
       = map (fun p => vadd p (mul_m4_v3 rot (mkVector 0%R 0%R 5%R))) ps
       /\ (~ (vx (calc_normal (MeshKernel := reference_kernel) ps) = 0%R
              /\ vy (calc_normal (MeshKernel := reference_kernel) ps) = 0%R) ->
           vx (mkVector 0%R 0%R 5%R) = 0%R -> vy (mkVector 0%R 0%R 5%R) = 0%R ->
           mul_m4_v3 rot (mkVector 0%R 0%R 5%R)
           = vscale (calc_normal (MeshKernel := reference_kernel) ps)
               (vz (mkVector 0%R 0%R 5%R))).
Proof.
  destruct (process_item (MK := reference_kernel) example_matrix_mode example_links
              shifted_triangle) as [e | res] eqn:E.
  - exfalso. apply process_item_inl in E
      as [(_ & _ & He) | [(_ & H) | [(_ & (n & c & H)) | (_ & Hm & _)]]].
    + cbn in He. destruct He as [He | [He | [He | He]]]; discriminate.
    + eapply H. cbv -[IZR]. reflexivity.
    + destruct (local_space_R n c) as (space & E & _). congruence.
    + discriminate.
  - exists res.
    destruct (@X18_matrix_translation reference_kernel example_matrix_mode example_links
                shifted_triangle res [1%Z] [Translation (mkVector 0%R 0%R 5%R)] 0 0
                (mkVector 0%R 0%R 5%R)
                eq_refl E eq_refl eq_refl eq_refl eq_refl eq_refl) as [cap [H1 H2]].
    exists cap. split; [reflexivity |]. split; [exact H1 | exact H2].
Defined.

(** ** The batch *)

Lemma longest_ge (ls : list nat) (x : nat) : In x ls -> x <= longest ls.
Proof.
  unfold longest. induction ls as [| y ls IH]; [contradiction |].
  cbn [fold_right]. intros [-> | H]; [lia |]. specialize (IH H). lia.
Qed.

Lemma combine_nth_error {A B} (l : list A) (l' : list B) (k : nat) (a : A) (b : B) :
  nth_error l k = Some a -> nth_error l' k = Some b ->
  nth_error (combine l l') k = Some (a, b).
Proof.
  revert l' k. induction l as [| x l IH]; intros [| y l'] [| k] Ha Hb;
    try discriminate; cbn in *.
  - congruence.
  - apply IH; assumption.
Qed.

Lemma Forall2_nth_error {A B} (R : A -> B -> Prop) (l : list A) (l' : list B) :
  Forall2 R l l' ->
  forall k a b, nth_error l k = Some a -> nth_error l' k = Some b -> R a b.
Proof.
  induction 1 as [| x y l l' Hxy _ IH]; intros [| k] a b Ha Hb; try discriminate.
  - cbn in Ha, Hb. congruence.
  - cbn in Ha, Hb. eapply IH; eassumption.
Qed.

Section RepeatLast.
Context {A : Type}.

Lemma repeat_last_length (l : list A) (n : nat) :
  l <> [] -> length l <= n -> length (repeat_last l n) = n.
Proof.
  intros Hne Hn. unfold repeat_last.
  destruct (last_elem l) as [a |] eqn:E.
  - rewrite length_app, repeat_length. lia.
  - apply last_elem_none in E. contradiction.
Qed.

Lemma last_is_nth (l : list A) (d : A) : last l d = nth (length l - 1) l d.
Proof.
  induction l as [| a l IH]; [reflexivity |].
  destruct l as [| b l]; [reflexivity |].
  change (last (b :: l) d = nth (length (b :: l) - 1) (b :: l) d) in IH.
  change (last (b :: l) d = nth (length l) (b :: l) d).
  rewrite IH. cbn [length]. rewrite Nat.sub_succ, Nat.sub_0_r. reflexivity.
Qed.

(** Past the end of a list the batch repeats its last entry. *)
Lemma repeat_last_nth_error (l : list A) (n k : nat) (d : A) :
  l <> [] -> length l <= n -> k < n ->
  nth_error (repeat_last l n) k = Some (entry_for_turn l k d).
Proof.
  intros Hne Hn Hk. unfold repeat_last, entry_for_turn.
  rewrite (last_elem_last l d Hne).
  assert (0 < length l) by (destruct l; [congruence | simpl; lia]).
  destruct (Nat.lt_ge_cases k (length l)) as [Hlt | Hge].
  - rewrite nth_error_app1 by exact Hlt.
    replace (Nat.min k (length l - 1)) with k by lia.
    apply nth_error_nth'. exact Hlt.
  - rewrite nth_error_app2 by exact Hge.
    replace (Nat.min k (length l - 1)) with (length l - 1) by lia.
    rewrite (nth_error_nth' _ d) by (rewrite repeat_length; lia).
    rewrite nth_repeat_lt by lia.
    f_equal. apply last_is_nth.
Qed.

End RepeatLast.

Section BatchFacts.
Context {F : Type} {SF : Scalar F} {MK : MeshKernel F}.

(** Lines 189-191 when no list is empty: the batch has as many meshes as
    the longest list, and a shorter list gives its last entry to the turns
    past its end. *)
Lemma meshes_of_nth_error (vertices_s : list (list (Vector F)))
  (edges_s : list (list (nat * nat))) (faces_s : list (list (list nat)))
  (masks_s : list (list Z)) (heights_s : list (list F))
  (scales_s : list (list (ScaleValue F))) (matrixes_s : list (list (Matrix F))) :
  vertices_s <> [] -> edges_s <> [] -> faces_s <> [] -> masks_s <> [] ->
  heights_s <> [] -> scales_s <> [] -> matrixes_s <> [] ->
  let n := longest [length vertices_s; length edges_s; length faces_s;
                    length masks_s; length heights_s; length scales_s;
                    length matrixes_s] in
  length (meshes_of vertices_s edges_s faces_s masks_s heights_s scales_s matrixes_s)
  = n
  /\ forall k, k < n ->
       nth_error
         (meshes_of vertices_s edges_s faces_s masks_s heights_s scales_s matrixes_s) k
       = Some (mkItem (entry_for_turn vertices_s k []) (entry_for_turn edges_s k [])
                 (entry_for_turn faces_s k []) (entry_for_turn masks_s k [])
                 (entry_for_turn heights_s k []) (entry_for_turn scales_s k [])
                 (entry_for_turn matrixes_s k [])).
Proof.
  intros Hv He Hf Hm Hh Hs Hx n.
  assert (Lv : length vertices_s <= n) by (apply longest_ge; cbn; tauto).
  assert (Le : length edges_s <= n) by (apply longest_ge; cbn; tauto).
  assert (Lf : length faces_s <= n) by (apply longest_ge; cbn; tauto).
  assert (Lm : length masks_s <= n) by (apply longest_ge; cbn; tauto).
  assert (Lh : length heights_s <= n) by (apply longest_ge; cbn; tauto).
  assert (Ls : length scales_s <= n) by (apply longest_ge; cbn; tauto).
  assert (Lx : length matrixes_s <= n) by (apply longest_ge; cbn; tauto).
  unfold meshes_of. fold n. split.
  - rewrite length_map, !length_combine, !repeat_last_length by assumption. lia.
  - intros k Hk.
    apply (map_nth_error
             (fun t : _ * _ * _ * _ * _ * _ * _ =>
                match t with (v, e, f, m, h, s, x) => mkItem v e f m h s x end) k
             _
             (d := (entry_for_turn vertices_s k [], entry_for_turn edges_s k [],
                    entry_for_turn faces_s k [], entry_for_turn masks_s k [],
                    entry_for_turn heights_s k [], entry_for_turn scales_s k [],
                    entry_for_turn matrixes_s k []))).
    repeat apply combine_nth_error; apply repeat_last_nth_error; assumption.
Qed.

End BatchFacts.

(** X19. The batch.  When both guards pass, no input list is empty and
    [process] returns, the outputs hold one entry per mesh of the batch, as
    many as the longest of the seven input lists has entries; the entry of
    rank [k] is what the loop body returns on the entries of rank [k] of
    the seven lists, a list shorter than that giving its last entry. *)
Theorem X19_batch {F : Type} {SF : Scalar F} {MK : MeshKernel F}
  (node : Node F) (outs : Outputs F) (matrixes_s : list (list (Matrix F))) :
  is_linked (in_Vertices (inputs node)) = true ->
  is_linked (in_Polygons (inputs node)) = true ->
  any_output_linked (output_links node) = true ->
  matrixes_of (inputs node) = inr matrixes_s ->
  ~ In 0 (batch_lengths (inputs node) matrixes_s) ->
  process node = inr outs ->
  exists rs,
    out_Vertices outs = Some (map new_vertices rs)
    /\ out_Polygons outs = Some (map new_faces rs)
    /\ out_ExtrudedPolys outs = Some (map new_extruded_faces rs)
    /\ out_OtherPolys outs = Some (map new_other_faces rs)
    /\ length rs = longest (batch_lengths (inputs node) matrixes_s)
    /\ forall k r, nth_error rs k = Some r ->
         process_item (config node) (links_of node)
           (item_for_turn (inputs node) matrixes_s k) = inr r.
Proof.
  intros HV HP HO Hx Hne H. unfold process in H. rewrite HV, HP, HO, Hx in H.
  cbn [andb negb bind] in H. bind_inv H. injection H as <-. rename a into rs.
  apply mapM_Forall2 in Ha.
  assert (Hnz : forall A (l : list A), In (length l) (batch_lengths (inputs node) matrixes_s)
                                       -> l <> []).
  { intros A l Hin ->. apply Hne. exact Hin. }
  destruct (meshes_of_nth_error
              (sv_data (in_Vertices (inputs node)))
              (sv_get_default (in_Edges (inputs node)) [[]])
              (sv_get_default (in_Polygons (inputs node)) [[]])
              (sv_get_default (in_Mask (inputs node)) [[1%Z]])
              (sv_data (in_Height (inputs node)))
              (sv_data (in_Scale (inputs node))) matrixes_s)
    as [Hlen Hnth]; try (apply Hnz; cbn; tauto).
  exists rs. cbn [out_Vertices out_Polygons out_ExtrudedPolys out_OtherPolys].
  repeat (split; [reflexivity |]). split.
  - rewrite <- (Forall2_length Ha). exact Hlen.
  - intros k r Hr.
    assert (Hk : k < length rs) by (apply nth_error_Some; rewrite Hr; discriminate).
    rewrite <- (Forall2_length Ha), Hlen in Hk.
    exact (Forall2_nth_error _ _ _ Ha k _ r (Hnth k Hk) Hr).
Qed.

(** The hypotheses of X19 hold for the node fed with two squares and one
    list of heights. *)
Lemma X19_batch_witness :
  exists rs : list (@ItemResult Q),
    length rs = 2
    /\ forall k r, nth_error rs k = Some r ->
         process_item (MK := reference_kernel) (config example_linked_node)
           (links_of example_linked_node)
           (item_for_turn (inputs example_linked_node) [[identity]] k) = inr r.
Proof.
  assert (E : process (MK := reference_kernel) example_linked_node
              = inr (mkOutputs
                       (Some [unit_square ++
                                [mkVector 0%Q 0%Q 1%Q; mkVector 1%Q 0%Q 1%Q;
                                 mkVector 1%Q 1%Q 1%Q; mkVector 0%Q 1%Q 1%Q];
                              unit_square])
                       (Some [[[4; 5; 6; 7]; [1; 5; 4; 0]; [2; 6; 5; 1]; [3; 7; 6; 2];
                               [0; 4; 7; 3]]; [[0; 1; 2; 3]]])
                       (Some [[[4; 5; 6; 7]]; []])
                       (Some [[]; []])
                       (Some [[1%Z; 0%Z; 0%Z; 0%Z; 0%Z]; [0%Z]]))) by runs.
  assert (Hne : ~ In 0 (batch_lengths (inputs example_linked_node) [[identity]])).
  { cbn. intros [H | [H | [H | [H | [H | [H | [H | []]]]]]]]; discriminate. }
  destruct (@X19_batch Q QScalar reference_kernel example_linked_node _ [[identity]]
              eq_refl eq_refl eq_refl eq_refl Hne E)
    as (rs & _ & _ & _ & _ & Hlen & Hk).
  exists rs. split; [exact Hlen | exact Hk].
Defined.
